(** * Libertinus font build script: a shallow embedding of [tools/build.py]

    The development follows the Python module top to bottom:
    - [Py]            the fragments of Python the script relies on (truthiness,
                      [and]/[or], [round], [int], [str.split], insertion-ordered
                      dictionaries, exceptions as an error result);
    - [HintPen], [OutlineCompiler]   the charstring generator;
    - [Font]          [_draw_over_under_line], [_make_over_under_line] and
                      [_post_process].

    A Python float is an IEEE 754 double, with the rounding of Python's
    arithmetic: the four bounds of a bounding box are floats, a point
    coordinate is an integer or a float.  The coordinates a pen receives from
    the outline simplifier are rationals; glyph advance widths and metadata
    scalars are integers, as the font sources store them. *)

From Stdlib Require Import ZArith QArith List String Ascii Bool Lia.
From Stdlib Require Import Permutation Sorted DecimalString.
From Stdlib Require PrimFloat SpecFloat FloatOps.
Import ListNotations.

Local Open Scope string_scope.
Local Open Scope Z_scope.

(* ------------------------------------------------------------------ *)
(** ** Python fragments *)
(* ------------------------------------------------------------------ *)

Module Py.

(** Exceptions the script can run into; a raised exception aborts the build. *)
Inductive PyError : Type :=
| KeyError
| AttributeError
| TypeError
| ValueError
| OverflowError.

Inductive result (A : Type) : Type :=
| Ok (a : A)
| Raise (e : PyError).

Arguments Ok {A} a.
Arguments Raise {A} e.

Definition bind {A B : Type} (r : result A) (k : A -> result B) : result B :=
  match r with
  | Ok a => k a
  | Raise e => Raise e
  end.

Fixpoint mapM {A B : Type} (f : A -> result B) (l : list A) : result (list B) :=
  match l with
  | [] => Ok []
  | a :: l' =>
      match f a with
      | Ok b =>
          match mapM f l' with
          | Ok bs => Ok (b :: bs)
          | Raise e => Raise e
          end
      | Raise e => Raise e
      end
  end.

Fixpoint foldM {A S : Type} (f : S -> A -> result S) (l : list A) (s : S)
  : result S :=
  match l with
  | [] => Ok s
  | a :: l' =>
      match f s a with
      | Ok s' => foldM f l' s'
      | Raise e => Raise e
      end
  end.

(** Values that flow through the width expression and a charstring program:
    [None], booleans, integers, and operator names. *)
Inductive PyObj : Type :=
| PyNone
| PyBool (b : bool)
| PyInt (z : Z)
| PyStr (s : string).

(** Truth value testing. *)
Definition truthy (v : PyObj) : bool :=
  match v with
  | PyNone => false
  | PyBool b => b
  | PyInt z => negb (z =? 0)
  | PyStr s => negb (String.eqb s "")
  end.

(** [a and b] yields [a] when [a] is falsy, else [b]. *)
Definition py_and (a b : PyObj) : PyObj := if truthy a then b else a.

(** [a or b] yields [a] when [a] is truthy, else [b]. *)
Definition py_or (a b : PyObj) : PyObj := if truthy a then a else b.

Definition is_not_None (v : PyObj) : bool :=
  match v with
  | PyNone => false
  | _ => true
  end.

(** [round(x)] with one argument: nearest integer, ties to the even one. *)
Definition py_round (x : Q) : Z :=
  let n := Qnum x in
  let d := Zpos (Qden x) in
  let q := n / d in
  let r := n mod d in
  match 2 * r ?= d with
  | Lt => q
  | Gt => q + 1
  | Eq => if Z.even q then q else q + 1
  end.

(** [int(x)] on a number: truncation toward zero. *)
Definition py_int (x : Q) : Z := Z.quot (Qnum x) (Zpos (Qden x)).

(** [x.is_integer()] *)
Definition is_integer (x : Q) : bool := Qnum x mod Zpos (Qden x) =? 0.

(** [a / b] on integers is true division. *)
Definition truediv (a b : Z) : Q :=
  match b with
  | Zpos p => Qmake a p
  | Zneg p => Qmake (- a) p
  | Z0 => 0%Q
  end.

(** *** Numbers: [int] and [float]

    A Python float is an IEEE 754 double: every operation on floats rounds
    its exact result to the nearest double, ties to even.  A number is an
    integer of any size or a float. *)
Inductive PyNum : Type :=
| PyI (z : Z)
| PyF (f : PrimFloat.float).

(** [float(z)]: the nearest double, [OverflowError] when it is out of
    range. *)
Definition float_of_int (z : Z) : result PrimFloat.float :=
  match SpecFloat.binary_normalize FloatOps.prec FloatOps.emax z 0 false with
  | SpecFloat.S754_infinity _ => Raise OverflowError
  | sf => Ok (FloatOps.SF2Prim sf)
  end.

(** The value of a finite double with sign [s], mantissa [m] and exponent
    [e]: plus or minus [m * 2 ^ e]. *)
Definition finite_value (s : bool) (m : positive) (e : Z) : Q :=
  let magnitude :=
    match e with
    | Z0 => Qmake (Zpos m) 1
    | Zpos p => Qmake (Zpos m * 2 ^ Zpos p) 1
    | Zneg p => Qmake (Zpos m) (2 ^ p)
    end in
  if s then Qopp magnitude else magnitude.

(** The exact value of a float; an infinity and a NaN have none. *)
Definition float_value (f : PrimFloat.float) : option Q :=
  match FloatOps.Prim2SF f with
  | SpecFloat.S754_zero _ => Some 0%Q
  | SpecFloat.S754_finite s m e => Some (finite_value s m e)
  | SpecFloat.S754_infinity _ => None
  | SpecFloat.S754_nan => None
  end.

(** [int(f)] on a float: truncation toward zero; an infinity is an
    [OverflowError], a NaN a [ValueError]. *)
Definition float_int (f : PrimFloat.float) : result Z :=
  match FloatOps.Prim2SF f with
  | SpecFloat.S754_zero _ => Ok 0
  | SpecFloat.S754_finite s m e => Ok (py_int (finite_value s m e))
  | SpecFloat.S754_infinity _ => Raise OverflowError
  | SpecFloat.S754_nan => Raise ValueError
  end.

(** [round(f)] on a float, with one argument. *)
Definition float_round (f : PrimFloat.float) : result Z :=
  match FloatOps.Prim2SF f with
  | SpecFloat.S754_zero _ => Ok 0
  | SpecFloat.S754_finite s m e => Ok (py_round (finite_value s m e))
  | SpecFloat.S754_infinity _ => Raise OverflowError
  | SpecFloat.S754_nan => Raise ValueError
  end.

(** ["%d" % z] *)
Definition format_d (z : Z) : string := NilZero.string_of_int (Z.to_int z).

(** [sep.join(l)] *)
Fixpoint join (sep : string) (l : list string) : string :=
  match l with
  | [] => ""
  | [s] => s
  | s :: l' => s ++ sep ++ join sep l'
  end.

(** [s.split(sep)] for a one-character separator. *)
Fixpoint split (sep : ascii) (s : string) : list string :=
  match s with
  | EmptyString => [EmptyString]
  | String c r =>
      if Ascii.eqb c sep then EmptyString :: split sep r
      else match split sep r with
           | h :: t => String c h :: t
           | [] => [String c EmptyString]
           end
  end.

(** White space [int()] strips around an ASCII literal. *)
Definition is_space (c : ascii) : bool :=
  let n := nat_of_ascii c in
  (Nat.eqb n 32 || (Nat.leb 9 n && Nat.leb n 13) || (Nat.leb 28 n && Nat.leb n 31))%bool.

Definition digit_of (c : ascii) : option Z :=
  let n := nat_of_ascii c in
  if (Nat.leb 48 n && Nat.leb n 57)%bool then Some (Z.of_nat (n - 48)) else None.

Fixpoint lstrip (s : string) : string :=
  match s with
  | String c r => if is_space c then lstrip r else s
  | EmptyString => EmptyString
  end.

Fixpoint rev_string (acc s : string) : string :=
  match s with
  | EmptyString => acc
  | String c r => rev_string (String c acc) r
  end.

Definition strip (s : string) : string :=
  rev_string "" (lstrip (rev_string "" (lstrip s))).

(** Decimal digits, single underscores allowed between two digits. *)
Fixpoint digits (acc : Z) (after_digit : bool) (s : string) : option Z :=
  match s with
  | EmptyString => if after_digit then Some acc else None
  | String c r =>
      match digit_of c with
      | Some d => digits (10 * acc + d) true r
      | None =>
          if (Ascii.eqb c "_" && after_digit)%bool then digits acc false r
          else None
      end
  end.

(** [int(s)] on a string of ASCII characters, base ten. *)
Definition int_of_ascii (s : string) : result Z :=
  match strip s with
  | String "-" r =>
      match digits 0 false r with
      | Some z => Ok (- z)
      | None => Raise ValueError
      end
  | String "+" r =>
      match digits 0 false r with
      | Some z => Ok z
      | None => Raise ValueError
      end
  | t =>
      match digits 0 false t with
      | Some z => Ok z
      | None => Raise ValueError
      end
  end.

Fixpoint is_ascii (s : string) : bool :=
  match s with
  | EmptyString => true
  | String c r => (Nat.ltb (nat_of_ascii c) 128 && is_ascii r)%bool
  end.

(** Strings are held as their UTF-8 bytes.  Outside ASCII, [int()] also reads
    the decimal digits and the white space of other scripts, by the character
    tables of the interpreter; those tables are not part of the script and
    are taken as given: [int_of_numeral s] is the integer [int(s)] returns on
    a string with a non-ASCII character, [None] when it raises
    [ValueError]. *)
Class Numerals : Type := {
  int_of_numeral : string -> option Z
}.

(** [int(s)] on a string, base ten. *)
Definition int_of_str `{Numerals} (s : string) : result Z :=
  if is_ascii s then int_of_ascii s
  else match int_of_numeral s with
       | Some z => Ok z
       | None => Raise ValueError
       end.

(** *** Insertion-ordered dictionaries *)

Section Dict.
Context {K V : Type} (eqb : K -> K -> bool).

Definition dict : Type := list (K * V).

Fixpoint dict_get (k : K) (d : dict) : option V :=
  match d with
  | [] => None
  | (k', v) :: d' => if eqb k k' then Some v else dict_get k d'
  end.

(** [d[k]] *)
Definition getitem (k : K) (d : dict) : result V :=
  match dict_get k d with
  | Some v => Ok v
  | None => Raise KeyError
  end.

(** [k in d] *)
Definition dict_in (k : K) (d : dict) : bool :=
  match dict_get k d with
  | Some _ => true
  | None => false
  end.

(** [d[k] = v]: an existing key keeps its position, a new one goes last. *)
Fixpoint dict_set (k : K) (v : V) (d : dict) : dict :=
  match d with
  | [] => [(k, v)]
  | (k', v') :: d' =>
      if eqb k k' then (k', v) :: d' else (k', v') :: dict_set k v d'
  end.

Definition dict_keys (d : dict) : list K := map fst d.
End Dict.

Arguments dict : clear implicits.

(** [set.add] on a set kept as a duplicate-free list. *)
Fixpoint set_add (n : string) (s : list string) : list string :=
  match s with
  | [] => [n]
  | m :: s' => if String.eqb n m then s else m :: set_add n s'
  end.

(** [set(l)] *)
Definition set_of (l : list string) : list string :=
  fold_left (fun s n => set_add n s) l [].

(** [sorted(l, key=key)]: a stable sort on the keys. *)
Fixpoint insert_by {A : Type} (key : A -> Z) (a : A) (l : list A) : list A :=
  match l with
  | [] => [a]
  | b :: l' => if key a <? key b then a :: l else b :: insert_by key a l'
  end.

Definition sorted {A : Type} (key : A -> Z) (l : list A) : list A :=
  fold_left (fun acc a => insert_by key a acc) l [].

(** [s.count(c)] for a one-character [c]. *)
Fixpoint count (c : ascii) (s : string) : nat :=
  match s with
  | EmptyString => 0%nat
  | String a r => if Ascii.eqb a c then S (count c r) else count c r
  end.

(** [s.lower()] and [s.upper()] on ASCII text. *)
Definition lower_char (c : ascii) : ascii :=
  let n := nat_of_ascii c in
  if (Nat.leb 65 n && Nat.leb n 90)%bool then ascii_of_nat (n + 32) else c.

Definition upper_char (c : ascii) : ascii :=
  let n := nat_of_ascii c in
  if (Nat.leb 97 n && Nat.leb n 122)%bool then ascii_of_nat (n - 32) else c.

Fixpoint lower (s : string) : string :=
  match s with
  | EmptyString => EmptyString
  | String c r => String (lower_char c) (lower r)
  end.

Fixpoint upper (s : string) : string :=
  match s with
  | EmptyString => EmptyString
  | String c r => String (upper_char c) (upper r)
  end.

(** [d in s] on strings: [d] occurs in [s] as a contiguous piece. *)
Fixpoint contains_str (d s : string) : bool :=
  (String.prefix d s
   || match s with
      | EmptyString => false
      | String _ r => contains_str d r
      end)%bool.

End Py.

Import Py.

Declare Scope py_scope.
Notation "x <- e ;; k" := (bind e (fun x => k))
  (at level 61, e at next level, right associativity) : py_scope.
Local Open Scope py_scope.

(** String-keyed dictionaries, the only kind besides the width buckets. *)
Definition sdict (V : Type) : Type := dict string V.
Definition sget {V : Type} (k : string) (d : sdict V) : option V :=
  dict_get String.eqb k d.
Definition sgetitem {V : Type} (k : string) (d : sdict V) : result V :=
  getitem String.eqb k d.
Definition sin {V : Type} (k : string) (d : sdict V) : bool :=
  dict_in String.eqb k d.
Definition sset {V : Type} (k : string) (v : V) (d : sdict V) : sdict V :=
  dict_set String.eqb k v d.

(* ------------------------------------------------------------------ *)
(** ** The font model handed over by the source parser *)
(* ------------------------------------------------------------------ *)

Module ufoLib2.

Record Point : Type := {
  x : PyNum;
  y : PyNum;
  segmentType : option string
}.

Definition Contour : Type := list Point.

Record Component : Type := {
  baseGlyph : string;
  transformation : list Q
}.

(** What the parser stores under the keys of a glyph's MATH dictionary:
    scalars, flags, variant name lists, and assembly parts given as
    (component glyph, "flags,start,end,advance") pairs. *)
Inductive MathEntry : Type :=
| MathNumber (z : Z)
| MathFlag (b : bool)
| MathVariantList (l : list string)
| MathPartList (l : list (string * string)).

Record Glyph : Type := {
  name : string;
  width : Z;
  contours : list Contour;
  components : list Component;
  (** [glyph.lib.get(GLYPHCLASS_KEY)] *)
  lib_glyphclass : option string;
  (** [glyph.lib.get(MATH_KEY)] *)
  lib_math : option (sdict MathEntry)
}.

(** The default layer in iteration order, the declared glyph order, the
    font-level MATH constants and the feature text. *)
Record Font : Type := {
  glyphs : list Glyph;
  glyphOrder : list string;
  (** [font.lib.get(MATH_KEY)] *)
  font_lib_math : option (sdict Z);
  features_text : string
}.

(** (xMin, yMin, xMax, yMax): [bbox[0]], [bbox[1]], [bbox[-2]], [bbox[-1]].
    The library declares the four as floats, and they are held as such: a
    bound that arrives as an integer is the float of the same value. *)
Record BoundingBox : Type := {
  xMin : PrimFloat.float;
  yMin : PrimFloat.float;
  xMax : PrimFloat.float;
  yMax : PrimFloat.float
}.

Fixpoint find_glyph (n : string) (gs : list Glyph) : option Glyph :=
  match gs with
  | [] => None
  | g :: gs' => if String.eqb n (name g) then Some g else find_glyph n gs'
  end.

(** [n in font] *)
Definition contains (font : Font) (n : string) : bool :=
  match find_glyph n (glyphs font) with
  | Some _ => true
  | None => false
  end.

(** [font[n]] *)
Definition getitem (font : Font) (n : string) : result Glyph :=
  match find_glyph n (glyphs font) with
  | Some g => Ok g
  | None => Raise KeyError
  end.

Definition with_glyphs (font : Font) (gs : list Glyph) : Font :=
  {| glyphs := gs;
     glyphOrder := glyphOrder font;
     font_lib_math := font_lib_math font;
     features_text := features_text font |}.

Definition with_features_text (font : Font) (t : string) : Font :=
  {| glyphs := glyphs font;
     glyphOrder := glyphOrder font;
     font_lib_math := font_lib_math font;
     features_text := t |}.

(** A layer is keyed by glyph name: no two of its glyphs share one. *)
Fixpoint distinct (l : list string) : bool :=
  match l with
  | [] => true
  | a :: l' => (negb (existsb (String.eqb a) l') && distinct l')%bool
  end.

Definition unique_names (font : Font) : bool :=
  distinct (map name (glyphs font)).

(** The MATH dictionary of a glyph, empty when the glyph has none. *)
Definition math_entries (g : Glyph) : sdict MathEntry :=
  match lib_math g with
  | Some math => math
  | None => []
  end.

(** The glyph with [glyph.lib[MATH_KEY][key] = e]. *)
Definition set_math_entry (g : Glyph) (key : string) (e : MathEntry) : Glyph :=
  {| name := name g;
     width := width g;
     contours := contours g;
     components := components g;
     lib_glyphclass := lib_glyphclass g;
     lib_math := Some (sset key e (math_entries g)) |}.

(** [font.newGlyph(n)] followed by the attribute assignments and the pen
    calls made on the fresh glyph; an existing name is a [KeyError]. *)
Definition newGlyph (font : Font) (g : Glyph) : result Font :=
  if contains font (name g) then Raise KeyError
  else Ok (with_glyphs font (glyphs font ++ [g])).

End ufoLib2.

(** One call on a segment pen. *)
Inductive PenCall : Type :=
| moveTo (pt : Q * Q)
| lineTo (pt : Q * Q)
| curveTo (pt1 pt2 pt3 : Q * Q)
| closePath
| endPath.

(** The collaborators the script calls into and does not define: the
    interpreter's reading of non-ASCII numerals, the bounds of a glyph drawn
    in its font, the outline after component flattening and
    overlap removal as the pen calls replayed by [path.draw], and the
    autohinter with its charstring converter. *)
Class Externals : Type := {
  numerals :: Numerals;
  getBounds : ufoLib2.Font -> ufoLib2.Glyph -> option ufoLib2.BoundingBox;
  simplified_outline : ufoLib2.Font -> ufoLib2.Glyph -> list PenCall;
  hint_bez_glyph : string -> string -> result string;
  convertBezToT2 : string -> result (list PyObj)
}.

(* ------------------------------------------------------------------ *)
(** ** class HintPen *)
(* ------------------------------------------------------------------ *)

Module HintPen.

Record t : Type := {
  _width : PyObj;
  _info : string;
  _bez : list string;
  _done : bool
}.

Definition init (width : PyObj) (name info : string) : t :=
  {| _width := width;
     _info := info;
     _bez := ["% " ++ name; "sc"];
     _done := false |}.

Definition append (self : t) (line : string) : t :=
  {| _width := _width self;
     _info := _info self;
     _bez := _bez self ++ [line];
     _done := _done self |}.

Definition _point (point : list Q) : string :=
  join " " (map (fun pt => format_d (py_round pt)) point).

Definition coords (pt : Q * Q) : list Q := [fst pt; snd pt].

Definition _moveTo (self : t) (pt : Q * Q) : t :=
  append self (_point (coords pt) ++ " mt").

Definition _lineTo (self : t) (pt : Q * Q) : t :=
  append self (_point (coords pt) ++ " dt").

Definition _curveToOne (self : t) (pt1 pt2 pt3 : Q * Q) : t :=
  append self (_point (coords pt1 ++ coords pt2 ++ coords pt3) ++ " ct").

Definition _closePath (self : t) : t := append self "cp".

Definition _endPath (self : t) : t :=
  {| _width := _width self;
     _info := _info self;
     _bez := _bez self ++ ["ed"];
     _done := true |}.

(** The pen protocol: each call lands in the matching method. *)
Definition call (self : t) (c : PenCall) : t :=
  match c with
  | moveTo pt => _moveTo self pt
  | lineTo pt => _lineTo self pt
  | curveTo pt1 pt2 pt3 => _curveToOne self pt1 pt2 pt3
  | closePath => _closePath self
  | endPath => _endPath self
  end.

Definition draw (calls : list PenCall) (self : t) : t :=
  fold_left call calls self.

Record Private : Type := {
  defaultWidthX : Z;
  nominalWidthX : Z
}.

Record T2CharString : Type := {
  program : list PyObj;
  private : Private;
  globalSubrs : option (list (list PyObj))
}.

Definition getCharString `{Externals} (self : t) (priv : Private)
  (subrs : option (list (list PyObj))) : result T2CharString :=
  let self := if _done self then self else _endPath self in
  hinted <- hint_bez_glyph (_info self) (join (String "010" "") (_bez self)) ;;
  program <- convertBezToT2 hinted ;;
  let program :=
    if is_not_None (_width self) then _width self :: program else program in
  Ok {| program := program; private := priv; globalSubrs := subrs |}.

End HintPen.

(* ------------------------------------------------------------------ *)
(** ** class OutlineCompiler *)
(* ------------------------------------------------------------------ *)

Module OutlineCompiler.

Import ufoLib2 HintPen.

(** [glyph.width == defaultWidth and None or glyph.width - nominalWidth] *)
Definition width_operand (glyph_width defaultWidth nominalWidth : Z) : PyObj :=
  py_or (py_and (PyBool (glyph_width =? defaultWidth)) PyNone)
        (PyInt (glyph_width - nominalWidth)).

Definition getCharStringForGlyph `{Externals} (allGlyphs : Font)
  (glyph : Glyph) (priv : Private) (subrs : option (list (list PyObj)))
  : result T2CharString :=
  let defaultWidth := defaultWidthX priv in
  let nominalWidth := nominalWidthX priv in
  let width := width_operand (ufoLib2.width glyph) defaultWidth nominalWidth in
  let info := "" in
  let pen := HintPen.init width (name glyph) info in
  let pen := HintPen.draw (simplified_outline allGlyphs glyph) pen in
  HintPen.getCharString pen priv subrs.

End OutlineCompiler.

(* ------------------------------------------------------------------ *)
(** ** The compiled tables the script writes *)
(* ------------------------------------------------------------------ *)

Module otTables.

Record MathValueRecord : Type := { Value : Z }.

(** A MathConstants attribute: a bare scalar or a value record. *)
Inductive ConstantField : Type :=
| Scalar (v : Z)
| Record_ (vr : MathValueRecord).

Record Coverage : Type := { glyphs : list string }.

Record MathItalicsCorrectionInfo : Type := {
  ici_Coverage : Coverage;
  ItalicsCorrection : list MathValueRecord
}.

Record MathTopAccentAttachment : Type := {
  TopAccentCoverage : Coverage;
  TopAccentAttachment : list MathValueRecord
}.

Record MathGlyphInfo : Type := {
  info_MathItalicsCorrectionInfo : MathItalicsCorrectionInfo;
  info_MathTopAccentAttachment : MathTopAccentAttachment;
  ExtendedShapeCoverage : option Coverage
}.

Record MathGlyphVariantRecord : Type := {
  VariantGlyph : string;
  AdvanceMeasurement : Z
}.

Record GlyphPartRecord : Type := {
  glyph : string;
  StartConnectorLength : Z;
  EndConnectorLength : Z;
  FullAdvance : Z;
  PartFlags : Z
}.

Record GlyphAssembly : Type := {
  asm_ItalicsCorrection : MathValueRecord;
  PartRecords : list GlyphPartRecord
}.

Record MathGlyphConstruction : Type := {
  con_GlyphAssembly : option GlyphAssembly;
  VariantCount : nat;
  con_MathGlyphVariantRecord : list MathGlyphVariantRecord
}.

Record MathVariants : Type := {
  MinConnectorOverlap : Z;
  VertGlyphCoverage : Coverage;
  VertGlyphConstruction : list MathGlyphConstruction;
  HorizGlyphCoverage : Coverage;
  HorizGlyphConstruction : list MathGlyphConstruction
}.

Record MATH : Type := {
  Version : Z;
  math_MathConstants : sdict ConstantField;
  math_MathGlyphInfo : MathGlyphInfo;
  math_MathVariants : MathVariants
}.

Record GDEF : Type := {
  (** [GlyphClassDef.classDefs], when the table has a class definition *)
  GlyphClassDef : option (sdict Z)
}.

End otTables.

(** The compiled font, as far as the script touches it. *)
Record TTFont : Type := {
  tt_GDEF : option otTables.GDEF;
  tt_MATH : option otTables.MATH
}.

Module otl.

Import otTables.

(** [{n: i for i, n in enumerate(font.glyphOrder)}] *)
Fixpoint enumerate {A : Type} (i : Z) (l : list A) : list (Z * A) :=
  match l with
  | [] => []
  | a :: l' => (i, a) :: enumerate (i + 1) l'
  end.

Definition make_glyphMap (order : list string) : sdict Z :=
  fold_left (fun m p => sset (snd p) (fst p) m) (enumerate 0 order) [].

(** Modelled from the spec: fontTools' [otlLib.builder.buildCoverage(glyphs,
    glyphMap)], which the script calls and does not define.  A coverage
    table holds the contributing glyph names without duplicates, sorted by
    ascending glyph ID: [sorted(set(glyphs), key=glyphMap.__getitem__)].  The
    library hands back [None] instead of a table for an empty collection,
    and fails with a [ValueError] on a name that has no glyph ID. *)
Definition buildCoverage (names : list string) (glyphMap : sdict Z)
  : result (option Coverage) :=
  match names with
  | [] => Ok None
  | _ :: _ =>
      keyed <- mapM (fun n =>
                       match sget n glyphMap with
                       | Some i => Ok (i, n)
                       | None => Raise ValueError
                       end) (set_of names) ;;
      Ok (Some {| glyphs := map snd (sorted fst keyed) |})
  end.

(** The glyph IDs of a list of names, when every name has one. *)
Fixpoint glyph_ids (glyphMap : sdict Z) (names : list string)
  : option (list Z) :=
  match names with
  | [] => Some []
  | n :: names' =>
      match sget n glyphMap, glyph_ids glyphMap names' with
      | Some i, Some ids => Some (i :: ids)
      | _, _ => None
      end
  end.

Fixpoint increasing (ids : list Z) : bool :=
  match ids with
  | a :: (b :: _) as rest => ((a <? b) && increasing rest)%bool
  | _ => true
  end.

(** The names all have glyph IDs, and these strictly increase. *)
Definition in_glyph_order (glyphMap : sdict Z) (names : list string) : bool :=
  match glyph_ids glyphMap names with
  | Some ids => increasing ids
  | None => false
  end.

(** Reading [coverage.glyphs] off the builder's result: on [None] the
    attribute access is an [AttributeError]. *)
Definition coverage_object (c : option Coverage) : result Coverage :=
  match c with
  | Some c => Ok c
  | None => Raise AttributeError
  end.

End otl.

(* ------------------------------------------------------------------ *)
(** ** class Font *)
(* ------------------------------------------------------------------ *)

Module Font.

Import otTables.

Definition is_mark (g : ufoLib2.Glyph) : bool :=
  match ufoLib2.lib_glyphclass g with
  | Some c => String.eqb c "mark"
  | None => false
  end.

(** *** Over- and underline variants *)

Definition line_point (px py : PyNum) : ufoLib2.Point :=
  {| ufoLib2.x := px; ufoLib2.y := py; ufoLib2.segmentType := Some "line" |}.

(** The glyph [_draw_over_under_line] adds for one width; [pos + height] is
    a sum of two floats. *)
Definition line_glyph (name : string) (width : Z)
  (pos height : PrimFloat.float) : ufoLib2.Glyph :=
  let left := PyI (-25 - width) in
  {| ufoLib2.name := name ++ "." ++ format_d width;
     ufoLib2.width := 0;
     ufoLib2.contours :=
       [[line_point left (PyF pos);
         line_point left (PyF (PrimFloat.add pos height));
         line_point (PyI 25) (PyF (PrimFloat.add pos height));
         line_point (PyI 25) (PyF pos)]];
     ufoLib2.components := [];
     ufoLib2.lib_glyphclass := Some "mark";
     ufoLib2.lib_math := None |}.

Definition _draw_over_under_line `{Externals} (font : ufoLib2.Font)
  (name : string) (widths : dict Z (list string)) : result ufoLib2.Font :=
  g <- ufoLib2.getitem font name ;;
  match getBounds font g with
  | None => Raise TypeError
  | Some bbox =>
      let pos := ufoLib2.yMin bbox in
      let height := PrimFloat.sub (ufoLib2.yMax bbox) (ufoLib2.yMin bbox) in
      foldM (fun font width =>
               ufoLib2.newGlyph font (line_glyph name width pos height))
            (sorted (fun w => w) (dict_keys widths)) font
  end.

Definition minwidth : Z := 50.

(** [max(round(glyph.width / minwidth) * minwidth, minwidth)] *)
Definition bucket (w : Z) : Z :=
  Z.max (py_round (truediv w minwidth) * minwidth) minwidth.

(** [glyphclass != 'mark' and glyph.width > 0] *)
Definition counted (glyph : ufoLib2.Glyph) : bool :=
  (negb (is_mark glyph) && (0 <? ufoLib2.width glyph))%bool.

(** The grouping loop of [_make_over_under_line]. *)
Definition collect_widths (gs : list ufoLib2.Glyph) : dict Z (list string) :=
  fold_left
    (fun widths glyph =>
       if counted glyph then
         let width := bucket (ufoLib2.width glyph) in
         let widths :=
           if dict_in Z.eqb width widths then widths
           else dict_set Z.eqb width [] widths in
         match dict_get Z.eqb width widths with
         | Some names =>
             dict_set Z.eqb width (names ++ [ufoLib2.name glyph])%list widths
         | None => widths
         end
       else widths)
    gs [].

Definition substitution_rule (bases : list string)
  (widths : dict Z (list string)) (width : Z) : string :=
  let replacements := map (fun name => name ++ "." ++ format_d width) bases in
  let members :=
    match dict_get Z.eqb width widths with
    | Some names => names
    | None => []
    end in
  "  sub [" ++ join " " members ++ "] [" ++ join " " bases ++ "]' by ["
    ++ join " " replacements ++ "];".

Definition _make_over_under_line `{Externals} (font : ufoLib2.Font)
  : result ufoLib2.Font :=
  let bases := filter (ufoLib2.contains font) ["uni0305"; "uni0332"] in
  match bases with
  | [] => Ok font
  | _ :: _ =>
      let widths := collect_widths (ufoLib2.glyphs font) in
      if Nat.eqb (List.length widths) 1 then Ok font
      else
        font <- foldM (fun font name => _draw_over_under_line font name widths)
                      bases font ;;
        let fea :=
          (["feature mark {";
            ("  @OverSet = [" ++ join " " bases ++ "];")%string;
            "  lookupflag UseMarkFilteringSet @OverSet;"]
           ++ map (substitution_rule bases widths)
                  (sorted (fun w => w) (dict_keys widths))
           ++ ["} mark;"])%list in
        Ok (ufoLib2.with_features_text font
              (ufoLib2.features_text font ++ join (String "010" "") fea))
  end.

(** *** Post-processing of the compiled font *)

(** The loop that forces the mark class into GDEF. *)
Definition mark_classes (gs : list ufoLib2.Glyph) (classdef : sdict Z)
  : sdict Z :=
  fold_left
    (fun classdef glyph =>
       if is_mark glyph then sset (ufoLib2.name glyph) 3 classdef
       else classdef)
    gs classdef.

Definition unwrapped_constants : list string :=
  ["ScriptPercentScaleDown";
   "ScriptScriptPercentScaleDown";
   "DelimitedSubFormulaMinHeight";
   "DisplayOperatorMinHeight";
   "RadicalDegreeBottomRaisePercent"].

(** [if c not in (...): vr = MathValueRecord(); vr.Value = v; v = vr] *)
Definition constant_field (c : string) (v : Z) : ConstantField :=
  if negb (existsb (String.eqb c) unwrapped_constants)
  then Record_ {| Value := v |}
  else Scalar v.

(** The loop filling [table.MathConstants]. *)
Definition math_constants (constants : sdict Z) : result (sdict ConstantField) :=
  foldM
    (fun attrs c =>
       if String.eqb c "MinConnectorOverlap" then Ok attrs
       else
         v <- sgetitem c constants ;;
         Ok (sset c (constant_field c v) attrs))
    (dict_keys constants) [].

(** The per-glyph dictionaries gathered from the glyph metadata. *)
Record Collected : Type := {
  extended : list string;
  italic : sdict MathValueRecord;
  accent : sdict MathValueRecord;
  vvars : sdict (list string);
  hvars : sdict (list string);
  vcomp : sdict (list (string * string));
  hcomp : sdict (list (string * string))
}.

Definition nothing_collected : Collected :=
  {| extended := []; italic := []; accent := [];
     vvars := []; hvars := []; vcomp := []; hcomp := [] |}.

(** The metadata is typed as the parser writes it; an entry of another
    shape under one of the keys read below is rejected. *)
Definition as_number (e : ufoLib2.MathEntry) : result Z :=
  match e with
  | ufoLib2.MathNumber z => Ok z
  | _ => Raise TypeError
  end.

Definition as_variants (e : ufoLib2.MathEntry) : result (list string) :=
  match e with
  | ufoLib2.MathVariantList l => Ok l
  | _ => Raise TypeError
  end.

Definition as_parts (e : ufoLib2.MathEntry)
  : result (list (string * string)) :=
  match e with
  | ufoLib2.MathPartList l => Ok l
  | _ => Raise TypeError
  end.

Definition read {A : Type} (key : string) (math : sdict ufoLib2.MathEntry)
  (shape : ufoLib2.MathEntry -> result A) : result A :=
  e <- sgetitem key math ;; shape e.

(** Variants and, nested under them, the composition of one axis. *)
Definition collect_axis (n : string) (math : sdict ufoLib2.MathEntry)
  (variants_key composition_key : string)
  (vars : sdict (list string)) (comp : sdict (list (string * string)))
  : result (sdict (list string) * sdict (list (string * string))) :=
  if sin variants_key math then
    vs <- read variants_key math as_variants ;;
    let vars := sset n vs vars in
    if sin composition_key math then
      ps <- read composition_key math as_parts ;;
      Ok (vars, sset n ps comp)
    else Ok (vars, comp)
  else Ok (vars, comp).

Definition collect_value (n : string) (math : sdict ufoLib2.MathEntry)
  (key : string) (d : sdict MathValueRecord) : result (sdict MathValueRecord) :=
  if sin key math then
    v <- read key math as_number ;;
    Ok (sset n {| Value := v |} d)
  else Ok d.

(** [if math:] on [glyph.lib.get(MATH_KEY)] *)
Definition declares_math (g : ufoLib2.Glyph) : bool :=
  match ufoLib2.lib_math g with
  | Some (_ :: _) => true
  | _ => false
  end.

(** [if constants:] on [font.lib.get(MATH_KEY)] *)
Definition constants_present (font : ufoLib2.Font) : bool :=
  match ufoLib2.font_lib_math font with
  | Some (_ :: _) => true
  | _ => false
  end.

(** The body of [if math:] for the glyph named [n]. *)
Definition collect_math (acc : Collected) (n : string)
  (math : sdict ufoLib2.MathEntry) : result Collected :=
  let extended :=
    if sin "IsExtendedShape" math then set_add n (extended acc)
    else extended acc in
  italic <- collect_value n math "ItalicCorrection" (italic acc) ;;
  accent <- collect_value n math "TopAccentHorizontal" (accent acc) ;;
  v <- collect_axis n math "GlyphVariantsVertical"
         "GlyphCompositionVertical" (vvars acc) (vcomp acc) ;;
  h <- collect_axis n math "GlyphVariantsHorizontal"
         "GlyphCompositionHorizontal" (hvars acc) (hcomp acc) ;;
  Ok {| extended := extended; italic := italic; accent := accent;
        vvars := fst v; hvars := fst h; vcomp := snd v; hcomp := snd h |}.

(** The body of the [for glyph in font] loop over the metadata. *)
Definition collect_glyph (acc : Collected) (g : ufoLib2.Glyph)
  : result Collected :=
  match ufoLib2.lib_math g with
  | None => Ok acc
  | Some [] => Ok acc
  | Some math => collect_math acc (ufoLib2.name g) math
  end.

Definition collect (gs : list ufoLib2.Glyph) : result Collected :=
  foldM collect_glyph gs nothing_collected.

Inductive Axis : Type :=
| Vertical
| Horizontal.

(** [bbox[-1] - bbox[1]] for the vertical axis, [bbox[-2] - bbox[0]] for the
    horizontal one: a difference of two floats. *)
Definition extent (axis : Axis) (bbox : ufoLib2.BoundingBox)
  : PrimFloat.float :=
  match axis with
  | Vertical => PrimFloat.sub (ufoLib2.yMax bbox) (ufoLib2.yMin bbox)
  | Horizontal => PrimFloat.sub (ufoLib2.xMax bbox) (ufoLib2.xMin bbox)
  end.

(** [extent + 1]: the integer 1 joins the sum as the float 1.0. *)
Definition padded (axis : Axis) (bbox : ufoLib2.BoundingBox)
  : PrimFloat.float :=
  PrimFloat.add (extent axis bbox) PrimFloat.one.

Definition variant_record `{Externals} (font : ufoLib2.Font) (axis : Axis)
  (variant : string) : result MathGlyphVariantRecord :=
  g <- ufoLib2.getitem font variant ;;
  match getBounds font g with
  | None => Raise TypeError
  | Some bbox =>
      measurement <- float_int (padded axis bbox) ;;
      Ok {| VariantGlyph := variant;
            AdvanceMeasurement := measurement |}
  end.

(** [f, s, e, a = [int(v) for v in comp[1].split(",")]] *)
Definition part_record `{Numerals} (comp : string * string)
  : result GlyphPartRecord :=
  fields <- mapM int_of_str (split "," (snd comp)) ;;
  match fields with
  | [f; s; e; a] =>
      Ok {| glyph := fst comp;
            StartConnectorLength := s;
            EndConnectorLength := e;
            FullAdvance := a;
            PartFlags := f |}
  | _ => Raise ValueError
  end.

(** The body of the [for name in coverage.glyphs] loop of one axis. *)
Definition glyph_construction `{Externals} (font : ufoLib2.Font) (axis : Axis)
  (vars : sdict (list string)) (comp : sdict (list (string * string)))
  (name : string) : result MathGlyphConstruction :=
  variants <- sgetitem name vars ;;
  records <- mapM (variant_record font axis) variants ;;
  assembly <-
    (if sin name comp then
       parts <- sgetitem name comp ;;
       part_records <- mapM part_record parts ;;
       Ok (Some {| asm_ItalicsCorrection := {| Value := 0 |};
                   PartRecords := part_records |})
     else Ok None) ;;
  Ok {| con_GlyphAssembly := assembly;
        VariantCount := List.length variants;
        con_MathGlyphVariantRecord := records |}.

(** A coverage table and the value array that runs parallel to it. *)
Definition covered_values (d : sdict MathValueRecord) (glyphMap : sdict Z)
  : result (Coverage * list MathValueRecord) :=
  coverage <- otl.buildCoverage (dict_keys d) glyphMap ;;
  coverage <- otl.coverage_object coverage ;;
  values <- mapM (fun n => sgetitem n d) (glyphs coverage) ;;
  Ok (coverage, values).

(** A coverage table and the constructions of one axis. *)
Definition axis_constructions `{Externals} (font : ufoLib2.Font) (axis : Axis)
  (vars : sdict (list string)) (comp : sdict (list (string * string)))
  (glyphMap : sdict Z) : result (Coverage * list MathGlyphConstruction) :=
  coverage <- otl.buildCoverage (dict_keys vars) glyphMap ;;
  coverage <- otl.coverage_object coverage ;;
  constructions <-
    mapM (glyph_construction font axis vars comp) (glyphs coverage) ;;
  Ok (coverage, constructions).

(** The body of [if constants:]. *)
Definition build_MATH `{Externals} (font : ufoLib2.Font) (constants : sdict Z)
  : result MATH :=
  let glyphMap := otl.make_glyphMap (ufoLib2.glyphOrder font) in
  attrs <- math_constants constants ;;
  c <- collect (ufoLib2.glyphs font) ;;
  ic <- covered_values (italic c) glyphMap ;;
  ac <- covered_values (accent c) glyphMap ;;
  ext <- otl.buildCoverage (extended c) glyphMap ;;
  overlap <- sgetitem "MinConnectorOverlap" constants ;;
  v <- axis_constructions font Vertical (vvars c) (vcomp c) glyphMap ;;
  h <- axis_constructions font Horizontal (hvars c) (hcomp c) glyphMap ;;
  Ok {| Version := 65536;
        math_MathConstants := attrs;
        math_MathGlyphInfo :=
          {| info_MathItalicsCorrectionInfo :=
               {| ici_Coverage := fst ic; ItalicsCorrection := snd ic |};
             info_MathTopAccentAttachment :=
               {| TopAccentCoverage := fst ac; TopAccentAttachment := snd ac |};
             ExtendedShapeCoverage := ext |};
        math_MathVariants :=
          {| MinConnectorOverlap := overlap;
             VertGlyphCoverage := fst v;
             VertGlyphConstruction := snd v;
             HorizGlyphCoverage := fst h;
             HorizGlyphConstruction := snd h |} |}.

(** The two halves of [table.MathVariants], the metadata keys and the
    gathered dictionaries of an axis. *)
Definition table_coverage (axis : Axis) (table : MATH) : Coverage :=
  match axis with
  | Vertical => VertGlyphCoverage (math_MathVariants table)
  | Horizontal => HorizGlyphCoverage (math_MathVariants table)
  end.

Definition table_constructions (axis : Axis) (table : MATH)
  : list MathGlyphConstruction :=
  match axis with
  | Vertical => VertGlyphConstruction (math_MathVariants table)
  | Horizontal => HorizGlyphConstruction (math_MathVariants table)
  end.

Definition variants_key (axis : Axis) : string :=
  match axis with
  | Vertical => "GlyphVariantsVertical"
  | Horizontal => "GlyphVariantsHorizontal"
  end.

Definition composition_key (axis : Axis) : string :=
  match axis with
  | Vertical => "GlyphCompositionVertical"
  | Horizontal => "GlyphCompositionHorizontal"
  end.

Definition vars_of (axis : Axis) (c : Collected) : sdict (list string) :=
  match axis with
  | Vertical => vvars c
  | Horizontal => hvars c
  end.

Definition comp_of (axis : Axis) (c : Collected)
  : sdict (list (string * string)) :=
  match axis with
  | Vertical => vcomp c
  | Horizontal => hcomp c
  end.

Definition _post_process `{Externals} (font : ufoLib2.Font) (otf : TTFont)
  : result TTFont :=
  gdef <- match tt_GDEF otf with
          | Some gdef => Ok gdef
          | None => Raise KeyError
          end ;;
  classdef <- match GlyphClassDef gdef with
              | Some classdef => Ok classdef
              | None => Raise AttributeError
              end ;;
  let classdef := mark_classes (ufoLib2.glyphs font) classdef in
  let otf := {| tt_GDEF := Some {| GlyphClassDef := Some classdef |};
                tt_MATH := tt_MATH otf |} in
  match ufoLib2.font_lib_math font with
  | None => Ok otf
  | Some [] => Ok otf
  | Some constants =>
      table <- build_MATH font constants ;;
      Ok {| tt_GDEF := tt_GDEF otf; tt_MATH := Some table |}
  end.

(** The two value tables of [table.MathGlyphInfo], their metadata keys and
    the dictionaries gathered for them. *)
Inductive ValueTable : Type :=
| ItalicsCorrectionTable
| TopAccentTable.

Definition value_key (t : ValueTable) : string :=
  match t with
  | ItalicsCorrectionTable => "ItalicCorrection"
  | TopAccentTable => "TopAccentHorizontal"
  end.

Definition value_coverage (t : ValueTable) (table : MATH) : Coverage :=
  match t with
  | ItalicsCorrectionTable =>
      ici_Coverage (info_MathItalicsCorrectionInfo (math_MathGlyphInfo table))
  | TopAccentTable =>
      TopAccentCoverage (info_MathTopAccentAttachment (math_MathGlyphInfo table))
  end.

Definition value_records (t : ValueTable) (table : MATH)
  : list MathValueRecord :=
  match t with
  | ItalicsCorrectionTable =>
      ItalicsCorrection
        (info_MathItalicsCorrectionInfo (math_MathGlyphInfo table))
  | TopAccentTable =>
      TopAccentAttachment
        (info_MathTopAccentAttachment (math_MathGlyphInfo table))
  end.

Definition values_of (t : ValueTable) (c : Collected) : sdict MathValueRecord :=
  match t with
  | ItalicsCorrectionTable => italic c
  | TopAccentTable => accent c
  end.

(** *** Metadata and preprocessor macros *)



Definition keywords : list string := ["italic"; "sans"; "display"; "math"].

(** [if features:] on the feature file argument, a path or [None]. *)
Definition given (features : option string) : bool :=
  match features with
  | Some path => negb (String.eqb path "")
  | None => false
  end.

(** The macros [__init__] defines: none without a feature file; with one,
    before it is preprocessed, [d.upper()] for each [d] of the four keywords
    with [d in filename.lower()]. *)
Definition defined_macros (filename : string) (features : option string)
  : list string :=
  if given features then
    map upper (filter (fun d => contains_str d (lower filename)) keywords)
  else [].

End Font.

(* ------------------------------------------------------------------ *)
(** ** Concrete collaborators and fonts used in the examples *)
(* ------------------------------------------------------------------ *)

Module Samples.

Import ufoLib2.

(** The coordinate as a float and as a rational; the samples hold finite
    numbers only. *)
Definition as_float (a : PyNum) : PrimFloat.float :=
  match a with
  | PyI z =>
      match float_of_int z with
      | Ok f => f
      | Raise _ => PrimFloat.nan
      end
  | PyF f => f
  end.

Definition coordinate (a : PyNum) : Q :=
  match float_value (as_float a) with
  | Some q => q
  | None => 0%Q
  end.

Definition smaller (a b : PrimFloat.float) : PrimFloat.float :=
  if PrimFloat.leb a b then a else b.
Definition larger (a b : PrimFloat.float) : PrimFloat.float :=
  if PrimFloat.leb a b then b else a.

(** Bounds of a glyph made of straight segments only: the extreme point
    coordinates, [None] for a glyph without points. *)
Definition point_bounds (g : Glyph) : option BoundingBox :=
  match List.concat (contours g) with
  | [] => None
  | p :: ps =>
      Some (fold_left
              (fun b q =>
                 {| xMin := smaller (xMin b) (as_float (x q));
                    yMin := smaller (yMin b) (as_float (y q));
                    xMax := larger (xMax b) (as_float (x q));
                    yMax := larger (yMax b) (as_float (y q)) |})
              ps
              {| xMin := as_float (x p); yMin := as_float (y p);
                 xMax := as_float (x p); yMax := as_float (y p) |})
  end.

Definition contour_calls (c : Contour) : list PenCall :=
  let at_point p := (coordinate (x p), coordinate (y p)) in
  match c with
  | [] => []
  | p :: ps =>
      (moveTo (at_point p) :: map (fun q => lineTo (at_point q)) ps
         ++ [closePath])%list
  end.

(** No numeral outside ASCII is read as a number. *)
Definition ascii_numerals : Numerals :=
  {| int_of_numeral := fun _ => None |}.

#[export] Instance straight_lines : Externals :=
  {| numerals := ascii_numerals;
     getBounds := fun _ g => point_bounds g;
     simplified_outline := fun _ g => List.concat (map contour_calls (contours g));
     hint_bez_glyph := fun _ bez => Ok bez;
     convertBezToT2 := fun _ => Ok [PyStr "endchar"] |}.

Definition rectangle (x0 y0 x1 y1 : PyNum) : Contour :=
  [Font.line_point x0 y0; Font.line_point x0 y1;
   Font.line_point x1 y1; Font.line_point x1 y0].

(** The doubles 800.75, 1500.5 and 512 - 2^-44, the last double below 512. *)
Definition f800_75 : PrimFloat.float :=
  FloatOps.SF2Prim (SpecFloat.S754_finite false 7043471487533056 (-43)).
Definition f1500_5 : PrimFloat.float :=
  FloatOps.SF2Prim (SpecFloat.S754_finite false 6599268789911552 (-42)).
Definition below_512 : PrimFloat.float :=
  FloatOps.SF2Prim (SpecFloat.S754_finite false 9007199254740991 (-44)).

Definition plain (n : string) (w : Z) (cs : list Contour) : Glyph :=
  {| name := n; width := w; contours := cs; components := [];
     lib_glyphclass := None; lib_math := None |}.

Definition with_math (g : Glyph) (m : sdict MathEntry) : Glyph :=
  {| name := name g; width := width g; contours := contours g;
     components := components g; lib_glyphclass := lib_glyphclass g;
     lib_math := Some m |}.

Definition as_mark (g : Glyph) : Glyph :=
  {| name := name g; width := width g; contours := contours g;
     components := components g; lib_glyphclass := Some "mark";
     lib_math := lib_math g |}.

Definition box : Contour := rectangle (PyI 0) (PyI 0) (PyI 400) (PyI 600).

(** A stretchy parenthesis: two vertical variants and a three-part
    assembly. *)
Definition parenleft : Glyph :=
  with_math (plain "parenleft" 300 [box])
    [("GlyphVariantsVertical", MathVariantList ["parenleft"; "parenleft.big"]);
     ("GlyphCompositionVertical",
      MathPartList [("parenleft.top", "0,0,50,300");
                    ("parenleft.ext", "1,100,100,200");
                    ("parenleft.bot", "0,50,0,300")])].

(** A glyph that declares a vertical composition and no vertical variants;
    its one part is not even well-formed. *)
Definition integral : Glyph :=
  with_math (plain "integral" 400 [box])
    [("GlyphCompositionVertical",
      MathPartList [("integral.top", "not,a,part")])].

Definition acutecomb : Glyph := as_mark (plain "acutecomb" 0 [box]).

(** A small math font; [parenleft.big] is 1000.75 units tall. *)
Definition math_glyphs : list Glyph :=
  [ with_math (plain "x" 500 [box])
      [("ItalicCorrection", MathNumber 12);
       ("TopAccentHorizontal", MathNumber 250)];
    with_math (plain "y" 480 [box])
      [("ItalicCorrection", MathNumber 7);
       ("IsExtendedShape", MathFlag true)];
    parenleft;
    plain "parenleft.big" 320
      [rectangle (PyI 0) (PyI (-200)) (PyI 300) (PyF f800_75)];
    with_math (plain "arrowright" 1000
                 [rectangle (PyI 0) (PyI 0) (PyI 1000) (PyI 300)])
      [("GlyphVariantsHorizontal", MathVariantList ["arrowright.long"])];
    plain "arrowright.long" 1500
      [rectangle (PyI 10) (PyI 0) (PyF f1500_5) (PyI 300)];
    integral;
    acutecomb ].

Definition math_order : list string :=
  [".notdef"; "y"; "arrowright"; "parenleft"; "integral"; "acutecomb";
   "parenleft.big"; "arrowright.long"; "x"].

Definition math_constants : sdict Z :=
  [("ScriptPercentScaleDown", 70);
   ("AxisHeight", 250);
   ("MinConnectorOverlap", 20)].

Definition math_font : Font :=
  {| glyphs := math_glyphs;
     glyphOrder := math_order;
     font_lib_math := Some math_constants;
     features_text := "" |}.

(** The same glyphs in a font without font-level MATH constants. *)
Definition text_font : Font :=
  {| glyphs := math_glyphs;
     glyphOrder := math_order;
     font_lib_math := None;
     features_text := "" |}.

Definition compiled : TTFont :=
  {| tt_GDEF := Some {| otTables.GlyphClassDef := Some [("x", 1); ("acutecomb", 1)] |};
     tt_MATH := None |}.

Definition overline : Contour :=
  rectangle (PyI 0) (PyI 700) (PyI 100) (PyI 740).

(** Widths 480 and 510 only: a single bucket, 500. *)
Definition one_bucket_font : Font :=
  {| glyphs := [plain "a" 480 [box]; plain "b" 510 [box];
                as_mark (plain "uni0305" 0 [overline])];
     glyphOrder := ["a"; "b"; "uni0305"];
     font_lib_math := None;
     features_text := "languagesystem DFLT dflt;" |}.

(** Widths 480, 510 and 1000: buckets 500 and 1000. *)
Definition two_bucket_font : Font :=
  {| glyphs := [plain "a" 480 [box]; plain "b" 510 [box]; plain "m" 1000 [box];
                as_mark (plain "uni0305" 0 [overline])];
     glyphOrder := ["a"; "b"; "m"; "uni0305"];
     font_lib_math := None;
     features_text := "" |}.

(** A font whose only glyph is the combining overline. *)
Definition overline_only_font : Font :=
  {| glyphs := [as_mark (plain "uni0305" 0 [overline])];
     glyphOrder := ["uni0305"];
     font_lib_math := None;
     features_text := "" |}.

(** [two_bucket_font] after synthesis, and the first glyph it gained. *)
Definition two_bucket_result : Font :=
  match Font._make_over_under_line two_bucket_font with
  | Ok font => font
  | Raise _ => two_bucket_font
  end.

Definition overline_500 : Glyph :=
  nth 4 (glyphs two_bucket_result) (plain "" 0 []).

End Samples.

(* ================================================================== *)
(** * Properties *)
(* ================================================================== *)

Import otTables.

(** ** The error result *)

Lemma bind_Ok {A B : Type} (r : result A) (k : A -> result B) (b : B) :
  bind r k = Ok b -> exists a, r = Ok a /\ k a = Ok b.
Proof.
  destruct r as [a | e]; simpl; intros Hk.
  - exists a. split; [reflexivity | exact Hk].
  - discriminate Hk.
Qed.

Ltac invert_bind H :=
  let a := fresh "a" in
  let Ha := fresh "Ha" in
  apply bind_Ok in H; destruct H as (a & Ha & H).

Lemma mapM_Ok_Forall2 {A B : Type} (f : A -> result B) (l : list A) (bs : list B) :
  mapM f l = Ok bs -> Forall2 (fun a b => f a = Ok b) l bs.
Proof.
  revert bs. induction l as [| a l IH]; simpl; intros bs H.
  - injection H as <-. constructor.
  - destruct (f a) as [b | e] eqn:Hfa; [| discriminate H].
    destruct (mapM f l) as [bs' | e] eqn:Hl; [| discriminate H].
    injection H as <-. constructor; [exact Hfa | apply IH; reflexivity].
Qed.

Lemma Forall2_mapM_Ok {A B : Type} (f : A -> result B) (l : list A) (bs : list B) :
  Forall2 (fun a b => f a = Ok b) l bs -> mapM f l = Ok bs.
Proof.
  induction 1 as [| a b l bs Hab _ IH]; simpl.
  - reflexivity.
  - rewrite Hab, IH. reflexivity.
Qed.

Lemma mapM_length {A B : Type} (f : A -> result B) (l : list A) (bs : list B) :
  mapM f l = Ok bs -> List.length bs = List.length l.
Proof.
  intros H. apply mapM_Ok_Forall2 in H.
  symmetry. eapply Forall2_length; exact H.
Qed.

Lemma mapM_ext_in {A B : Type} (f g : A -> result B) (l : list A) :
  (forall a, In a l -> f a = g a) -> mapM f l = mapM g l.
Proof.
  induction l as [| a l IH]; simpl; intros H.
  - reflexivity.
  - rewrite (H a (or_introl eq_refl)), IH; [reflexivity |].
    intros b Hb. apply H. right. exact Hb.
Qed.

(** ** Dictionaries *)

Lemma sget_sset_same {V : Type} (k : string) (v : V) (d : sdict V) :
  sget k (sset k v d) = Some v.
Proof.
  unfold sget, sset.
  induction d as [| [k' v'] d IH]; simpl.
  - rewrite String.eqb_refl. reflexivity.
  - destruct (String.eqb k k') eqn:E; simpl; rewrite E; [reflexivity | exact IH].
Qed.

Lemma sget_sset_other {V : Type} (k k0 : string) (v : V) (d : sdict V) :
  k0 <> k -> sget k0 (sset k v d) = sget k0 d.
Proof.
  unfold sget, sset. intros Hne.
  induction d as [| [k' v'] d IH]; simpl.
  - destruct (String.eqb k0 k) eqn:E; [| reflexivity].
    apply String.eqb_eq in E. contradiction.
  - destruct (String.eqb k k') eqn:E; simpl.
    + apply String.eqb_eq in E. subst k'.
      destruct (String.eqb k0 k) eqn:E0; [| reflexivity].
      apply String.eqb_eq in E0. contradiction.
    + rewrite IH. reflexivity.
Qed.

Lemma sget_In_keys {V : Type} (k : string) (d : sdict V) :
  In k (dict_keys d) <-> sget k d <> None.
Proof.
  unfold sget, dict_keys.
  induction d as [| [k' v'] d IH]; simpl.
  - split; [intros [] | intros H; now apply H].
  - destruct (String.eqb k k') eqn:E.
    + apply String.eqb_eq in E. subst k'. split; [discriminate | now left].
    + apply String.eqb_neq in E. rewrite <- IH. split.
      * intros [H | H]; [congruence | exact H].
      * intros H. right. exact H.
Qed.

Lemma sin_true {V : Type} (k : string) (d : sdict V) :
  sin k d = true <-> exists v, sget k d = Some v.
Proof.
  unfold sin, dict_in, sget.
  destruct (dict_get String.eqb k d) as [v |].
  - split; [intros _; now exists v | reflexivity].
  - split; [discriminate | intros [v Hv]; discriminate Hv].
Qed.

Lemma sin_false {V : Type} (k : string) (d : sdict V) :
  sin k d = false <-> sget k d = None.
Proof.
  unfold sin, dict_in, sget.
  destruct (dict_get String.eqb k d) as [v |].
  - split; discriminate.
  - split; reflexivity.
Qed.

Lemma sgetitem_Ok {V : Type} (k : string) (d : sdict V) (v : V) :
  sgetitem k d = Ok v <-> sget k d = Some v.
Proof.
  unfold sgetitem, getitem, sget.
  destruct (dict_get String.eqb k d) as [v' |].
  - split; intros H; injection H as <-; reflexivity.
  - split; discriminate.
Qed.

(** ** Width buckets *)

(** [round(w / 50)] spelled out on the quotient and remainder of [w] by 50. *)
Lemma round_fiftieth (w : Z) :
  py_round (truediv w Font.minwidth) =
    match 2 * (w mod 50) ?= 50 with
    | Lt => w / 50
    | Gt => w / 50 + 1
    | Eq => if Z.even (w / 50) then w / 50 else w / 50 + 1
    end.
Proof. reflexivity. Qed.

Lemma round_fiftieth_bounds (w : Z) :
  w / 50 <= py_round (truediv w Font.minwidth) <= w / 50 + 1.
Proof.
  rewrite round_fiftieth.
  destruct (2 * (w mod 50) ?= 50); [destruct (Z.even (w / 50)) | |]; lia.
Qed.

Lemma round_fiftieth_monotone (w1 w2 : Z) :
  w1 <= w2 ->
  py_round (truediv w1 Font.minwidth) <= py_round (truediv w2 Font.minwidth).
Proof.
  intros Hle.
  assert (Hq : w1 / 50 <= w2 / 50) by (apply Z.div_le_mono; lia).
  destruct (Z.eq_dec (w1 / 50) (w2 / 50)) as [Heq | Hne].
  - assert (Hr : w1 mod 50 <= w2 mod 50).
    { pose proof (Z.div_mod w1 50 ltac:(lia)).
      pose proof (Z.div_mod w2 50 ltac:(lia)). lia. }
    rewrite !round_fiftieth, Heq.
    destruct (Z.compare_spec (2 * (w1 mod 50)) 50);
      destruct (Z.compare_spec (2 * (w2 mod 50)) 50);
      destruct (Z.even (w2 / 50)); lia.
  - pose proof (round_fiftieth_bounds w1).
    pose proof (round_fiftieth_bounds w2). lia.
Qed.

(** C5. The bucket of a width is [max(round(w / 50) * 50, 50)]; buckets grow
    with the width, are never below 50, and every width under 50 lands in
    the bucket 50. *)
Theorem bucket_monotone_floor (w1 w2 : Z) (Hle : w1 <= w2) :
  Font.bucket w1 = Z.max (py_round (w1 # 50) * 50) 50 /\
  Font.bucket w1 <= Font.bucket w2 /\
  (0 < w1 -> 50 <= Font.bucket w1) /\
  (w1 < 50 -> Font.bucket w1 = 50).
Proof.
  repeat split.
  - unfold Font.bucket.
    pose proof (round_fiftieth_monotone w1 w2 Hle).
    unfold Font.minwidth in *. lia.
  - intros _. unfold Font.bucket, Font.minwidth. lia.
  - intros Hlt. unfold Font.bucket.
    pose proof (round_fiftieth_bounds w1) as Hb.
    assert (w1 / 50 <= 0).
    { destruct (Z_le_gt_dec (w1 / 50) 0) as [H0 | H0]; [exact H0 |].
      pose proof (Z.div_mod w1 50 ltac:(lia)).
      pose proof (Z.mod_pos_bound w1 50 ltac:(lia)). lia. }
    unfold Font.minwidth in *. lia.
Qed.

Lemma bucket_monotone_floor_witness :
  Font.bucket 480 <= Font.bucket 510 /\ 50 <= Font.bucket 480.
Proof.
  destruct (bucket_monotone_floor 480 510 ltac:(lia)) as (_ & Hmono & Hfloor & _).
  split; [exact Hmono | apply Hfloor; lia].
Defined.

(** ** The width operand of a charstring *)

(** [x == d and None or y] never yields [None]: when the comparison holds,
    [and] yields [None], which is falsy, so [or] yields its right operand. *)
Lemma width_operand_value (w defaultWidth nominalWidth : Z) :
  OutlineCompiler.width_operand w defaultWidth nominalWidth
  = PyInt (w - nominalWidth).
Proof.
  unfold OutlineCompiler.width_operand, py_or, py_and.
  destruct (w =? defaultWidth); simpl; reflexivity.
Qed.

Lemma draw_keeps_width (calls : list PenCall) (pen : HintPen.t) :
  HintPen._width (HintPen.draw calls pen) = HintPen._width pen.
Proof.
  unfold HintPen.draw. revert pen.
  induction calls as [| c calls IH]; simpl; intros pen.
  - reflexivity.
  - rewrite IH. destruct c; reflexivity.
Qed.

(** Every charstring the compiler returns starts with
    [glyph.width - nominalWidthX], whatever [defaultWidthX] is. *)
Lemma charstring_leads_with_width `{Externals} (allGlyphs : ufoLib2.Font)
  (glyph : ufoLib2.Glyph) (priv : HintPen.Private)
  (subrs : option (list (list PyObj))) (cs : HintPen.T2CharString) :
  OutlineCompiler.getCharStringForGlyph allGlyphs glyph priv subrs = Ok cs ->
  exists rest,
    HintPen.program cs
    = PyInt (ufoLib2.width glyph - HintPen.nominalWidthX priv) :: rest.
Proof.
  unfold OutlineCompiler.getCharStringForGlyph, HintPen.getCharString.
  intros Hcs.
  invert_bind Hcs. invert_bind Hcs. injection Hcs as <-. simpl.
  match goal with
  | |- context [HintPen._width ?p] =>
      assert (Hw : HintPen._width p
                   = PyInt (ufoLib2.width glyph - HintPen.nominalWidthX priv))
  end.
  { match goal with
    | |- context [if ?b then _ else _] => destruct b
    end; simpl; rewrite draw_keeps_width; simpl; apply width_operand_value. }
  rewrite Hw. simpl. eexists. reflexivity.
Qed.

(** C1, at glyph [A] of the specification's scenario: advance 500 with
    [defaultWidthX = 500] (and [nominalWidthX = 400]).  The charstring does
    carry a width operand, 100. *)
Theorem width_operand_kept_at_default_width `{Externals}
  (allGlyphs : ufoLib2.Font) (glyph : ufoLib2.Glyph)
  (subrs : option (list (list PyObj))) (cs : HintPen.T2CharString)
  (Hwidth : ufoLib2.width glyph = 500)
  (Hcs : OutlineCompiler.getCharStringForGlyph allGlyphs glyph
           {| HintPen.defaultWidthX := 500; HintPen.nominalWidthX := 400 |}
           subrs = Ok cs) :
  hd_error (HintPen.program cs) = Some (PyInt 100).
Proof.
  destruct (charstring_leads_with_width _ _ _ _ _ Hcs) as [rest Hrest].
  rewrite Hrest, Hwidth. reflexivity.
Qed.

Lemma width_operand_kept_at_default_width_witness :
  hd_error
    (HintPen.program
       {| HintPen.program := [PyInt 100; PyStr "endchar"];
          HintPen.private :=
            {| HintPen.defaultWidthX := 500; HintPen.nominalWidthX := 400 |};
          HintPen.globalSubrs := None |})
  = Some (PyInt 100).
Proof.
  apply (width_operand_kept_at_default_width (H := Samples.straight_lines)
           Samples.math_font (Samples.plain "A" 500 [Samples.box]) None);
    reflexivity.
Defined.

(** ** The mark class in GDEF *)

Lemma mark_classes_keeps_mark (gs : list ufoLib2.Glyph) (classdef : sdict Z)
  (n : string) :
  sget n classdef = Some 3 -> sget n (Font.mark_classes gs classdef) = Some 3.
Proof.
  unfold Font.mark_classes. revert classdef.
  induction gs as [| g gs IH]; simpl; intros classdef Hn.
  - exact Hn.
  - apply IH. destruct (Font.is_mark g); [| exact Hn].
    destruct (string_dec n (ufoLib2.name g)) as [-> | Hne].
    + apply sget_sset_same.
    + rewrite sget_sset_other; assumption.
Qed.

Lemma mark_classes_sets_mark (gs : list ufoLib2.Glyph) (classdef : sdict Z)
  (g : ufoLib2.Glyph) :
  In g gs -> Font.is_mark g = true ->
  sget (ufoLib2.name g) (Font.mark_classes gs classdef) = Some 3.
Proof.
  revert classdef.
  induction gs as [| g' gs IH]; intros classdef Hin Hmark.
  - destruct Hin.
  - destruct Hin as [-> | Hin].
    + change (Font.mark_classes (g :: gs) classdef)
        with (Font.mark_classes gs
                (if Font.is_mark g then sset (ufoLib2.name g) 3 classdef
                 else classdef)).
      rewrite Hmark. apply mark_classes_keeps_mark, sget_sset_same.
    + apply (IH _ Hin Hmark).
Qed.

(** What [_post_process] leaves in GDEF, whichever way the MATH part goes. *)
Lemma post_process_GDEF `{Externals} (font : ufoLib2.Font) (otf otf' : TTFont) :
  Font._post_process font otf = Ok otf' ->
  exists gdef classdef,
    tt_GDEF otf = Some gdef /\
    GlyphClassDef gdef = Some classdef /\
    tt_GDEF otf'
    = Some {| GlyphClassDef :=
                Some (Font.mark_classes (ufoLib2.glyphs font) classdef) |}.
Proof.
  unfold Font._post_process. intros Hpp.
  destruct (tt_GDEF otf) as [gdef |]; simpl in Hpp; [| discriminate Hpp].
  destruct (GlyphClassDef gdef) as [classdef |] eqn:Hclassdef; simpl in Hpp;
    [| discriminate Hpp].
  exists gdef, classdef. split; [reflexivity |]. split; [exact Hclassdef |].
  destruct (ufoLib2.font_lib_math font) as [[| kv constants] |].
  - injection Hpp as <-. reflexivity.
  - invert_bind Hpp. injection Hpp as <-. reflexivity.
  - injection Hpp as <-. reflexivity.
Qed.

(** C7. After post-processing, the GDEF class of every glyph whose metadata
    says "mark" is 3, whatever the compiled table held for it before. *)
Theorem mark_glyphs_get_mark_class `{Externals} (font : ufoLib2.Font)
  (otf otf' : TTFont) (g : ufoLib2.Glyph)
  (Hpp : Font._post_process font otf = Ok otf')
  (Hin : In g (ufoLib2.glyphs font))
  (Hmark : ufoLib2.lib_glyphclass g = Some "mark") :
  exists gdef classdef,
    tt_GDEF otf' = Some gdef /\
    GlyphClassDef gdef = Some classdef /\
    sget (ufoLib2.name g) classdef = Some 3.
Proof.
  destruct (post_process_GDEF _ _ _ Hpp) as (gdef & classdef & _ & _ & Hout).
  eexists. eexists. split; [exact Hout |]. split; [reflexivity |].
  apply mark_classes_sets_mark; [exact Hin |].
  unfold Font.is_mark. rewrite Hmark. reflexivity.
Qed.

Lemma mark_glyphs_get_mark_class_witness :
  exists gdef classdef,
    tt_GDEF {| tt_GDEF := Some {| GlyphClassDef := Some [("x", 1); ("acutecomb", 3)] |};
               tt_MATH := None |} = Some gdef /\
    GlyphClassDef gdef = Some classdef /\
    sget "acutecomb" classdef = Some 3.
Proof.
  apply (mark_glyphs_get_mark_class (H := Samples.straight_lines)
           Samples.text_font Samples.compiled _ Samples.acutecomb).
  - reflexivity.
  - simpl. do 7 right. left. reflexivity.
  - reflexivity.
Defined.

(** ** Dictionary keys *)

Section DictFacts.
Context {K V : Type} (eqb : K -> K -> bool).
Hypothesis eqb_eq : forall a b, eqb a b = true <-> a = b.

Lemma dict_in_keys (k : K) (d : dict K V) :
  dict_in eqb k d = true <-> In k (dict_keys d).
Proof.
  unfold dict_in, dict_keys.
  induction d as [| [k' v'] d IH]; simpl.
  - split; [discriminate | intros []].
  - destruct (eqb k k') eqn:E.
    + apply eqb_eq in E. subst k'. split; [now left | reflexivity].
    + rewrite IH. split; [now right |].
      intros [Heq | Hin]; [| exact Hin].
      subst k'. rewrite (proj2 (eqb_eq k k) eq_refl) in E. discriminate E.
Qed.

Lemma dict_get_In_keys (k : K) (d : dict K V) :
  In k (dict_keys d) <-> exists v, dict_get eqb k d = Some v.
Proof.
  rewrite <- dict_in_keys. unfold dict_in.
  destruct (dict_get eqb k d) as [v |].
  - split; [now exists v | reflexivity].
  - split; [discriminate | intros [v Hv]; discriminate Hv].
Qed.

Lemma dict_keys_set (k : K) (v : V) (d : dict K V) :
  dict_keys (dict_set eqb k v d) =
    if dict_in eqb k d then dict_keys d else (dict_keys d ++ [k])%list.
Proof.
  unfold dict_in, dict_keys.
  induction d as [| [k' v'] d IH]; simpl.
  - reflexivity.
  - destruct (eqb k k') eqn:E; simpl.
    + reflexivity.
    + rewrite IH. destruct (dict_get eqb k d); reflexivity.
Qed.

Lemma dict_keys_set_In (k k0 : K) (v : V) (d : dict K V) :
  In k0 (dict_keys (dict_set eqb k v d)) <-> In k0 (dict_keys d) \/ k0 = k.
Proof.
  rewrite dict_keys_set.
  destruct (dict_in eqb k d) eqn:E.
  - apply dict_in_keys in E. split; [now left |].
    intros [H | ->]; assumption.
  - rewrite in_app_iff. simpl. split.
    + intros [H | [H | []]]; [now left | now right].
    + intros [H | H]; [now left | right; left; now symmetry].
Qed.

Lemma dict_keys_set_NoDup (k : K) (v : V) (d : dict K V) :
  NoDup (dict_keys d) -> NoDup (dict_keys (dict_set eqb k v d)).
Proof.
  intros Hnd. rewrite dict_keys_set.
  destruct (dict_in eqb k d) eqn:E; [exact Hnd |].
  assert (Hnot : ~ In k (dict_keys d)).
  { intros Hin. apply dict_in_keys in Hin. congruence. }
  clear E. induction (dict_keys d) as [| a l IH]; simpl.
  - constructor; [intros [] | constructor].
  - inversion Hnd as [| ? ? Ha Hl]; subst. constructor.
    + rewrite in_app_iff. simpl. intros [Hin | [Heq | []]].
      * contradiction.
      * apply Hnot. left. symmetry. exact Heq.
    + apply IH; [exact Hl |]. intros Hin. apply Hnot. right. exact Hin.
Qed.

Lemma dict_get_set_same (k : K) (v : V) (d : dict K V) :
  dict_get eqb k (dict_set eqb k v d) = Some v.
Proof.
  assert (Hkk : eqb k k = true) by now apply eqb_eq.
  induction d as [| [k' v'] d IH]; simpl.
  - rewrite Hkk. reflexivity.
  - destruct (eqb k k') eqn:E; simpl; rewrite E; [reflexivity | exact IH].
Qed.

Lemma dict_get_set_other (k k0 : K) (v : V) (d : dict K V) :
  k0 <> k -> dict_get eqb k0 (dict_set eqb k v d) = dict_get eqb k0 d.
Proof.
  intros Hne.
  assert (Hk0 : eqb k0 k = false).
  { destruct (eqb k0 k) eqn:E; [| reflexivity].
    apply eqb_eq in E. contradiction. }
  induction d as [| [k' v'] d IH]; simpl.
  - rewrite Hk0. reflexivity.
  - destruct (eqb k k') eqn:E; simpl.
    + apply eqb_eq in E. subst k'. rewrite Hk0. reflexivity.
    + rewrite IH. reflexivity.
Qed.
End DictFacts.

Lemma NoDup_all_equal_length {A : Type} (l : list A) (b : A) :
  NoDup l -> (forall a, In a l -> a = b) -> l <> [] -> List.length l = 1%nat.
Proof.
  intros Hnd Hall Hne.
  destruct l as [| a [| a' l]]; [contradiction | reflexivity |].
  exfalso. inversion Hnd as [| ? ? Ha _]; subst. apply Ha.
  rewrite (Hall a (or_introl eq_refl)).
  rewrite <- (Hall a' (or_intror (or_introl eq_refl))). now left.
Qed.

(** ** Over- and underline synthesis *)

(** One round of the grouping loop on a counted glyph: its name is appended
    to the bucket of its width, which is created when missing. *)
Lemma collect_widths_step (gs : list ufoLib2.Glyph) (g : ufoLib2.Glyph) :
  Font.collect_widths (gs ++ [g]) =
    let widths := Font.collect_widths gs in
    if Font.counted g then
      let width := Font.bucket (ufoLib2.width g) in
      let names := match dict_get Z.eqb width widths with
                   | Some names => names
                   | None => []
                   end in
      dict_set Z.eqb width (names ++ [ufoLib2.name g])%list widths
    else widths.
Proof.
  unfold Font.collect_widths. rewrite fold_left_app. simpl.
  destruct (Font.counted g); [| reflexivity].
  match goal with
  | |- context [fold_left ?f gs ?i] => set (widths := fold_left f gs i)
  end.
  set (width := Font.bucket (ufoLib2.width g)).
  unfold dict_in.
  destruct (dict_get Z.eqb width widths) as [names |] eqn:E.
  - rewrite E. reflexivity.
  - rewrite (dict_get_set_same Z.eqb Z.eqb_eq). simpl.
    clear E. induction widths as [| [k v] widths IH]; simpl.
    + rewrite Z.eqb_refl. reflexivity.
    + destruct (width =? k) eqn:Ek; simpl; rewrite Ek.
      * reflexivity.
      * rewrite IH. reflexivity.
Qed.

Lemma collect_widths_keys_NoDup (gs : list ufoLib2.Glyph) :
  NoDup (dict_keys (Font.collect_widths gs)).
Proof.
  induction gs as [| g gs IH] using rev_ind.
  - constructor.
  - rewrite collect_widths_step. simpl.
    destruct (Font.counted g); [| exact IH].
    apply (dict_keys_set_NoDup Z.eqb Z.eqb_eq). exact IH.
Qed.

(** The buckets are exactly the buckets of the counted glyphs. *)
Lemma collect_widths_keys_In (gs : list ufoLib2.Glyph) (b : Z) :
  In b (dict_keys (Font.collect_widths gs)) <->
  exists g, In g gs /\ Font.counted g = true /\ Font.bucket (ufoLib2.width g) = b.
Proof.
  induction gs as [| g gs IH] using rev_ind.
  - simpl. split; [intros [] | intros (g & [] & _)].
  - rewrite collect_widths_step. simpl.
    destruct (Font.counted g) eqn:Hc.
    + rewrite (dict_keys_set_In Z.eqb Z.eqb_eq), IH. split.
      * intros [(g' & Hin & Hc' & Hb) | ->].
        -- exists g'. rewrite in_app_iff. auto.
        -- exists g. rewrite in_app_iff. simpl. auto.
      * intros (g' & Hin & Hc' & Hb). apply in_app_iff in Hin.
        destruct Hin as [Hin | [-> | []]].
        -- left. exists g'. auto.
        -- right. symmetry. exact Hb.
    + rewrite IH. split.
      * intros (g' & Hin & Hc' & Hb). exists g'. rewrite in_app_iff. auto.
      * intros (g' & Hin & Hc' & Hb). apply in_app_iff in Hin.
        destruct Hin as [Hin | [-> | []]]; [| congruence].
        exists g'. auto.
Qed.

(** No counted glyph is dropped: its name sits in the bucket of its width. *)
Lemma collect_widths_keeps (gs : list ufoLib2.Glyph) (g : ufoLib2.Glyph) :
  In g gs -> Font.counted g = true ->
  exists names,
    dict_get Z.eqb (Font.bucket (ufoLib2.width g)) (Font.collect_widths gs)
    = Some names /\
    In (ufoLib2.name g) names.
Proof.
  induction gs as [| g' gs IH] using rev_ind; intros Hin Hc.
  - destruct Hin.
  - rewrite collect_widths_step. simpl.
    apply in_app_iff in Hin. destruct Hin as [Hin | [-> | []]].
    + destruct (IH Hin Hc) as (names & Hget & Hname).
      destruct (Font.counted g'); [| now exists names].
      destruct (Z.eq_dec (Font.bucket (ufoLib2.width g))
                  (Font.bucket (ufoLib2.width g'))) as [Heq | Hne].
      * rewrite <- Heq, Hget, (dict_get_set_same Z.eqb Z.eqb_eq).
        eexists. split; [reflexivity |]. apply in_app_iff. now left.
      * rewrite (dict_get_set_other Z.eqb Z.eqb_eq) by exact Hne.
        now exists names.
    + rewrite Hc, (dict_get_set_same Z.eqb Z.eqb_eq).
      eexists. split; [reflexivity |]. apply in_app_iff. right. now left.
Qed.

(** C6. When the counted glyphs (not marks, positive advance) all share one
    width bucket, [_make_over_under_line] returns the font as it got it: no
    glyph is added and the feature text is unchanged. *)
Theorem single_bucket_no_synthesis `{Externals} (font : ufoLib2.Font)
  (b : Z)
  (Hsome : exists g, In g (ufoLib2.glyphs font) /\ Font.counted g = true)
  (Hone : forall g, In g (ufoLib2.glyphs font) -> Font.counted g = true ->
                    Font.bucket (ufoLib2.width g) = b) :
  Font._make_over_under_line font = Ok font.
Proof.
  unfold Font._make_over_under_line.
  destruct (filter _ _) as [| base bases]; [reflexivity |].
  assert (Hlen : List.length (Font.collect_widths (ufoLib2.glyphs font)) = 1%nat).
  { rewrite <- (length_map fst).
    apply (NoDup_all_equal_length _ b).
    - apply collect_widths_keys_NoDup.
    - intros a Ha. apply collect_widths_keys_In in Ha.
      destruct Ha as (g & Hin & Hc & <-). apply Hone; assumption.
    - destruct Hsome as (g & Hin & Hc).
      intros Hnil.
      assert (Hb : In (Font.bucket (ufoLib2.width g))
                     (dict_keys (Font.collect_widths (ufoLib2.glyphs font)))).
      { apply collect_widths_keys_In. exists g. auto. }
      unfold dict_keys in Hb. rewrite Hnil in Hb. destruct Hb. }
  rewrite Hlen. reflexivity.
Qed.

Lemma single_bucket_no_synthesis_witness :
  Font._make_over_under_line (H := Samples.straight_lines)
    Samples.one_bucket_font
  = Ok Samples.one_bucket_font.
Proof.
  apply (single_bucket_no_synthesis (H := Samples.straight_lines)
           Samples.one_bucket_font 500).
  - exists (Samples.plain "a" 480 [Samples.box]). split; [now left | reflexivity].
  - intros g [<- | [<- | [<- | []]]]; intros Hc;
      [reflexivity | reflexivity | discriminate Hc].
Defined.

(** ** The MATH table: when it is built *)

(** [if constants:] *)
Lemma post_process_without_constants `{Externals} (font : ufoLib2.Font)
  (otf otf' : TTFont) :
  (ufoLib2.font_lib_math font = None \/ ufoLib2.font_lib_math font = Some []) ->
  Font._post_process font otf = Ok otf' ->
  tt_MATH otf' = tt_MATH otf.
Proof.
  unfold Font._post_process. intros Hnone Hpp.
  invert_bind Hpp. invert_bind Hpp.
  destruct Hnone as [Hnone | Hnone]; rewrite Hnone in Hpp;
    injection Hpp as <-; reflexivity.
Qed.

Lemma post_process_with_constants `{Externals} (font : ufoLib2.Font)
  (otf otf' : TTFont) (constants : sdict Z) :
  ufoLib2.font_lib_math font = Some constants -> constants <> [] ->
  Font._post_process font otf = Ok otf' ->
  exists table, Font.build_MATH font constants = Ok table /\
                tt_MATH otf' = Some table.
Proof.
  unfold Font._post_process. intros Hc Hne Hpp.
  invert_bind Hpp. invert_bind Hpp. rewrite Hc in Hpp.
  destruct constants as [| kv constants]; [contradiction |].
  invert_bind Hpp. injection Hpp as <-.
  eexists. split; [eassumption | reflexivity].
Qed.

(** A MATH table found after post-processing a font compiled without one
    was built from non-empty font-level constants. *)
Lemma post_process_MATH `{Externals} (font : ufoLib2.Font)
  (otf otf' : TTFont) (table : MATH) :
  tt_MATH otf = None ->
  Font._post_process font otf = Ok otf' ->
  tt_MATH otf' = Some table ->
  exists constants,
    ufoLib2.font_lib_math font = Some constants /\ constants <> [] /\
    Font.build_MATH font constants = Ok table.
Proof.
  intros Hnone Hpp Htable.
  destruct (ufoLib2.font_lib_math font) as [[| kv constants] |] eqn:Hc.
  - rewrite (post_process_without_constants _ _ _ (or_intror Hc) Hpp) in Htable.
    congruence.
  - destruct (post_process_with_constants _ _ _ _ Hc ltac:(discriminate) Hpp)
      as (table' & Hbuild & Htable').
    exists (kv :: constants). repeat split; [discriminate | congruence].
  - rewrite (post_process_without_constants _ _ _ (or_introl Hc) Hpp) in Htable.
    congruence.
Qed.

(** The pieces a successful [build_MATH] is made of. *)
Lemma build_MATH_Ok `{Externals} (font : ufoLib2.Font) (constants : sdict Z)
  (table : MATH) :
  Font.build_MATH font constants = Ok table ->
  let glyphMap := otl.make_glyphMap (ufoLib2.glyphOrder font) in
  exists c,
    Font.collect (ufoLib2.glyphs font) = Ok c /\
    Font.math_constants constants = Ok (math_MathConstants table) /\
    Font.covered_values (Font.italic c) glyphMap
    = Ok (ici_Coverage (info_MathItalicsCorrectionInfo (math_MathGlyphInfo table)),
          ItalicsCorrection (info_MathItalicsCorrectionInfo (math_MathGlyphInfo table))) /\
    Font.covered_values (Font.accent c) glyphMap
    = Ok (TopAccentCoverage (info_MathTopAccentAttachment (math_MathGlyphInfo table)),
          TopAccentAttachment (info_MathTopAccentAttachment (math_MathGlyphInfo table))) /\
    otl.buildCoverage (Font.extended c) glyphMap
    = Ok (ExtendedShapeCoverage (math_MathGlyphInfo table)) /\
    sget "MinConnectorOverlap" constants
    = Some (MinConnectorOverlap (math_MathVariants table)) /\
    Font.axis_constructions font Font.Vertical (Font.vvars c) (Font.vcomp c) glyphMap
    = Ok (VertGlyphCoverage (math_MathVariants table),
          VertGlyphConstruction (math_MathVariants table)) /\
    Font.axis_constructions font Font.Horizontal (Font.hvars c) (Font.hcomp c) glyphMap
    = Ok (HorizGlyphCoverage (math_MathVariants table),
          HorizGlyphConstruction (math_MathVariants table)).
Proof.
  intros Hb glyphMap. unfold Font.build_MATH in Hb. fold glyphMap in Hb.
  apply bind_Ok in Hb. destruct Hb as (attrs & Hattrs & Hb).
  apply bind_Ok in Hb. destruct Hb as (c & Hc & Hb).
  apply bind_Ok in Hb. destruct Hb as ([icov ivals] & Hic & Hb).
  apply bind_Ok in Hb. destruct Hb as ([acov avals] & Hac & Hb).
  apply bind_Ok in Hb. destruct Hb as (ext & Hext & Hb).
  apply bind_Ok in Hb. destruct Hb as (overlap & Hoverlap & Hb).
  apply bind_Ok in Hb. destruct Hb as ([vcov vcons] & Hv & Hb).
  apply bind_Ok in Hb. destruct Hb as ([hcov hcons] & Hh & Hb).
  injection Hb as <-. simpl.
  exists c. repeat split; try assumption.
  apply sgetitem_Ok. exact Hoverlap.
Qed.

Lemma collect_without_math (gs : list ufoLib2.Glyph) (acc : Font.Collected) :
  existsb Font.declares_math gs = false ->
  foldM Font.collect_glyph gs acc = Ok acc.
Proof.
  induction gs as [| g gs IH]; simpl; intros Hno.
  - reflexivity.
  - apply orb_false_iff in Hno. destruct Hno as [Hg Hgs].
    assert (Hstep : Font.collect_glyph acc g = Ok acc).
    { unfold Font.collect_glyph. unfold Font.declares_math in Hg.
      destruct (ufoLib2.lib_math g) as [[| kv math] |];
        [reflexivity | discriminate Hg | reflexivity]. }
    rewrite Hstep. apply IH. exact Hgs.
Qed.

(** C3, as the code has it.  For a font compiled without a MATH table,
    post-processing attaches one exactly when the font-level constants
    dictionary is non-empty; and no table comes out of a font none of whose
    glyphs declares mathematical metadata. *)
Theorem math_table_gate `{Externals} (font : ufoLib2.Font) (otf otf' : TTFont)
  (Hfresh : tt_MATH otf = None)
  (Hpp : Font._post_process font otf = Ok otf') :
  (tt_MATH otf' <> None <-> Font.constants_present font = true) /\
  (existsb Font.declares_math (ufoLib2.glyphs font) = false ->
   tt_MATH otf' = None).
Proof.
  split.
  - unfold Font.constants_present.
    destruct (ufoLib2.font_lib_math font) as [[| kv constants] |] eqn:Hc.
    + rewrite (post_process_without_constants _ _ _ (or_intror Hc) Hpp), Hfresh.
      split; [intros Hne; now contradiction Hne | discriminate].
    + destruct (post_process_with_constants _ _ _ _ Hc ltac:(discriminate) Hpp)
        as (table & _ & Htable).
      rewrite Htable. split; [reflexivity | discriminate].
    + rewrite (post_process_without_constants _ _ _ (or_introl Hc) Hpp), Hfresh.
      split; [intros Hne; now contradiction Hne | discriminate].
  - intros Hno.
    destruct (tt_MATH otf') as [table |] eqn:Htable; [exfalso | reflexivity].
    destruct (post_process_MATH _ _ _ _ Hfresh Hpp Htable)
      as (constants & _ & _ & Hbuild).
    destruct (build_MATH_Ok _ _ _ Hbuild) as (c & Hc & _ & Hic & _).
    unfold Font.collect in Hc. rewrite (collect_without_math _ _ Hno) in Hc.
    injection Hc as <-. discriminate Hic.
Qed.

Lemma math_table_gate_witness :
  (tt_MATH {| tt_GDEF := Some {| GlyphClassDef := Some [("x", 1); ("acutecomb", 3)] |};
              tt_MATH := None |} <> None
   <-> Font.constants_present Samples.text_font = true) /\
  (existsb Font.declares_math (ufoLib2.glyphs Samples.text_font) = false ->
   tt_MATH {| tt_GDEF := Some {| GlyphClassDef := Some [("x", 1); ("acutecomb", 3)] |};
              tt_MATH := None |} = None).
Proof.
  apply (math_table_gate (H := Samples.straight_lines)
           Samples.text_font Samples.compiled); reflexivity.
Defined.

(** C3 as stated fails: in [text_font] glyphs declare mathematical metadata,
    the font carries no MATH constants, and post-processing completes
    without attaching a table. *)
Lemma glyph_metadata_without_math_table :
  ~ (forall otf',
       Font._post_process (H := Samples.straight_lines)
         Samples.text_font Samples.compiled = Ok otf' ->
       (tt_MATH otf' <> None <->
        existsb Font.declares_math (ufoLib2.glyphs Samples.text_font) = true)).
Proof.
  intros Hclaim.
  destruct (Hclaim _ eq_refl) as [_ Hattached].
  apply Hattached; reflexivity.
Qed.

(** ** The MathConstants block *)

Lemma math_constants_loop (constants : sdict Z) (ks : list string)
  (attrs attrs' : sdict ConstantField) :
  foldM (fun attrs c =>
           if String.eqb c "MinConnectorOverlap" then Ok attrs
           else v <- sgetitem c constants ;;
                Ok (sset c (Font.constant_field c v) attrs))
        ks attrs = Ok attrs' ->
  forall c,
    (In c ks -> c <> "MinConnectorOverlap" ->
     exists v, sget c constants = Some v /\
               sget c attrs' = Some (Font.constant_field c v)) /\
    (~ In c ks \/ c = "MinConnectorOverlap" -> sget c attrs' = sget c attrs).
Proof.
  revert attrs. induction ks as [| k ks IH]; simpl; intros attrs Hfold c.
  - injection Hfold as <-. split; [intros [] | reflexivity].
  - destruct (String.eqb k "MinConnectorOverlap") eqn:Ek.
    + apply String.eqb_eq in Ek. subst k.
      destruct (IH _ Hfold c) as [Hin Hout]. split.
      * intros [Heq | Hc] Hne; [congruence | now apply Hin].
      * intros [Hnot | Heq]; apply Hout; [left | right]; tauto.
    + apply String.eqb_neq in Ek.
      destruct (sgetitem k constants) as [v | e] eqn:Hk; [| discriminate Hfold].
      simpl in Hfold. apply sgetitem_Ok in Hk.
      destruct (IH _ Hfold c) as [Hin Hout].
      destruct (in_dec string_dec c ks) as [Hc | Hc].
      * split; [intros _ Hne; now apply Hin |].
        intros [Hnot | Heq]; [tauto |].
        rewrite Hout by now right. subst c.
        apply sget_sset_other. congruence.
      * split.
        -- intros [<- | Hc'] Hne; [| contradiction].
           exists v. split; [exact Hk |].
           rewrite Hout by now left. apply sget_sset_same.
        -- intros Hcond. rewrite Hout by now left.
           apply sget_sset_other. destruct Hcond as [Hnot | ->]; [| congruence].
           intros ->. apply Hnot. now left.
Qed.

(** C8, as the code has it.  Of the font-level constants, every one but
    [MinConnectorOverlap] becomes a MathConstants attribute: a bare scalar
    for the five percent and minimum-height names, a value record for all
    others.  [MinConnectorOverlap] is no MathConstants attribute; it goes,
    bare, into MathVariants. *)
Theorem constants_copied `{Externals} (font : ufoLib2.Font) (otf otf' : TTFont)
  (table : MATH) (constants : sdict Z) (c : string) (v : Z)
  (Hfresh : tt_MATH otf = None)
  (Hpp : Font._post_process font otf = Ok otf')
  (Htable : tt_MATH otf' = Some table)
  (Hconstants : ufoLib2.font_lib_math font = Some constants)
  (Hc : sget c constants = Some v) :
  if String.eqb c "MinConnectorOverlap" then
    sget c (math_MathConstants table) = None /\
    MinConnectorOverlap (math_MathVariants table) = v
  else
    sget c (math_MathConstants table) =
      Some (if existsb (String.eqb c) Font.unwrapped_constants
            then Scalar v else Record_ {| Value := v |}).
Proof.
  destruct (post_process_MATH _ _ _ _ Hfresh Hpp Htable)
    as (constants' & Hconstants' & _ & Hbuild).
  assert (constants' = constants) by congruence. subst constants'.
  destruct (build_MATH_Ok _ _ _ Hbuild) as (_ & _ & Hattrs & _ & _ & _ & Hoverlap & _).
  unfold Font.math_constants in Hattrs.
  destruct (math_constants_loop _ _ _ _ Hattrs c) as [Hin Hout].
  destruct (String.eqb c "MinConnectorOverlap") eqn:Ec.
  - apply String.eqb_eq in Ec. split.
    + rewrite Hout by now right. reflexivity.
    + subst c. congruence.
  - apply String.eqb_neq in Ec.
    destruct Hin as (v' & Hv' & Hfield); [| exact Ec |].
    + apply sget_In_keys. congruence.
    + assert (v' = v) by congruence. subst v'.
      rewrite Hfield. unfold Font.constant_field.
      destruct (existsb _ _); reflexivity.
Qed.

Lemma constants_copied_witness :
  sget "AxisHeight"
    [("ScriptPercentScaleDown", Scalar 70);
     ("AxisHeight", Record_ {| Value := 250 |})]
  = Some (Record_ {| Value := 250 |}).
Proof.
  pose proof (constants_copied (H := Samples.straight_lines)
                Samples.math_font Samples.compiled _ _ Samples.math_constants
                "AxisHeight" 250 eq_refl eq_refl eq_refl eq_refl eq_refl) as Hw.
  exact Hw.
Defined.

(** C8 as stated fails at [MinConnectorOverlap]: it is among the constants of
    [math_font] and is not copied into the MathConstants block. *)
Lemma overlap_not_in_math_constants :
  ~ (forall otf' table,
       Font._post_process (H := Samples.straight_lines)
         Samples.math_font Samples.compiled = Ok otf' ->
       tt_MATH otf' = Some table ->
       forall c v,
         sget c Samples.math_constants = Some v ->
         sget c (math_MathConstants table) =
           Some (if (String.eqb c "MinConnectorOverlap"
                     || existsb (String.eqb c) Font.unwrapped_constants)%bool
                 then Scalar v else Record_ {| Value := v |})).
Proof.
  intros Hclaim.
  specialize (Hclaim _ _ eq_refl eq_refl "MinConnectorOverlap" 20 eq_refl).
  discriminate Hclaim.
Qed.

(** ** Glyph constructions *)

Lemma build_MATH_axis `{Externals} (font : ufoLib2.Font) (constants : sdict Z)
  (table : MATH) (axis : Font.Axis) :
  Font.build_MATH font constants = Ok table ->
  exists c,
    Font.collect (ufoLib2.glyphs font) = Ok c /\
    Font.axis_constructions font axis (Font.vars_of axis c) (Font.comp_of axis c)
      (otl.make_glyphMap (ufoLib2.glyphOrder font))
    = Ok (Font.table_coverage axis table, Font.table_constructions axis table).
Proof.
  intros Hbuild.
  destruct (build_MATH_Ok _ _ _ Hbuild)
    as (c & Hc & _ & _ & _ & _ & _ & Hv & Hh).
  exists c. split; [exact Hc |]. destruct axis; assumption.
Qed.

Lemma axis_constructions_Ok `{Externals} (font : ufoLib2.Font)
  (axis : Font.Axis) (vars : sdict (list string))
  (comp : sdict (list (string * string))) (glyphMap : sdict Z)
  (coverage : Coverage) (constructions : list MathGlyphConstruction) :
  Font.axis_constructions font axis vars comp glyphMap
  = Ok (coverage, constructions) ->
  otl.buildCoverage (dict_keys vars) glyphMap = Ok (Some coverage) /\
  Forall2 (fun name construction =>
             Font.glyph_construction font axis vars comp name = Ok construction)
          (glyphs coverage) constructions.
Proof.
  unfold Font.axis_constructions. intros Hax.
  apply bind_Ok in Hax. destruct Hax as (cov & Hcov & Hax).
  apply bind_Ok in Hax. destruct Hax as (cov' & Hcov' & Hax).
  apply bind_Ok in Hax. destruct Hax as (cons & Hcons & Hax).
  injection Hax as <- <-.
  destruct cov as [cov |]; simpl in Hcov'; [| discriminate Hcov'].
  injection Hcov' as <-.
  split; [exact Hcov | apply mapM_Ok_Forall2; exact Hcons].
Qed.

Lemma variant_record_Ok `{Externals} (font : ufoLib2.Font) (axis : Font.Axis)
  (variant : string) (record : MathGlyphVariantRecord) :
  Font.variant_record font axis variant = Ok record ->
  exists g bbox,
    ufoLib2.getitem font variant = Ok g /\
    getBounds font g = Some bbox /\
    VariantGlyph record = variant /\
    float_int (Font.padded axis bbox) = Ok (AdvanceMeasurement record).
Proof.
  unfold Font.variant_record. intros Hr.
  apply bind_Ok in Hr. destruct Hr as (g & Hg & Hr).
  destruct (getBounds font g) as [bbox |] eqn:Hb; [| discriminate Hr].
  apply bind_Ok in Hr. destruct Hr as (measurement & Hm & Hr).
  injection Hr as <-. exists g, bbox. auto.
Qed.

(** What a construction holds, read off the loop body. *)
Lemma glyph_construction_Ok `{Externals} (font : ufoLib2.Font)
  (axis : Font.Axis) (vars : sdict (list string))
  (comp : sdict (list (string * string))) (name : string)
  (construction : MathGlyphConstruction) :
  Font.glyph_construction font axis vars comp name = Ok construction ->
  exists variants,
    sget name vars = Some variants /\
    VariantCount construction = List.length variants /\
    Forall2 (fun variant record =>
               Font.variant_record font axis variant = Ok record)
            variants (con_MathGlyphVariantRecord construction) /\
    match sget name comp with
    | Some parts =>
        exists part_records,
          Forall2 (fun part record => Font.part_record part = Ok record)
                  parts part_records /\
          con_GlyphAssembly construction
          = Some {| asm_ItalicsCorrection := {| Value := 0 |};
                    PartRecords := part_records |}
    | None => con_GlyphAssembly construction = None
    end.
Proof.
  unfold Font.glyph_construction. intros Hc.
  apply bind_Ok in Hc. destruct Hc as (variants & Hvariants & Hc).
  apply bind_Ok in Hc. destruct Hc as (records & Hrecords & Hc).
  apply bind_Ok in Hc. destruct Hc as (assembly & Hassembly & Hc).
  injection Hc as <-. simpl.
  exists variants. split; [apply sgetitem_Ok; exact Hvariants |].
  split; [reflexivity |].
  split; [apply mapM_Ok_Forall2; exact Hrecords |].
  unfold sin, dict_in, sgetitem, getitem in Hassembly. unfold sget.
  destruct (dict_get String.eqb name comp) as [parts |].
  - simpl in Hassembly.
    apply bind_Ok in Hassembly. destruct Hassembly as (recs & Hrecs & Hassembly).
    injection Hassembly as <-.
    exists recs. split; [apply mapM_Ok_Forall2; exact Hrecs | reflexivity].
  - injection Hassembly as <-. reflexivity.
Qed.

Lemma Forall2_In_r {A B : Type} (R : A -> B -> Prop) (l : list A) (l' : list B)
  (b : B) :
  Forall2 R l l' -> In b l' -> exists a, In a l /\ R a b.
Proof.
  induction 1 as [| a0 b0 l l' Hab _ IH]; intros Hin.
  - destruct Hin.
  - destruct Hin as [<- | Hin].
    + exists a0. split; [now left | exact Hab].
    + destruct (IH Hin) as (a & Ha & Hr). exists a. split; [now right | exact Hr].
Qed.

(** [int()] truncates: on a float with a value it returns the value's
    integer part, toward zero. *)
Lemma float_int_truncates (f : PrimFloat.float) (z : Z) (q : Q) :
  float_int f = Ok z -> float_value f = Some q -> z = py_int q.
Proof.
  unfold float_int, float_value.
  destruct (FloatOps.Prim2SF f) as [s | s | | s m e]; intros Hz Hq;
    try discriminate Hz; injection Hz as <-; injection Hq as <-; reflexivity.
Qed.

Lemma float_round_rounds (f : PrimFloat.float) (q : Q) :
  float_value f = Some q -> float_round f = Ok (py_round q).
Proof.
  unfold float_round, float_value.
  destruct (FloatOps.Prim2SF f) as [s | s | | s m e]; intros Hq;
    try discriminate Hq; injection Hq as <-; reflexivity.
Qed.

(** One more than a whole number: truncating after the pad and rounding
    before it agree. *)
Lemma int_pad_of_integer (e q : Q) :
  is_integer e = true -> (q == e + 1)%Q -> py_int q = py_round e + 1.
Proof.
  unfold is_integer, py_int, py_round. destruct e as [n d], q as [nq dq].
  unfold Qeq. simpl. intros Hmod Heq. apply Z.eqb_eq in Hmod. rewrite Hmod.
  replace (2 * 0 ?= Z.pos d) with Lt by (symmetry; apply Z.compare_lt_iff; lia).
  pose proof (Z.div_mod n (Z.pos d) ltac:(lia)) as Hn. rewrite Hmod in Hn.
  set (k := n / Z.pos d) in *.
  assert (Hnq : nq = (k + 1) * Z.pos dq).
  { apply (Z.mul_reg_r _ _ (Z.pos d)); [lia |].
    rewrite Pos.mul_1_r in Heq. rewrite Heq.
    rewrite Hn at 1. ring. }
  rewrite Hnq. apply Z.quot_mul. lia.
Qed.

(** C2, as the code has it.  The advance measurement of a variant record is
    [int(extent + 1)] on the variant glyph's bounding box (top minus bottom
    on the vertical axis, right minus left on the horizontal one), evaluated
    as Python does: the difference and the padded sum are each rounded to the
    nearest double, and [int()] truncates the padded sum toward zero.  When
    the extent is a whole number and the padded sum is exact, this is
    [round(extent) + 1]. *)
Theorem advance_measurement_truncated `{Externals} (font : ufoLib2.Font)
  (otf otf' : TTFont) (table : MATH) (axis : Font.Axis)
  (construction : MathGlyphConstruction) (record : MathGlyphVariantRecord)
  (Hfresh : tt_MATH otf = None)
  (Hpp : Font._post_process font otf = Ok otf')
  (Htable : tt_MATH otf' = Some table)
  (Hcon : In construction (Font.table_constructions axis table))
  (Hrec : In record (con_MathGlyphVariantRecord construction)) :
  exists g bbox,
    ufoLib2.getitem font (VariantGlyph record) = Ok g /\
    getBounds font g = Some bbox /\
    float_int (PrimFloat.add (Font.extent axis bbox) PrimFloat.one)
    = Ok (AdvanceMeasurement record) /\
    (forall q, float_value (Font.padded axis bbox) = Some q ->
               AdvanceMeasurement record = py_int q) /\
    (forall e q,
       float_value (Font.extent axis bbox) = Some e ->
       float_value (Font.padded axis bbox) = Some q ->
       is_integer e = true -> (q == e + 1)%Q ->
       float_round (Font.extent axis bbox) = Ok (py_round e) /\
       AdvanceMeasurement record = py_round e + 1).
Proof.
  destruct (post_process_MATH _ _ _ _ Hfresh Hpp Htable)
    as (constants & _ & _ & Hbuild).
  destruct (build_MATH_axis _ _ _ axis Hbuild) as (c & _ & Hax).
  apply axis_constructions_Ok in Hax. destruct Hax as [_ Hcons].
  destruct (Forall2_In_r _ _ _ _ Hcons Hcon) as (name & _ & Hname).
  apply glyph_construction_Ok in Hname.
  destruct Hname as (variants & _ & _ & Hrecords & _).
  destruct (Forall2_In_r _ _ _ _ Hrecords Hrec) as (variant & _ & Hvariant).
  apply variant_record_Ok in Hvariant.
  destruct Hvariant as (g & bbox & Hg & Hbbox & Hname & Hint).
  exists g, bbox. rewrite Hname.
  split; [exact Hg |]. split; [exact Hbbox |]. split; [exact Hint |].
  split.
  - intros q Hq. exact (float_int_truncates _ _ _ Hint Hq).
  - intros e q He Hq Hwhole Hexact. split.
    + apply float_round_rounds, He.
    + rewrite (float_int_truncates _ _ _ Hint Hq).
      apply int_pad_of_integer; assumption.
Qed.

Lemma advance_measurement_truncated_witness :
  exists g bbox,
    ufoLib2.getitem Samples.math_font "parenleft.big" = Ok g /\
    getBounds (Externals := Samples.straight_lines) Samples.math_font g
    = Some bbox /\
    float_int (PrimFloat.add (Font.extent Font.Vertical bbox) PrimFloat.one)
    = Ok 1001 /\
    (forall q, float_value (Font.padded Font.Vertical bbox) = Some q ->
               1001 = py_int q) /\
    (forall e q,
       float_value (Font.extent Font.Vertical bbox) = Some e ->
       float_value (Font.padded Font.Vertical bbox) = Some q ->
       is_integer e = true -> (q == e + 1)%Q ->
       float_round (Font.extent Font.Vertical bbox) = Ok (py_round e) /\
       1001 = py_round e + 1).
Proof.
  eapply (advance_measurement_truncated (H := Samples.straight_lines)
            Samples.math_font Samples.compiled _ _ Font.Vertical _
            {| VariantGlyph := "parenleft.big"; AdvanceMeasurement := 1001 |}
            eq_refl eq_refl eq_refl).
  - simpl. left. reflexivity.
  - simpl. right. left. reflexivity.
Defined.

(** C2 as stated fails on a bounding box that is not a whole number of units
    tall: [parenleft.big] spans -200 to 800.75, its extent is 1000.75, so
    [round(extent) + 1] is 1002, and the record holds 1001. *)
Lemma advance_measurement_not_rounded :
  ~ (forall otf' table construction record g bbox rounded,
       Font._post_process (H := Samples.straight_lines)
         Samples.math_font Samples.compiled = Ok otf' ->
       tt_MATH otf' = Some table ->
       In construction (VertGlyphConstruction (math_MathVariants table)) ->
       In record (con_MathGlyphVariantRecord construction) ->
       ufoLib2.getitem Samples.math_font (VariantGlyph record) = Ok g ->
       getBounds (Externals := Samples.straight_lines) Samples.math_font g
       = Some bbox ->
       float_round (PrimFloat.sub (ufoLib2.yMax bbox) (ufoLib2.yMin bbox))
       = Ok rounded ->
       AdvanceMeasurement record = rounded + 1).
Proof.
  intros Hclaim.
  specialize (Hclaim _ _ _
                {| VariantGlyph := "parenleft.big"; AdvanceMeasurement := 1001 |}
                _ _ 1001 eq_refl eq_refl
                (or_introl eq_refl) (or_intror (or_introl eq_refl))
                eq_refl eq_refl eq_refl).
  vm_compute in Hclaim. discriminate Hclaim.
Qed.

(** The two sides of C2 on sample boxes.  A box 600 units tall measures 601,
    which is [round(600) + 1].  In doubles the padded sum is rounded before
    it is truncated: a box from 0 up to the last double below 512 measures
    513, where the exact sum would truncate to 512. *)
Lemma advance_measurement_in_doubles :
  let box :=
    {| ufoLib2.xMin := PrimFloat.zero; ufoLib2.yMin := PrimFloat.zero;
       ufoLib2.xMax := PrimFloat.one;
       ufoLib2.yMax := FloatOps.SF2Prim (SpecFloat.S754_finite false 600 0) |} in
  let thin :=
    {| ufoLib2.xMin := PrimFloat.zero; ufoLib2.yMin := PrimFloat.zero;
       ufoLib2.xMax := PrimFloat.one; ufoLib2.yMax := Samples.below_512 |} in
  float_int (Font.padded Font.Vertical box) = Ok 601 /\
  float_round (Font.extent Font.Vertical box) = Ok 600 /\
  float_int (Font.padded Font.Vertical thin) = Ok 513 /\
  (exists e, float_value (Font.extent Font.Vertical thin) = Some e /\
             py_int (e + 1)%Q = 512).
Proof.
  repeat split; try (vm_compute; reflexivity).
  eexists. split; vm_compute; reflexivity.
Qed.

(** ** What the metadata loop gathers *)

Lemma distinct_NoDup (l : list string) :
  ufoLib2.distinct l = true -> NoDup l.
Proof.
  induction l as [| a l IH]; simpl; intros Hd.
  - constructor.
  - apply andb_true_iff in Hd. destruct Hd as [Ha Hl].
    constructor; [| apply IH; exact Hl].
    intros Hin. apply negb_true_iff in Ha.
    assert (Hex : existsb (String.eqb a) l = true).
    { apply existsb_exists. exists a. split; [exact Hin | apply String.eqb_refl]. }
    congruence.
Qed.

Lemma foldM_app {A S : Type} (f : S -> A -> result S) (l l' : list A) (s : S) :
  foldM f (l ++ l') s = bind (foldM f l s) (foldM f l').
Proof.
  revert s. induction l as [| a l IH]; simpl; intros s.
  - reflexivity.
  - destruct (f s a) as [s' | e]; [apply IH | reflexivity].
Qed.

(** One axis of one glyph: other names are left alone; the glyph's own
    entries are set from its metadata, the composition only under the
    variants. *)
Lemma collect_axis_Ok (n : string) (math : sdict ufoLib2.MathEntry)
  (vk ck : string) (vars vars' : sdict (list string))
  (comp comp' : sdict (list (string * string))) :
  Font.collect_axis n math vk ck vars comp = Ok (vars', comp') ->
  (forall k, k <> n ->
             sget k vars' = sget k vars /\ sget k comp' = sget k comp) /\
  match sget vk math with
  | None => vars' = vars /\ comp' = comp
  | Some e =>
      exists vs, e = ufoLib2.MathVariantList vs /\ sget n vars' = Some vs /\
        match sget ck math with
        | None => comp' = comp
        | Some e' =>
            exists ps, e' = ufoLib2.MathPartList ps /\ sget n comp' = Some ps
        end
  end.
Proof.
  unfold Font.collect_axis, Font.read, sin, dict_in, sgetitem, getitem, sget.
  intros Hax.
  destruct (dict_get String.eqb vk math) as [e |].
  - simpl in Hax. destruct e as [z | b | vs | ps0]; simpl in Hax;
      try discriminate Hax.
    destruct (dict_get String.eqb ck math) as [e' |].
    + simpl in Hax. destruct e' as [z | b | vs' | ps]; simpl in Hax;
        try discriminate Hax.
      injection Hax as <- <-. split.
      * intros k Hk. split; apply sget_sset_other; exact Hk.
      * exists vs. split; [reflexivity |]. split; [apply sget_sset_same |].
        exists ps. split; [reflexivity | apply sget_sset_same].
    + injection Hax as <- <-. split.
      * intros k Hk. split; [apply sget_sset_other; exact Hk | reflexivity].
      * exists vs. split; [reflexivity |]. split; [apply sget_sset_same |].
        reflexivity.
  - injection Hax as <- <-. split; [intros k _ |]; split; reflexivity.
Qed.

(** The loop body, seen from one axis. *)
Lemma collect_glyph_axis (acc acc' : Font.Collected) (g : ufoLib2.Glyph)
  (axis : Font.Axis) :
  Font.collect_glyph acc g = Ok acc' ->
  Font.collect_axis (ufoLib2.name g) (ufoLib2.math_entries g)
    (Font.variants_key axis) (Font.composition_key axis)
    (Font.vars_of axis acc) (Font.comp_of axis acc)
  = Ok (Font.vars_of axis acc', Font.comp_of axis acc').
Proof.
  unfold Font.collect_glyph, ufoLib2.math_entries. intros Hg.
  destruct (ufoLib2.lib_math g) as [[| kv math] |].
  - injection Hg as <-. reflexivity.
  - unfold Font.collect_math in Hg.
    apply bind_Ok in Hg. destruct Hg as (italic & _ & Hg).
    apply bind_Ok in Hg. destruct Hg as (accent & _ & Hg).
    apply bind_Ok in Hg. destruct Hg as ([vv vc] & Hv & Hg).
    apply bind_Ok in Hg. destruct Hg as ([hv hc] & Hh & Hg).
    injection Hg as <-. destruct axis; simpl; assumption.
  - injection Hg as <-. reflexivity.
Qed.

(** The gathered variants and compositions of an axis, glyph by glyph, in a
    font with distinct glyph names. *)
Lemma collect_axis_entries (axis : Font.Axis) (gs : list ufoLib2.Glyph)
  (acc c : Font.Collected) :
  NoDup (map ufoLib2.name gs) ->
  foldM Font.collect_glyph gs acc = Ok c ->
  (forall n, ~ In n (map ufoLib2.name gs) ->
             sget n (Font.vars_of axis c) = sget n (Font.vars_of axis acc) /\
             sget n (Font.comp_of axis c) = sget n (Font.comp_of axis acc)) /\
  (forall g, In g gs ->
     match sget (Font.variants_key axis) (ufoLib2.math_entries g) with
     | None =>
         sget (ufoLib2.name g) (Font.vars_of axis c)
         = sget (ufoLib2.name g) (Font.vars_of axis acc) /\
         sget (ufoLib2.name g) (Font.comp_of axis c)
         = sget (ufoLib2.name g) (Font.comp_of axis acc)
     | Some e =>
         exists vs, e = ufoLib2.MathVariantList vs /\
           sget (ufoLib2.name g) (Font.vars_of axis c) = Some vs /\
           match sget (Font.composition_key axis) (ufoLib2.math_entries g) with
           | None =>
               sget (ufoLib2.name g) (Font.comp_of axis c)
               = sget (ufoLib2.name g) (Font.comp_of axis acc)
           | Some e' =>
               exists ps, e' = ufoLib2.MathPartList ps /\
                 sget (ufoLib2.name g) (Font.comp_of axis c) = Some ps
           end
     end).
Proof.
  revert acc. induction gs as [| g0 gs IH]; simpl; intros acc Hnd Hfold.
  - injection Hfold as <-. split; [intros n _; split; reflexivity | intros g []].
  - destruct (Font.collect_glyph acc g0) as [acc1 | e] eqn:Hstep;
      [| discriminate Hfold].
    inversion Hnd as [| ? ? Hfresh Hnd']; subst.
    destruct (IH acc1 Hnd' Hfold) as [Hout Hin].
    apply (collect_glyph_axis _ _ _ axis) in Hstep.
    apply collect_axis_Ok in Hstep. destruct Hstep as [Hother Hself].
    split.
    + intros n Hn.
      destruct (Hout n) as [Hv Hc]; [tauto |].
      destruct (Hother n) as [Hv' Hc']; [intros ->; tauto |].
      split; congruence.
    + intros g [<- | Hg].
      * destruct (Hout (ufoLib2.name g0) Hfresh) as [Hv Hc].
        destruct (sget (Font.variants_key axis) (ufoLib2.math_entries g0)) as [e |].
        -- destruct Hself as (vs & -> & Hvs & Hcomp).
           exists vs. split; [reflexivity |]. split; [congruence |].
           destruct (sget (Font.composition_key axis) (ufoLib2.math_entries g0))
             as [e' |].
           ++ destruct Hcomp as (ps & -> & Hps). exists ps. split; congruence.
           ++ congruence.
        -- destruct Hself as [Hv1 Hc1]. split; congruence.
      * assert (Hne : ufoLib2.name g <> ufoLib2.name g0).
        { intros Heq. apply Hfresh. rewrite <- Heq.
          apply in_map. exact Hg. }
        destruct (Hother _ Hne) as [Hv' Hc'].
        specialize (Hin g Hg).
        destruct (sget (Font.variants_key axis) (ufoLib2.math_entries g)) as [e |].
        -- destruct Hin as (vs & -> & Hvs & Hcomp).
           exists vs. split; [reflexivity |]. split; [exact Hvs |].
           destruct (sget (Font.composition_key axis) (ufoLib2.math_entries g))
             as [e' |]; [exact Hcomp | congruence].
        -- destruct Hin as [Hv Hc]. split; congruence.
Qed.

(** ** Sets and sorting *)

Lemma set_add_In (n m : string) (s : list string) :
  In m (set_add n s) <-> In m s \/ m = n.
Proof.
  induction s as [| a s IH]; simpl.
  - split; [intros [<- | []]; now right | intros [[] | ->]; now left].
  - destruct (String.eqb n a) eqn:E.
    + apply String.eqb_eq in E. subst a. simpl. split; [tauto |].
      intros [H | ->]; [exact H | now left].
    + simpl. rewrite IH. tauto.
Qed.

Lemma set_add_NoDup (n : string) (s : list string) :
  NoDup s -> NoDup (set_add n s).
Proof.
  induction s as [| a s IH]; simpl; intros Hnd.
  - constructor; [intros [] | constructor].
  - destruct (String.eqb n a) eqn:E; [exact Hnd |].
    apply String.eqb_neq in E.
    inversion Hnd as [| ? ? Ha Hs]; subst. constructor.
    + rewrite set_add_In. intros [Hin | Heq]; [contradiction | congruence].
    + apply IH. exact Hs.
Qed.

Lemma set_of_spec (l : list string) :
  NoDup (set_of l) /\ forall m, In m (set_of l) <-> In m l.
Proof.
  unfold set_of.
  assert (Hgen : forall s, NoDup s ->
            NoDup (fold_left (fun s n => set_add n s) l s) /\
            forall m, In m (fold_left (fun s n => set_add n s) l s)
                      <-> In m s \/ In m l).
  { induction l as [| a l IH]; simpl; intros s Hs.
    - split; [exact Hs | intros m; tauto].
    - destruct (IH (set_add a s) (set_add_NoDup a s Hs)) as [Hnd Hin].
      split; [exact Hnd |]. intros m. rewrite Hin, set_add_In.
      split; [intros [[H | ->] | H] | intros [H | [<- | H]]]; auto. }
  destruct (Hgen [] (NoDup_nil _)) as [Hnd Hin].
  split; [exact Hnd |]. intros m. rewrite Hin. simpl. tauto.
Qed.

Section Sorting.
Context {A : Type} (key : A -> Z).

Let le_key (a b : A) : Prop := key a <= key b.
Let lt_key (a b : A) : Prop := key a < key b.

Lemma insert_by_Permutation (a : A) (l : list A) :
  Permutation (insert_by key a l) (a :: l).
Proof.
  induction l as [| b l IH]; simpl.
  - apply Permutation_refl.
  - destruct (key a <? key b); [apply Permutation_refl |].
    eapply Permutation_trans; [apply perm_skip, IH | apply perm_swap].
Qed.

Lemma sorted_Permutation (l : list A) : Permutation (sorted key l) l.
Proof.
  unfold sorted.
  assert (Hgen : forall acc,
            Permutation (fold_left (fun acc a => insert_by key a acc) l acc)
                        (acc ++ l)).
  { induction l as [| a l IH]; simpl; intros acc.
    - rewrite app_nil_r. apply Permutation_refl.
    - eapply Permutation_trans; [apply IH |].
      eapply Permutation_trans;
        [apply Permutation_app_tail, insert_by_Permutation |].
      simpl. apply Permutation_middle. }
  apply (Hgen []).
Qed.

Lemma insert_by_sorted (a : A) (l : list A) :
  StronglySorted le_key l -> StronglySorted le_key (insert_by key a l).
Proof.
  induction l as [| b l IH]; simpl; intros Hs.
  - constructor; [constructor | constructor].
  - inversion Hs as [| ? ? Hl Hb]; subst.
    destruct (key a <? key b) eqn:E.
    + apply Z.ltb_lt in E. constructor; [exact Hs |].
      constructor; [unfold le_key; lia |].
      eapply Forall_impl; [| exact Hb]. unfold le_key. intros c Hc. lia.
    + apply Z.ltb_ge in E. constructor; [apply IH; exact Hl |].
      eapply Permutation_Forall;
        [apply Permutation_sym, insert_by_Permutation |].
      constructor; [exact E | exact Hb].
Qed.

Lemma sorted_sorted (l : list A) : StronglySorted le_key (sorted key l).
Proof.
  unfold sorted.
  assert (Hgen : forall acc, StronglySorted le_key acc ->
            StronglySorted le_key
              (fold_left (fun acc a => insert_by key a acc) l acc)).
  { induction l as [| a l IH]; simpl; intros acc Hacc.
    - exact Hacc.
    - apply IH, insert_by_sorted, Hacc. }
  apply Hgen. constructor.
Qed.

Lemma sorted_strict (l : list A) :
  StronglySorted le_key l -> NoDup (map key l) -> StronglySorted lt_key l.
Proof.
  induction 1 as [| a l Hl IH Ha]; simpl; intros Hnd.
  - constructor.
  - inversion Hnd as [| ? ? Hfresh Hnd']; subst.
    constructor; [apply IH; exact Hnd' |].
    rewrite Forall_forall in *. intros b Hb.
    specialize (Ha b Hb). unfold le_key in Ha. unfold lt_key.
    assert (key a <> key b).
    { intros Heq. apply Hfresh. rewrite Heq. apply in_map. exact Hb. }
    lia.
Qed.

(** A strictly sorted list is determined by its elements. *)
Lemma strictly_sorted_unique (l1 l2 : list A) :
  StronglySorted lt_key l1 -> StronglySorted lt_key l2 ->
  Permutation l1 l2 -> l1 = l2.
Proof.
  intros H1. revert l2.
  induction H1 as [| a1 l1 Hl1 IH Ha1]; intros l2 H2 Hperm.
  - apply Permutation_nil in Hperm. now subst.
  - destruct H2 as [| a2 l2 Hl2 Ha2].
    + apply Permutation_sym, Permutation_nil in Hperm. discriminate Hperm.
    + assert (Heq : a1 = a2).
      { assert (In1 : In a1 (a2 :: l2))
          by (eapply Permutation_in; [exact Hperm | now left]).
        assert (In2 : In a2 (a1 :: l1))
          by (eapply Permutation_in;
              [apply Permutation_sym; exact Hperm | now left]).
        rewrite Forall_forall in Ha1, Ha2.
        destruct In1 as [-> | In1]; [reflexivity |].
        destruct In2 as [-> | In2]; [reflexivity |].
        specialize (Ha1 _ In2). specialize (Ha2 _ In1).
        unfold lt_key in *. lia. }
      subst a2. f_equal. apply IH; [exact Hl2 |].
      eapply Permutation_cons_inv. exact Hperm.
Qed.

Lemma sorted_Permutation_eq (l1 l2 : list A) :
  NoDup (map key l1) -> Permutation l1 l2 -> sorted key l1 = sorted key l2.
Proof.
  intros Hnd Hperm.
  assert (Hp1 := sorted_Permutation l1).
  assert (Hp2 := sorted_Permutation l2).
  apply strictly_sorted_unique.
  - apply sorted_strict; [apply sorted_sorted |].
    eapply Permutation_NoDup; [| exact Hnd].
    apply Permutation_map, Permutation_sym, Hp1.
  - apply sorted_strict; [apply sorted_sorted |].
    eapply Permutation_NoDup; [| exact Hnd].
    apply Permutation_map.
    eapply Permutation_trans; [exact Hperm | apply Permutation_sym, Hp2].
  - eapply Permutation_trans; [exact Hp1 |].
    eapply Permutation_trans; [exact Hperm | apply Permutation_sym, Hp2].
Qed.
End Sorting.

(** ** Glyph IDs and coverage tables *)

Lemma enumerate_lower {A : Type} (l : list A) (s i : Z) (a : A) :
  In (i, a) (otl.enumerate s l) -> s <= i.
Proof.
  revert s. induction l as [| b l IH]; simpl; intros s Hin.
  - destruct Hin.
  - destruct Hin as [Heq | Hin].
    + injection Heq as <- _. lia.
    + apply IH in Hin. lia.
Qed.

Lemma enumerate_functional {A : Type} (l : list A) (s i : Z) (a b : A) :
  In (i, a) (otl.enumerate s l) -> In (i, b) (otl.enumerate s l) -> a = b.
Proof.
  revert s. induction l as [| c l IH]; simpl; intros s Ha Hb.
  - destruct Ha.
  - destruct Ha as [Ha | Ha]; destruct Hb as [Hb | Hb].
    + congruence.
    + injection Ha as <- _. apply enumerate_lower in Hb. lia.
    + injection Hb as <- _. apply enumerate_lower in Ha. lia.
    + apply (IH _ Ha Hb).
Qed.

Lemma glyphMap_entries (ps : list (Z * string)) (m : sdict Z) (n : string) (i : Z) :
  sget n (fold_left (fun m p => sset (snd p) (fst p) m) ps m) = Some i ->
  sget n m = Some i \/ In (i, n) ps.
Proof.
  revert m. induction ps as [| [j k] ps IH]; simpl; intros m Hget.
  - now left.
  - destruct (IH _ Hget) as [Hm | Hin]; [| right; right; exact Hin].
    destruct (string_dec n k) as [-> | Hne].
    + rewrite sget_sset_same in Hm. injection Hm as ->. right. now left.
    + rewrite sget_sset_other in Hm by exact Hne. now left.
Qed.

(** Two names never share a glyph ID. *)
Lemma make_glyphMap_injective (order : list string) (n1 n2 : string) (i : Z) :
  sget n1 (otl.make_glyphMap order) = Some i ->
  sget n2 (otl.make_glyphMap order) = Some i ->
  n1 = n2.
Proof.
  unfold otl.make_glyphMap. intros H1 H2.
  apply glyphMap_entries in H1. apply glyphMap_entries in H2.
  destruct H1 as [H1 | H1]; [discriminate H1 |].
  destruct H2 as [H2 | H2]; [discriminate H2 |].
  apply (enumerate_functional _ _ _ _ _ H1 H2).
Qed.

(** The keys [sorted] computes: all found, or a [ValueError]. *)
Lemma keyed_names (glyphMap : sdict Z) (l : list string) :
  mapM (fun n => match sget n glyphMap with
                 | Some i => Ok (i, n)
                 | None => Raise ValueError
                 end) l
  = if forallb (fun n => sin n glyphMap) l
    then Ok (map (fun n => (match sget n glyphMap with
                            | Some i => i
                            | None => 0
                            end, n)) l)
    else Raise ValueError.
Proof.
  induction l as [| n l IH]; simpl.
  - reflexivity.
  - rewrite IH. unfold sin, dict_in, sget.
    destruct (dict_get String.eqb n glyphMap) as [i |]; simpl; [| reflexivity].
    destruct (forallb _ l); reflexivity.
Qed.

Lemma buildCoverage_Some (names : list string) (glyphMap : sdict Z)
  (coverage : Coverage) :
  otl.buildCoverage names glyphMap = Ok (Some coverage) ->
  exists keyed,
    map snd keyed = set_of names /\
    Forall (fun p => sget (snd p) glyphMap = Some (fst p)) keyed /\
    glyphs coverage = map snd (sorted fst keyed).
Proof.
  unfold otl.buildCoverage. intros Hb.
  destruct names as [| n names]; [discriminate Hb |].
  apply bind_Ok in Hb. destruct Hb as (keyed & Hkeyed & Hb).
  injection Hb as <-. exists keyed. split; [| split; [| reflexivity]].
  - apply mapM_Ok_Forall2 in Hkeyed.
    induction Hkeyed as [| m p l ps Hmp _ IH]; simpl; [reflexivity |].
    rewrite IH. destruct (sget m glyphMap); [| discriminate Hmp].
    injection Hmp as <-. reflexivity.
  - apply mapM_Ok_Forall2 in Hkeyed.
    induction Hkeyed as [| m p l ps Hmp _ IH]; constructor; [| exact IH].
    destruct (sget m glyphMap) as [i |] eqn:Hi; [| discriminate Hmp].
    injection Hmp as <-. exact Hi.
Qed.

Lemma buildCoverage_In (names : list string) (glyphMap : sdict Z)
  (coverage : Coverage) (n : string) :
  otl.buildCoverage names glyphMap = Ok (Some coverage) ->
  In n (glyphs coverage) -> In n names.
Proof.
  intros Hb Hin.
  destruct (buildCoverage_Some _ _ _ Hb) as (keyed & Hnames & _ & Hglyphs).
  rewrite Hglyphs in Hin.
  apply (Permutation_in _ (Permutation_map snd (sorted_Permutation fst keyed)))
    in Hin.
  rewrite Hnames in Hin. apply set_of_spec. exact Hin.
Qed.

Lemma keyed_ids_NoDup (glyphMap : sdict Z) (keyed : list (Z * string)) :
  (forall n1 n2 i, sget n1 glyphMap = Some i -> sget n2 glyphMap = Some i ->
                   n1 = n2) ->
  Forall (fun p => sget (snd p) glyphMap = Some (fst p)) keyed ->
  NoDup (map snd keyed) -> NoDup (map fst keyed).
Proof.
  intros Hinj Hall. induction Hall as [| p keyed Hp Hall IH]; simpl; intros Hnd.
  - constructor.
  - inversion Hnd as [| ? ? Hfresh Hnd']; subst.
    constructor; [| apply IH; exact Hnd'].
    intros Hin. apply in_map_iff in Hin. destruct Hin as (q & Hq & Hqin).
    apply Hfresh. rewrite Forall_forall in Hall. specialize (Hall q Hqin).
    rewrite Hq in Hall. rewrite (Hinj _ _ _ Hp Hall).
    apply in_map. exact Hqin.
Qed.

Lemma glyph_ids_keyed (glyphMap : sdict Z) (keyed : list (Z * string)) :
  Forall (fun p => sget (snd p) glyphMap = Some (fst p)) keyed ->
  otl.glyph_ids glyphMap (map snd keyed) = Some (map fst keyed).
Proof.
  induction 1 as [| p keyed Hp _ IH]; simpl.
  - reflexivity.
  - rewrite Hp, IH. reflexivity.
Qed.

Lemma increasing_sorted (keyed : list (Z * string)) :
  StronglySorted (fun a b => fst a < fst b) keyed ->
  otl.increasing (map fst keyed) = true.
Proof.
  induction 1 as [| p keyed Hs IH Hp]; [reflexivity |].
  destruct keyed as [| q keyed]; [reflexivity |].
  change (((fst p <? fst q) && otl.increasing (map fst (q :: keyed)))%bool = true).
  rewrite IH, andb_true_r. apply Z.ltb_lt.
  inversion Hp; assumption.
Qed.

(** A coverage table lists its glyphs by strictly increasing glyph ID. *)
Lemma buildCoverage_in_glyph_order (names : list string) (order : list string)
  (coverage : Coverage) :
  otl.buildCoverage names (otl.make_glyphMap order) = Ok (Some coverage) ->
  otl.in_glyph_order (otl.make_glyphMap order) (glyphs coverage) = true.
Proof.
  intros Hb.
  destruct (buildCoverage_Some _ _ _ Hb) as (keyed & Hnames & Hall & Hglyphs).
  assert (Hperm := sorted_Permutation fst keyed).
  assert (Hall' : Forall (fun p => sget (snd p) (otl.make_glyphMap order)
                                   = Some (fst p)) (sorted fst keyed)).
  { eapply Permutation_Forall; [apply Permutation_sym; exact Hperm | exact Hall]. }
  unfold otl.in_glyph_order.
  rewrite Hglyphs, (glyph_ids_keyed _ _ Hall').
  apply increasing_sorted, (sorted_strict fst); [apply sorted_sorted |].
  eapply Permutation_NoDup;
    [apply Permutation_map, Permutation_sym; exact Hperm |].
  apply (keyed_ids_NoDup (otl.make_glyphMap order));
    [apply make_glyphMap_injective | exact Hall |].
  rewrite Hnames. apply set_of_spec.
Qed.

(** The table does not depend on the order in which the names arrive. *)
Lemma buildCoverage_order_independent (names1 names2 order : list string) :
  (forall n, In n names1 <-> In n names2) ->
  otl.buildCoverage names1 (otl.make_glyphMap order)
  = otl.buildCoverage names2 (otl.make_glyphMap order).
Proof.
  intros Hsame. unfold otl.buildCoverage.
  destruct names1 as [| a1 names1]; destruct names2 as [| a2 names2];
    [reflexivity
    | exfalso; apply (Hsame a2); now left
    | exfalso; apply (Hsame a1); now left
    |].
  set (l1 := a1 :: names1) in *. set (l2 := a2 :: names2) in *.
  assert (Hperm : Permutation (set_of l1) (set_of l2)).
  { apply NoDup_Permutation; try apply set_of_spec.
    intros n. rewrite !(proj2 (set_of_spec _)). apply Hsame. }
  rewrite !keyed_names.
  assert (Hall : forallb (fun n => sin n (otl.make_glyphMap order)) (set_of l1)
                 = forallb (fun n => sin n (otl.make_glyphMap order)) (set_of l2)).
  { apply eq_true_iff_eq. rewrite !forallb_forall. split; intros H n Hn;
      apply H; [apply Permutation_sym in Hperm |];
      eapply Permutation_in; eassumption. }
  rewrite <- Hall.
  destruct (forallb _ (set_of l1)) eqn:Hfound; [| reflexivity].
  set (keyed := fun n : string =>
                  (match sget n (otl.make_glyphMap order) with
                   | Some i => i
                   | None => 0
                   end, n)).
  assert (Hs : sorted fst (map keyed (set_of l1))
               = sorted fst (map keyed (set_of l2))).
  { apply sorted_Permutation_eq; [| apply Permutation_map; exact Hperm].
    apply (keyed_ids_NoDup (otl.make_glyphMap order));
      [apply make_glyphMap_injective | |].
    - apply Forall_forall. intros p Hp. apply in_map_iff in Hp.
      destruct Hp as (n & <- & Hn). simpl.
      rewrite forallb_forall in Hfound. specialize (Hfound n Hn).
      apply sin_true in Hfound. destruct Hfound as [i Hi].
      rewrite Hi. reflexivity.
    - rewrite map_map. simpl. rewrite map_id. apply set_of_spec. }
  simpl. rewrite Hs. reflexivity.
Qed.

Lemma covered_values_Ok (d : sdict MathValueRecord) (glyphMap : sdict Z)
  (coverage : Coverage) (values : list MathValueRecord) :
  Font.covered_values d glyphMap = Ok (coverage, values) ->
  otl.buildCoverage (dict_keys d) glyphMap = Ok (Some coverage) /\
  Forall2 (fun n v => sget n d = Some v) (glyphs coverage) values.
Proof.
  unfold Font.covered_values. intros Hcv.
  apply bind_Ok in Hcv. destruct Hcv as (cov & Hcov & Hcv).
  apply bind_Ok in Hcv. destruct Hcv as (cov' & Hcov' & Hcv).
  apply bind_Ok in Hcv. destruct Hcv as (vals & Hvals & Hcv).
  injection Hcv as <- <-.
  destruct cov as [cov |]; simpl in Hcov'; [| discriminate Hcov'].
  injection Hcov' as <-. split; [exact Hcov |].
  apply mapM_Ok_Forall2 in Hvals.
  eapply Forall2_impl; [| exact Hvals].
  intros n v Hnv. apply sgetitem_Ok. exact Hnv.
Qed.

Lemma same_keys {V : Type} (d1 d2 : sdict V) :
  (forall n, sget n d1 = sget n d2) ->
  forall n, In n (dict_keys d1) <-> In n (dict_keys d2).
Proof.
  intros Hsame n. rewrite !sget_In_keys, Hsame. reflexivity.
Qed.

Lemma covered_values_order_independent (d1 d2 : sdict MathValueRecord)
  (order : list string) :
  (forall n, sget n d1 = sget n d2) ->
  Font.covered_values d1 (otl.make_glyphMap order)
  = Font.covered_values d2 (otl.make_glyphMap order).
Proof.
  intros Hsame. unfold Font.covered_values.
  rewrite (buildCoverage_order_independent _ _ order (same_keys d1 d2 Hsame)).
  destruct (otl.buildCoverage (dict_keys d2) (otl.make_glyphMap order))
    as [coverage | e]; [| reflexivity].
  simpl. destruct (otl.coverage_object coverage) as [cov | e]; [| reflexivity].
  simpl. rewrite (mapM_ext_in _ (fun n => sgetitem n d2)); [reflexivity |].
  intros n _. unfold sgetitem, getitem. fold (sget n d1). fold (sget n d2).
  rewrite Hsame. reflexivity.
Qed.

Lemma glyph_construction_order_independent `{Externals} (font : ufoLib2.Font)
  (axis : Font.Axis) (vars1 vars2 : sdict (list string))
  (comp1 comp2 : sdict (list (string * string))) (name : string) :
  (forall n, sget n vars1 = sget n vars2) ->
  (forall n, sget n comp1 = sget n comp2) ->
  Font.glyph_construction font axis vars1 comp1 name
  = Font.glyph_construction font axis vars2 comp2 name.
Proof.
  intros Hvars Hcomp.
  unfold Font.glyph_construction, sgetitem, getitem, sin, dict_in.
  fold (sget name vars1). fold (sget name vars2).
  fold (sget name comp1). fold (sget name comp2).
  rewrite Hvars, Hcomp. reflexivity.
Qed.

Lemma axis_constructions_order_independent `{Externals} (font : ufoLib2.Font)
  (axis : Font.Axis) (vars1 vars2 : sdict (list string))
  (comp1 comp2 : sdict (list (string * string))) (order : list string) :
  (forall n, sget n vars1 = sget n vars2) ->
  (forall n, sget n comp1 = sget n comp2) ->
  Font.axis_constructions font axis vars1 comp1 (otl.make_glyphMap order)
  = Font.axis_constructions font axis vars2 comp2 (otl.make_glyphMap order).
Proof.
  intros Hvars Hcomp. unfold Font.axis_constructions.
  rewrite (buildCoverage_order_independent _ _ order (same_keys _ _ Hvars)).
  destruct (otl.buildCoverage (dict_keys vars2) (otl.make_glyphMap order))
    as [coverage | e]; [| reflexivity].
  simpl. destruct (otl.coverage_object coverage) as [cov | e]; [| reflexivity].
  simpl.
  rewrite (mapM_ext_in _ (Font.glyph_construction font axis vars2 comp2));
    [reflexivity |].
  intros n _. apply glyph_construction_order_independent; assumption.
Qed.

(** C4. The five coverage tables of the MATH table list their glyphs by
    strictly increasing glyph ID, and a coverage table, with the value array
    or the constructions that run parallel to it, is the same for any two
    dictionaries that are equal as maps, whatever their insertion order. *)
Theorem coverage_tables_in_glyph_order `{Externals} (font : ufoLib2.Font)
  (otf otf' : TTFont) (table : MATH)
  (Hfresh : tt_MATH otf = None)
  (Hpp : Font._post_process font otf = Ok otf')
  (Htable : tt_MATH otf' = Some table) :
  let glyphMap := otl.make_glyphMap (ufoLib2.glyphOrder font) in
  let info := math_MathGlyphInfo table in
  otl.in_glyph_order glyphMap
    (glyphs (ici_Coverage (info_MathItalicsCorrectionInfo info))) = true /\
  otl.in_glyph_order glyphMap
    (glyphs (TopAccentCoverage (info_MathTopAccentAttachment info))) = true /\
  (forall coverage, ExtendedShapeCoverage info = Some coverage ->
                    otl.in_glyph_order glyphMap (glyphs coverage) = true) /\
  (forall axis,
     otl.in_glyph_order glyphMap (glyphs (Font.table_coverage axis table))
     = true) /\
  (forall names1 names2,
     (forall n, In n names1 <-> In n names2) ->
     otl.buildCoverage names1 glyphMap = otl.buildCoverage names2 glyphMap) /\
  (forall d1 d2,
     (forall n, sget n d1 = sget n d2) ->
     Font.covered_values d1 glyphMap = Font.covered_values d2 glyphMap) /\
  (forall axis vars1 vars2 comp1 comp2,
     (forall n, sget n vars1 = sget n vars2) ->
     (forall n, sget n comp1 = sget n comp2) ->
     Font.axis_constructions font axis vars1 comp1 glyphMap
     = Font.axis_constructions font axis vars2 comp2 glyphMap).
Proof.
  intros glyphMap info.
  destruct (post_process_MATH _ _ _ _ Hfresh Hpp Htable)
    as (constants & _ & _ & Hbuild).
  destruct (build_MATH_Ok _ _ _ Hbuild)
    as (c & _ & _ & Hic & Hac & Hext & _ & _ & _).
  apply covered_values_Ok in Hic. destruct Hic as [Hic _].
  apply covered_values_Ok in Hac. destruct Hac as [Hac _].
  repeat split.
  - apply (buildCoverage_in_glyph_order _ _ _ Hic).
  - apply (buildCoverage_in_glyph_order _ _ _ Hac).
  - intros coverage Hcov. fold info in Hext. rewrite Hcov in Hext.
    apply (buildCoverage_in_glyph_order _ _ _ Hext).
  - intros axis.
    destruct (build_MATH_axis _ _ _ axis Hbuild) as (c' & _ & Hax).
    apply axis_constructions_Ok in Hax. destruct Hax as [Hax _].
    apply (buildCoverage_in_glyph_order _ _ _ Hax).
  - intros names1 names2. apply buildCoverage_order_independent.
  - intros d1 d2. apply covered_values_order_independent.
  - intros axis vars1 vars2 comp1 comp2.
    apply axis_constructions_order_independent.
Qed.

Lemma coverage_tables_in_glyph_order_witness :
  otl.in_glyph_order (otl.make_glyphMap Samples.math_order) ["y"; "x"] = true.
Proof.
  exact (proj1 (coverage_tables_in_glyph_order (H := Samples.straight_lines)
                  Samples.math_font Samples.compiled _ _
                  eq_refl eq_refl eq_refl)).
Defined.

(** ** Assemblies *)

Lemma Forall2_nth_error {A B : Type} (R : A -> B -> Prop) (l : list A)
  (l' : list B) (i : nat) (a : A) (b : B) :
  Forall2 R l l' -> nth_error l i = Some a -> nth_error l' i = Some b -> R a b.
Proof.
  intros HF. revert i. induction HF as [| a0 b0 l l' Hab _ IH]; intros i Ha Hb.
  - destruct i; discriminate Ha.
  - destruct i as [| i]; simpl in Ha, Hb.
    + injection Ha as <-. injection Hb as <-. exact Hab.
    + apply (IH i Ha Hb).
Qed.

Lemma part_record_Ok `{Numerals} (part : string * string)
  (record : GlyphPartRecord) :
  Font.part_record part = Ok record ->
  glyph record = fst part /\
  mapM int_of_str (split "," (snd part))
  = Ok [PartFlags record; StartConnectorLength record;
        EndConnectorLength record; FullAdvance record].
Proof.
  unfold Font.part_record. intros Hp.
  apply bind_Ok in Hp. destruct Hp as (fields & Hfields & Hp).
  destruct fields as [| f [| s [| e [| a [| x fields]]]]]; try discriminate Hp.
  injection Hp as <-. simpl. split; [reflexivity | exact Hfields].
Qed.

(** A glyph that declares no variants on an axis has no entry among the
    variants gathered for that axis. *)
Lemma no_variants_no_entry (axis : Font.Axis)
  (gs : list ufoLib2.Glyph) (c : Font.Collected) (g : ufoLib2.Glyph) :
  NoDup (map ufoLib2.name gs) ->
  Font.collect gs = Ok c ->
  In g gs ->
  sget (Font.variants_key axis) (ufoLib2.math_entries g) = None ->
  sget (ufoLib2.name g) (Font.vars_of axis c) = None.
Proof.
  intros Hnd Hc Hg Hno.
  destruct (collect_axis_entries axis _ _ _ Hnd Hc) as [_ Hin].
  specialize (Hin g Hg). rewrite Hno in Hin. destruct Hin as [Hv _].
  rewrite Hv. destruct axis; reflexivity.
Qed.

(** C9. In a font with distinct glyph names, take the construction of a
    covered glyph that declares assembly parts on the axis.  Its assembly has
    one part record per declared pair, in the declared order: the record's
    glyph is the pair's component name, its flags, start connector length,
    end connector length and full advance are the four comma-separated
    integers of the pair's string, in that order; and the assembly's
    italics correction is 0. *)
Theorem assembly_parts_in_order `{Externals} (font : ufoLib2.Font)
  (otf otf' : TTFont) (table : MATH) (axis : Font.Axis) (i : nat)
  (construction : MathGlyphConstruction) (g : ufoLib2.Glyph)
  (parts : list (string * string))
  (Hunique : ufoLib2.unique_names font = true)
  (Hfresh : tt_MATH otf = None)
  (Hpp : Font._post_process font otf = Ok otf')
  (Htable : tt_MATH otf' = Some table)
  (Hg : In g (ufoLib2.glyphs font))
  (Hcovered : nth_error (glyphs (Font.table_coverage axis table)) i
              = Some (ufoLib2.name g))
  (Hcon : nth_error (Font.table_constructions axis table) i = Some construction)
  (Hparts : sget (Font.composition_key axis) (ufoLib2.math_entries g)
            = Some (ufoLib2.MathPartList parts)) :
  exists assembly,
    con_GlyphAssembly construction = Some assembly /\
    Value (asm_ItalicsCorrection assembly) = 0 /\
    Forall2 (fun part record =>
               glyph record = fst part /\
               mapM int_of_str (split "," (snd part))
               = Ok [PartFlags record; StartConnectorLength record;
                     EndConnectorLength record; FullAdvance record])
            parts (PartRecords assembly).
Proof.
  destruct (post_process_MATH _ _ _ _ Hfresh Hpp Htable)
    as (constants & _ & _ & Hbuild).
  destruct (build_MATH_axis _ _ _ axis Hbuild) as (c & Hc & Hax).
  apply axis_constructions_Ok in Hax. destruct Hax as [_ Hcons].
  pose proof (Forall2_nth_error _ _ _ _ _ _ Hcons Hcovered Hcon) as Hbuilt.
  apply glyph_construction_Ok in Hbuilt.
  destruct Hbuilt as (variants & Hvariants & _ & _ & Hassembly).
  apply distinct_NoDup in Hunique.
  destruct (collect_axis_entries axis _ _ _ Hunique Hc) as [_ Hin].
  specialize (Hin g Hg).
  destruct (sget (Font.variants_key axis) (ufoLib2.math_entries g)) as [e |].
  - destruct Hin as (vs & _ & _ & Hcomp). rewrite Hparts in Hcomp.
    destruct Hcomp as (ps & Hps & Hget). injection Hps as <-.
    rewrite Hget in Hassembly.
    destruct Hassembly as (part_records & Hrecords & Hasm).
    eexists. split; [exact Hasm |]. split; [reflexivity |]. simpl.
    eapply Forall2_impl; [| exact Hrecords].
    intros part record. apply part_record_Ok.
  - destruct Hin as [Hv _]. rewrite Hvariants in Hv.
    destruct axis; discriminate Hv.
Qed.

Lemma assembly_parts_in_order_witness :
  exists assembly,
    Some {| asm_ItalicsCorrection := {| Value := 0 |};
            PartRecords :=
              [{| glyph := "parenleft.top"; StartConnectorLength := 0;
                  EndConnectorLength := 50; FullAdvance := 300;
                  PartFlags := 0 |};
               {| glyph := "parenleft.ext"; StartConnectorLength := 100;
                  EndConnectorLength := 100; FullAdvance := 200;
                  PartFlags := 1 |};
               {| glyph := "parenleft.bot"; StartConnectorLength := 50;
                  EndConnectorLength := 0; FullAdvance := 300;
                  PartFlags := 0 |}] |} = Some assembly /\
    Value (asm_ItalicsCorrection assembly) = 0 /\
    Forall2 (fun part record =>
               glyph record = fst part /\
               mapM (int_of_str (H := Samples.ascii_numerals))
                    (split "," (snd part))
               = Ok [PartFlags record; StartConnectorLength record;
                     EndConnectorLength record; FullAdvance record])
            [("parenleft.top", "0,0,50,300");
             ("parenleft.ext", "1,100,100,200");
             ("parenleft.bot", "0,50,0,300")]
            (PartRecords assembly).
Proof.
  eapply (assembly_parts_in_order (H := Samples.straight_lines)
            Samples.math_font Samples.compiled _ _ Font.Vertical 0
            {| con_GlyphAssembly := _; VariantCount := 2;
               con_MathGlyphVariantRecord := _ |}
            Samples.parenleft _ eq_refl eq_refl eq_refl eq_refl).
  - simpl. right. right. left. reflexivity.
  - reflexivity.
  - reflexivity.
  - reflexivity.
Defined.

(** ** Composition without variants *)

(** The loop body reads the metadata through seven keys only; an axis whose
    variants are missing does not read its composition. *)
Lemma collect_math_agree (axis : Font.Axis) (acc : Font.Collected) (n : string)
  (math math' : sdict ufoLib2.MathEntry) :
  (forall k, k <> Font.composition_key axis -> sget k math' = sget k math) ->
  sget (Font.variants_key axis) math = None ->
  Font.collect_math acc n math' = Font.collect_math acc n math.
Proof.
  intros Hsame Hno.
  assert (Hno' : sget (Font.variants_key axis) math' = None).
  { rewrite Hsame; [exact Hno | destruct axis; discriminate]. }
  unfold Font.collect_math, Font.collect_value, Font.collect_axis, Font.read,
    sin, sgetitem, getitem, dict_in.
  repeat match goal with
         | |- context [dict_get String.eqb ?k ?d] => fold (sget k d)
         end.
  destruct axis; simpl in Hsame, Hno, Hno'.
  - rewrite Hno, Hno'.
    rewrite !(Hsame "IsExtendedShape"), !(Hsame "ItalicCorrection"),
      !(Hsame "TopAccentHorizontal"), !(Hsame "GlyphVariantsHorizontal"),
      !(Hsame "GlyphCompositionHorizontal") by discriminate.
    reflexivity.
  - rewrite Hno, Hno'.
    rewrite !(Hsame "IsExtendedShape"), !(Hsame "ItalicCorrection"),
      !(Hsame "TopAccentHorizontal"), !(Hsame "GlyphVariantsVertical"),
      !(Hsame "GlyphCompositionVertical") by discriminate.
    reflexivity.
Qed.

Lemma collect_math_nothing (axis : Font.Axis) (acc : Font.Collected)
  (n : string) (e : ufoLib2.MathEntry) :
  Font.collect_math acc n [(Font.composition_key axis, e)] = Ok acc.
Proof. destruct axis; destruct acc; reflexivity. Qed.

Lemma composition_entry_ignored (axis : Font.Axis) (acc : Font.Collected)
  (g : ufoLib2.Glyph) (e : ufoLib2.MathEntry) :
  sget (Font.variants_key axis) (ufoLib2.math_entries g) = None ->
  Font.collect_glyph acc (ufoLib2.set_math_entry g (Font.composition_key axis) e)
  = Font.collect_glyph acc g.
Proof.
  unfold Font.collect_glyph, ufoLib2.set_math_entry, ufoLib2.math_entries.
  simpl. intros Hno.
  destruct (ufoLib2.lib_math g) as [[| kv math] |].
  - apply collect_math_nothing.
  - assert (Hagree :
      Font.collect_math acc (ufoLib2.name g)
        (sset (Font.composition_key axis) e (kv :: math))
      = Font.collect_math acc (ufoLib2.name g) (kv :: math)).
    { apply (collect_math_agree axis); [| exact Hno].
      intros k Hk. apply sget_sset_other. exact Hk. }
    destruct (sset (Font.composition_key axis) e (kv :: math)) as [| p m] eqn:Hset;
      [| exact Hagree].
    destruct kv as [k v]. unfold sset in Hset. simpl in Hset.
    destruct (String.eqb (Font.composition_key axis) k); discriminate Hset.
  - apply collect_math_nothing.
Qed.

(** C10. In a font with distinct glyph names, a glyph that declares no
    variants on an axis is not in that axis's coverage table, whose
    constructions are as many as its glyphs; and whatever the glyph declares
    as composition on that axis, the metadata loop does on it, and on the
    whole font, exactly what it does without: nothing is gathered from it and
    no error is raised for it. *)
Theorem composition_without_variants_ignored `{Externals}
  (font : ufoLib2.Font) (otf otf' : TTFont) (table : MATH) (axis : Font.Axis)
  (g : ufoLib2.Glyph)
  (Hunique : ufoLib2.unique_names font = true)
  (Hfresh : tt_MATH otf = None)
  (Hpp : Font._post_process font otf = Ok otf')
  (Htable : tt_MATH otf' = Some table)
  (Hg : In g (ufoLib2.glyphs font))
  (Hno : sget (Font.variants_key axis) (ufoLib2.math_entries g) = None) :
  ~ In (ufoLib2.name g) (glyphs (Font.table_coverage axis table)) /\
  List.length (Font.table_constructions axis table)
  = List.length (glyphs (Font.table_coverage axis table)) /\
  (forall e acc,
     Font.collect_glyph acc
       (ufoLib2.set_math_entry g (Font.composition_key axis) e)
     = Font.collect_glyph acc g) /\
  (forall e before after,
     ufoLib2.glyphs font = (before ++ g :: after)%list ->
     Font.collect
       (before ++ ufoLib2.set_math_entry g (Font.composition_key axis) e
               :: after)
     = Font.collect (ufoLib2.glyphs font)).
Proof.
  destruct (post_process_MATH _ _ _ _ Hfresh Hpp Htable)
    as (constants & _ & _ & Hbuild).
  destruct (build_MATH_axis _ _ _ axis Hbuild) as (c & Hc & Hax).
  apply axis_constructions_Ok in Hax. destruct Hax as [Hcov Hcons].
  split; [| split; [| split]].
  - intros Hin. apply (buildCoverage_In _ _ _ _ Hcov) in Hin.
    apply sget_In_keys in Hin. apply Hin.
    apply (no_variants_no_entry axis (ufoLib2.glyphs font)); try assumption.
    apply distinct_NoDup. exact Hunique.
  - symmetry. eapply Forall2_length. exact Hcons.
  - intros e acc. apply composition_entry_ignored. exact Hno.
  - intros e before after Hsplit. rewrite Hsplit.
    unfold Font.collect. rewrite !foldM_app. simpl.
    destruct (foldM Font.collect_glyph before Font.nothing_collected)
      as [acc | err]; [| reflexivity].
    simpl. rewrite (composition_entry_ignored axis acc g e Hno). reflexivity.
Qed.

Lemma composition_without_variants_ignored_witness :
  ~ In "integral" ["parenleft"] /\
  forall e acc,
    Font.collect_glyph acc
      (ufoLib2.set_math_entry Samples.integral "GlyphCompositionVertical" e)
    = Font.collect_glyph acc Samples.integral.
Proof.
  pose proof (composition_without_variants_ignored
                (H := Samples.straight_lines)
                Samples.math_font Samples.compiled _ _ Font.Vertical
                Samples.integral eq_refl eq_refl eq_refl eq_refl
                (or_intror (or_intror (or_intror (or_intror (or_intror
                   (or_intror (or_introl eq_refl)))))))
                eq_refl) as (Hout & _ & Hsame & _).
  split; [exact Hout | exact Hsame].
Defined.

(* ================================================================== *)
(** * Further properties of the script *)
(* ================================================================== *)

(** ** Width buckets, continued *)



(** The members of a bucket are the names of the counted glyphs of that
    bucket, in the order of the font; a bucket exists only with a member. *)
Theorem collect_widths_members (gs : list ufoLib2.Glyph) (b : Z) :
  dict_get Z.eqb b (Font.collect_widths gs) =
    match filter (fun g => (Font.counted g
                            && (Font.bucket (ufoLib2.width g) =? b))%bool) gs with
    | [] => None
    | members => Some (map ufoLib2.name members)
    end.
Proof.
  induction gs as [| g gs IH] using rev_ind; [reflexivity |].
  rewrite collect_widths_step, filter_app. simpl.
  destruct (Font.counted g); simpl.
  - destruct (Z.eqb_spec (Font.bucket (ufoLib2.width g)) b) as [Hb | Hb].
    + rewrite Hb, (dict_get_set_same Z.eqb Z.eqb_eq), IH.
      destruct (filter _ gs) as [| m ms]; [reflexivity |].
      simpl. rewrite map_app. reflexivity.
    + rewrite (dict_get_set_other Z.eqb Z.eqb_eq) by congruence.
      rewrite app_nil_r. exact IH.
  - rewrite app_nil_r. exact IH.
Qed.

(** ** What synthesis adds to the font *)

Lemma find_glyph_app (n : string) (gs gs' : list ufoLib2.Glyph) :
  ufoLib2.find_glyph n (gs ++ gs') =
    match ufoLib2.find_glyph n gs with
    | Some g => Some g
    | None => ufoLib2.find_glyph n gs'
    end.
Proof.
  induction gs as [| g gs IH]; simpl; [reflexivity |].
  destruct (String.eqb n (ufoLib2.name g)); [reflexivity | exact IH].
Qed.

Lemma find_glyph_Some (n : string) (gs : list ufoLib2.Glyph) (g : ufoLib2.Glyph) :
  ufoLib2.find_glyph n gs = Some g -> In g gs /\ ufoLib2.name g = n.
Proof.
  induction gs as [| g' gs IH]; simpl; [discriminate |].
  destruct (String.eqb n (ufoLib2.name g')) eqn:E.
  - intros Hg. injection Hg as <-. apply String.eqb_eq in E. auto.
  - intros Hg. destruct (IH Hg). auto.
Qed.

Lemma find_glyph_named (gs : list ufoLib2.Glyph) (n : string) :
  In n (map ufoLib2.name gs) -> ufoLib2.find_glyph n gs <> None.
Proof.
  induction gs as [| g gs IH]; simpl; [intros [] |].
  intros [<- | Hin].
  - rewrite String.eqb_refl. discriminate.
  - destruct (String.eqb n (ufoLib2.name g)); [discriminate | apply IH, Hin].
Qed.

(** A font that differs from [font] by glyphs appended to the layer. *)
Lemma newGlyph_Ok (font font' : ufoLib2.Font) (g : ufoLib2.Glyph) :
  ufoLib2.newGlyph font g = Ok font' ->
  ufoLib2.find_glyph (ufoLib2.name g) (ufoLib2.glyphs font) = None /\
  ufoLib2.glyphs font' = (ufoLib2.glyphs font ++ [g])%list /\
  ufoLib2.glyphOrder font' = ufoLib2.glyphOrder font /\
  ufoLib2.font_lib_math font' = ufoLib2.font_lib_math font /\
  ufoLib2.features_text font' = ufoLib2.features_text font.
Proof.
  unfold ufoLib2.newGlyph, ufoLib2.contains.
  destruct (ufoLib2.find_glyph (ufoLib2.name g) (ufoLib2.glyphs font));
    [discriminate |].
  intros Hn. injection Hn as <-. simpl. auto.
Qed.

Lemma newGlyph_chain (make : Z -> ufoLib2.Glyph) (ws : list Z)
  (font font' : ufoLib2.Font) :
  foldM (fun font w => ufoLib2.newGlyph font (make w)) ws font = Ok font' ->
  ufoLib2.glyphs font' = (ufoLib2.glyphs font ++ map make ws)%list /\
  ufoLib2.glyphOrder font' = ufoLib2.glyphOrder font /\
  ufoLib2.font_lib_math font' = ufoLib2.font_lib_math font /\
  ufoLib2.features_text font' = ufoLib2.features_text font.
Proof.
  revert font. induction ws as [| w ws IH]; simpl; intros font Hfold.
  - injection Hfold as <-. rewrite app_nil_r. auto.
  - destruct (ufoLib2.newGlyph font (make w)) as [font1 |] eqn:Hnew;
      [| discriminate Hfold].
    apply newGlyph_Ok in Hnew. destruct Hnew as (_ & Hg & Ho & Hm & Ht).
    destruct (IH _ Hfold) as (Hg' & Ho' & Hm' & Ht').
    rewrite Hg', Hg, <- app_assoc. simpl. repeat split; congruence.
Qed.

(** The glyphs one call of [_draw_over_under_line] adds: one per bucket, by
    increasing width, each a zero-width mark named after base and width. *)
Lemma draw_over_under_line_Ok `{Externals} (font font' : ufoLib2.Font)
  (name : string) (widths : dict Z (list string)) :
  Font._draw_over_under_line font name widths = Ok font' ->
  exists g bbox,
    ufoLib2.getitem font name = Ok g /\
    getBounds font g = Some bbox /\
    ufoLib2.glyphs font' =
      (ufoLib2.glyphs font
       ++ map (fun w => Font.line_glyph name w (ufoLib2.yMin bbox)
                          (PrimFloat.sub (ufoLib2.yMax bbox)
                                         (ufoLib2.yMin bbox)))
              (sorted (fun w => w) (dict_keys widths)))%list /\
    ufoLib2.glyphOrder font' = ufoLib2.glyphOrder font /\
    ufoLib2.font_lib_math font' = ufoLib2.font_lib_math font /\
    ufoLib2.features_text font' = ufoLib2.features_text font.
Proof.
  unfold Font._draw_over_under_line. intros Hdraw.
  apply bind_Ok in Hdraw. destruct Hdraw as (g & Hg & Hdraw).
  destruct (getBounds font g) as [bbox |] eqn:Hbbox; [| discriminate Hdraw].
  apply newGlyph_chain in Hdraw.
  exists g, bbox. tauto.
Qed.

Lemma draw_all_bases_Ok `{Externals} (bases : list string)
  (widths : dict Z (list string)) (font font' : ufoLib2.Font) :
  foldM (fun font name => Font._draw_over_under_line font name widths)
        bases font = Ok font' ->
  exists added,
    ufoLib2.glyphs font' = (ufoLib2.glyphs font ++ added)%list /\
    map ufoLib2.name added =
      flat_map (fun base => map (fun w => base ++ "." ++ format_d w)
                              (sorted (fun w => w) (dict_keys widths)))
               bases /\
    Forall (fun g => ufoLib2.width g = 0 /\
                     ufoLib2.lib_glyphclass g = Some "mark" /\
                     ufoLib2.lib_math g = None) added /\
    ufoLib2.glyphOrder font' = ufoLib2.glyphOrder font /\
    ufoLib2.font_lib_math font' = ufoLib2.font_lib_math font /\
    ufoLib2.features_text font' = ufoLib2.features_text font.
Proof.
  revert font. induction bases as [| base bases IH]; simpl; intros font Hfold.
  - injection Hfold as <-. exists []. rewrite app_nil_r.
    repeat split; constructor.
  - destruct (Font._draw_over_under_line font base widths) as [font1 |] eqn:Hdraw;
      [| discriminate Hfold].
    apply draw_over_under_line_Ok in Hdraw.
    destruct Hdraw as (g & bbox & _ & _ & Hg & Ho & Hm & Ht).
    destruct (IH _ Hfold) as (added & Hg' & Hnames & Hmarks & Ho' & Hm' & Ht').
    eexists (_ ++ added)%list. split; [| split; [| split]].
    + rewrite Hg', Hg, <- app_assoc. reflexivity.
    + rewrite map_app, map_map, Hnames. reflexivity.
    + apply Forall_app. split; [| exact Hmarks].
      apply Forall_forall. intros g' Hin. apply in_map_iff in Hin.
      destruct Hin as (w & <- & _). simpl. auto.
    + repeat split; congruence.
Qed.

Lemma make_over_under_line_appends `{Externals} (font font' : ufoLib2.Font) :
  Font._make_over_under_line font = Ok font' ->
  ufoLib2.glyphOrder font' = ufoLib2.glyphOrder font /\
  ufoLib2.font_lib_math font' = ufoLib2.font_lib_math font /\
  (exists block,
     ufoLib2.features_text font' = ufoLib2.features_text font ++ block) /\
  exists added,
    ufoLib2.glyphs font' = (ufoLib2.glyphs font ++ added)%list /\
    Forall (fun g => ufoLib2.width g = 0 /\
                     ufoLib2.lib_glyphclass g = Some "mark" /\
                     ufoLib2.lib_math g = None) added /\
    (added = [] \/
     map ufoLib2.name added =
       flat_map (fun base =>
                   map (fun w => base ++ "." ++ format_d w)
                     (sorted (fun w => w)
                        (dict_keys (Font.collect_widths (ufoLib2.glyphs font)))))
                (filter (ufoLib2.contains font) ["uni0305"; "uni0332"])).
Proof.
  unfold Font._make_over_under_line. intros Hmake.
  assert (Hsame : Ok font = Ok font' ->
    ufoLib2.glyphOrder font' = ufoLib2.glyphOrder font /\
    ufoLib2.font_lib_math font' = ufoLib2.font_lib_math font /\
    (exists block,
       ufoLib2.features_text font' = ufoLib2.features_text font ++ block) /\
    exists added,
      ufoLib2.glyphs font' = (ufoLib2.glyphs font ++ added)%list /\
      Forall (fun g => ufoLib2.width g = 0 /\
                       ufoLib2.lib_glyphclass g = Some "mark" /\
                       ufoLib2.lib_math g = None) added /\
      (added = [] \/
       map ufoLib2.name added =
         flat_map (fun base =>
                     map (fun w => base ++ "." ++ format_d w)
                       (sorted (fun w => w)
                          (dict_keys (Font.collect_widths (ufoLib2.glyphs font)))))
                  (filter (ufoLib2.contains font) ["uni0305"; "uni0332"]))).
  { intros Heq. injection Heq as <-. repeat split.
    - exists "". clear. induction (ufoLib2.features_text font) as [| c s IH];
        simpl; [reflexivity | rewrite <- IH; reflexivity].
    - exists []. rewrite app_nil_r. repeat split; [constructor | now left]. }
  destruct (filter (ufoLib2.contains font) ["uni0305"; "uni0332"])
    as [| base bases] eqn:Hbases; [apply Hsame, Hmake |].
  destruct (Nat.eqb _ 1); [apply Hsame, Hmake |].
  clear Hsame.
  apply bind_Ok in Hmake. destruct Hmake as (font1 & Hdraw & Hmake).
  injection Hmake as <-. simpl.
  apply draw_all_bases_Ok in Hdraw.
  destruct Hdraw as (added & Hg & Hnames & Hmarks & Ho & Hm & Ht).
  split; [exact Ho |]. split; [exact Hm |]. split.
  - rewrite Ht. eexists. reflexivity.
  - exists added. split; [exact Hg |]. split; [exact Hmarks |].
    right. exact Hnames.
Qed.

(** Whenever [_make_over_under_line] succeeds, it has only appended: zero
    width marks without mathematical metadata to the layer, and text to the
    features; the glyph order and the font-level constants are as before.
    When it drew anything, the new glyphs are named base.width, base by base
    and by increasing bucket. *)
Theorem synthesis_only_appends `{Externals} (font font' : ufoLib2.Font) :
  Font._make_over_under_line font = Ok font' ->
  ufoLib2.glyphOrder font' = ufoLib2.glyphOrder font /\
  ufoLib2.font_lib_math font' = ufoLib2.font_lib_math font /\
  (exists block,
     ufoLib2.features_text font' = ufoLib2.features_text font ++ block) /\
  exists added,
    ufoLib2.glyphs font' = (ufoLib2.glyphs font ++ added)%list /\
    Forall (fun g => ufoLib2.width g = 0 /\
                     ufoLib2.lib_glyphclass g = Some "mark" /\
                     ufoLib2.lib_math g = None) added /\
    (added = [] \/
     map ufoLib2.name added =
       flat_map (fun base =>
                   map (fun w => base ++ "." ++ format_d w)
                     (sorted (fun w => w)
                        (dict_keys (Font.collect_widths (ufoLib2.glyphs font)))))
                (filter (ufoLib2.contains font) ["uni0305"; "uni0332"])).
Proof.
  intros Hmake.
  destruct (make_over_under_line_appends _ _ Hmake)
    as (Horder & Hconstants & Htext & added & Hglyphs & Hmarks & Hnames).
  split; [exact Horder |]. split; [exact Hconstants |].
  split; [exact Htext |].
  exists added. split; [exact Hglyphs |]. split; [exact Hmarks | exact Hnames].
Qed.

Lemma synthesis_only_appends_witness :
  exists font' added,
    Font._make_over_under_line (H := Samples.straight_lines)
      Samples.two_bucket_font = Ok font' /\
    ufoLib2.glyphs font'
    = (ufoLib2.glyphs Samples.two_bucket_font ++ added)%list /\
    map ufoLib2.name added = ["uni0305.500"; "uni0305.1000"].
Proof.
  destruct (synthesis_only_appends (H := Samples.straight_lines)
              Samples.two_bucket_font _ eq_refl)
    as (_ & _ & _ & added & Hglyphs & _ & [Hnone | Hnames]).
  - exfalso. rewrite Hnone in Hglyphs. vm_compute in Hglyphs.
    discriminate Hglyphs.
  - eexists. exists added. split; [reflexivity |].
    split; [exact Hglyphs | exact Hnames].
Defined.

Lemma collect_widths_app_uncounted (gs added : list ufoLib2.Glyph) :
  Forall (fun g => Font.counted g = false) added ->
  Font.collect_widths (gs ++ added) = Font.collect_widths gs.
Proof.
  induction added as [| g added IH] using rev_ind; intros Hun.
  - rewrite app_nil_r. reflexivity.
  - apply Forall_app in Hun. destruct Hun as [Hadded Hg].
    inversion Hg as [| ? ? Hc _]; subst.
    rewrite app_assoc, collect_widths_step. simpl. rewrite Hc.
    apply IH. exact Hadded.
Qed.

Lemma zero_width_mark_uncounted (g : ufoLib2.Glyph) :
  ufoLib2.width g = 0 /\ ufoLib2.lib_glyphclass g = Some "mark" /\
  ufoLib2.lib_math g = None ->
  Font.counted g = false.
Proof.
  intros (Hw & Hm & _). unfold Font.counted, Font.is_mark.
  rewrite Hm. reflexivity.
Qed.

Lemma make_over_under_line_widths `{Externals} (font font' : ufoLib2.Font) :
  Font._make_over_under_line font = Ok font' ->
  Font.collect_widths (ufoLib2.glyphs font')
  = Font.collect_widths (ufoLib2.glyphs font).
Proof.
  intros Hmake.
  destruct (make_over_under_line_appends _ _ Hmake)
    as (_ & _ & _ & added & Hglyphs & Hmarks & _).
  rewrite Hglyphs. apply collect_widths_app_uncounted.
  eapply Forall_impl; [| exact Hmarks].
  intros g. apply zero_width_mark_uncounted.
Qed.

(** The glyphs synthesis adds never count as members of a width bucket: the
    buckets of the font are the same after synthesis as before. *)
Theorem synthesis_keeps_buckets `{Externals} (font font' : ufoLib2.Font) :
  Font._make_over_under_line font = Ok font' ->
  Font.collect_widths (ufoLib2.glyphs font')
  = Font.collect_widths (ufoLib2.glyphs font).
Proof.
  intros Hmake.
  destruct (make_over_under_line_appends _ _ Hmake)
    as (_ & _ & _ & added & Hglyphs & Hmarks & _).
  rewrite Hglyphs. apply collect_widths_app_uncounted.
  eapply Forall_impl; [| exact Hmarks].
  intros g. apply zero_width_mark_uncounted.
Qed.

Lemma synthesis_keeps_buckets_witness :
  exists font',
    Font._make_over_under_line (H := Samples.straight_lines)
      Samples.two_bucket_font = Ok font' /\
    Font.collect_widths (ufoLib2.glyphs font')
    = Font.collect_widths (ufoLib2.glyphs Samples.two_bucket_font).
Proof.
  eexists. split; [reflexivity |].
  apply (synthesis_keeps_buckets (H := Samples.straight_lines)).
  reflexivity.
Defined.

(** Synthesised glyphs end up with the mark class in GDEF: whatever
    [_make_over_under_line] added to the font, [_post_process] gives class 3. *)
Theorem synthesised_glyphs_classified `{Externals} (font font' : ufoLib2.Font)
  (otf otf' : TTFont) (g : ufoLib2.Glyph)
  (Hmake : Font._make_over_under_line font = Ok font')
  (Hpp : Font._post_process font' otf = Ok otf')
  (Hnew : In g (ufoLib2.glyphs font'))
  (Hold : ~ In g (ufoLib2.glyphs font)) :
  exists gdef classdef,
    tt_GDEF otf' = Some gdef /\
    GlyphClassDef gdef = Some classdef /\
    sget (ufoLib2.name g) classdef = Some 3.
Proof.
  destruct (make_over_under_line_appends _ _ Hmake)
    as (_ & _ & _ & added & Hglyphs & Hmarks & _).
  destruct (post_process_GDEF _ _ _ Hpp) as (gdef & classdef & _ & _ & Hout).
  eexists. eexists. split; [exact Hout |]. split; [reflexivity |].
  apply mark_classes_sets_mark; [exact Hnew |].
  rewrite Hglyphs in Hnew. apply in_app_iff in Hnew.
  destruct Hnew as [Hin | Hin]; [contradiction |].
  rewrite Forall_forall in Hmarks. destruct (Hmarks g Hin) as (_ & Hm & _).
  unfold Font.is_mark. rewrite Hm. reflexivity.
Qed.

Lemma synthesised_glyphs_classified_witness :
  exists gdef classdef,
    tt_GDEF {| tt_GDEF :=
                 Some {| GlyphClassDef :=
                           Some [("x", 1); ("acutecomb", 1);
                                 ("uni0305", 3); ("uni0305.500", 3);
                                 ("uni0305.1000", 3)] |};
               tt_MATH := None |} = Some gdef /\
    GlyphClassDef gdef = Some classdef /\
    sget "uni0305.500" classdef = Some 3.
Proof.
  apply (synthesised_glyphs_classified (H := Samples.straight_lines)
           Samples.two_bucket_font Samples.two_bucket_result
           Samples.compiled _ Samples.overline_500).
  - reflexivity.
  - reflexivity.
  - simpl. do 4 right. left. reflexivity.
  - simpl. intros [Heq | [Heq | [Heq | [Heq | []]]]]; discriminate Heq.
Defined.

Lemma contains_app (font : ufoLib2.Font) (added : list ufoLib2.Glyph)
  (font' : ufoLib2.Font) (n : string) :
  ufoLib2.glyphs font' = (ufoLib2.glyphs font ++ added)%list ->
  ufoLib2.contains font n = true -> ufoLib2.contains font' n = true.
Proof.
  unfold ufoLib2.contains. intros Hg Hn. rewrite Hg, find_glyph_app.
  destruct (ufoLib2.find_glyph n (ufoLib2.glyphs font)); [reflexivity |].
  discriminate Hn.
Qed.

Lemma contains_named (font : ufoLib2.Font) (n : string) :
  In n (map ufoLib2.name (ufoLib2.glyphs font)) ->
  ufoLib2.contains font n = true.
Proof.
  intros Hin. apply find_glyph_named in Hin. unfold ufoLib2.contains.
  destruct (ufoLib2.find_glyph n (ufoLib2.glyphs font)); [reflexivity |].
  now contradiction Hin.
Qed.

Lemma contains_false_app (font : ufoLib2.Font) (added : list ufoLib2.Glyph)
  (font' : ufoLib2.Font) (n : string) :
  ufoLib2.glyphs font' = (ufoLib2.glyphs font ++ added)%list ->
  ufoLib2.contains font n = false ->
  ~ In n (map ufoLib2.name added) ->
  ufoLib2.contains font' n = false.
Proof.
  unfold ufoLib2.contains. intros Hg Hn Hfresh. rewrite Hg, find_glyph_app.
  destruct (ufoLib2.find_glyph n (ufoLib2.glyphs font)); [discriminate Hn |].
  destruct (ufoLib2.find_glyph n added) as [g |] eqn:Hfind; [| reflexivity].
  apply find_glyph_Some in Hfind. destruct Hfind as [Hin <-].
  exfalso. apply Hfresh, in_map, Hin.
Qed.

(** Drawing for a base whose first variant name is taken fails. *)
Lemma draw_over_taken_name `{Externals} (font : ufoLib2.Font) (base : string)
  (widths : dict Z (list string)) (w : Z) (ws : list Z) :
  sorted (fun w => w) (dict_keys widths) = w :: ws ->
  ufoLib2.contains font base = true ->
  ufoLib2.contains font (base ++ "." ++ format_d w) = true ->
  Font._draw_over_under_line font base widths = Raise KeyError \/
  Font._draw_over_under_line font base widths = Raise TypeError.
Proof.
  intros Hws Hbase Htaken. unfold Font._draw_over_under_line, ufoLib2.getitem.
  unfold ufoLib2.contains in Hbase.
  destruct (ufoLib2.find_glyph base (ufoLib2.glyphs font)) as [g |];
    [| discriminate Hbase].
  cbn [bind]. destruct (getBounds font g) as [bbox |]; [| now right].
  rewrite Hws. cbn [foldM].
  assert (Hnew : forall pos height,
            ufoLib2.newGlyph font (Font.line_glyph base w pos height)
            = Raise KeyError).
  { intros pos height. unfold ufoLib2.newGlyph.
    cbn [Font.line_glyph ufoLib2.name]. rewrite Htaken. reflexivity. }
  rewrite Hnew. now left.
Qed.

(** Synthesis cannot be run twice: once it has added glyphs, a second run on
    the result fails, on the name of the first variant, which now exists
    ([KeyError]), or before that on a base glyph without bounds
    ([TypeError]). *)
Theorem synthesis_not_repeatable `{Externals} (font font' : ufoLib2.Font)
  (Hmake : Font._make_over_under_line font = Ok font')
  (Hadded : ufoLib2.glyphs font' <> ufoLib2.glyphs font) :
  Font._make_over_under_line font' = Raise KeyError \/
  Font._make_over_under_line font' = Raise TypeError.
Proof.
  pose proof (make_over_under_line_widths _ _ Hmake) as Hwidths.
  destruct (make_over_under_line_appends _ _ Hmake)
    as (_ & _ & _ & added & Hglyphs & _ & Hnames).
  destruct Hnames as [-> | Hnames];
    [rewrite app_nil_r in Hglyphs; contradiction |].
  unfold Font._make_over_under_line in Hmake |- *.
  rewrite Hwidths.
  set (widths := Font.collect_widths (ufoLib2.glyphs font)) in *.
  destruct (filter (ufoLib2.contains font) ["uni0305"; "uni0332"])
    as [| base bases] eqn:Hbases.
  { injection Hmake as <-. now contradiction Hadded. }
  destruct (Nat.eqb (List.length widths) 1).
  { injection Hmake as <-. now contradiction Hadded. }
  destruct (sorted (fun w => w) (dict_keys widths)) as [| w ws] eqn:Hws.
  { exfalso. apply Hadded. rewrite Hglyphs.
    assert (Hnil : map ufoLib2.name added = []).
    { rewrite Hnames. clear. induction (base :: bases) as [| b bs IH];
        [reflexivity | exact IH]. }
    destruct added; [apply app_nil_r | discriminate Hnil]. }
  assert (Hfirst : In (base ++ "." ++ format_d w)
                      (map ufoLib2.name (ufoLib2.glyphs font'))).
  { rewrite Hglyphs, map_app, Hnames. apply in_or_app. right.
    simpl. now left. }
  apply contains_named in Hfirst.
  assert (Hbases' : exists bases',
            filter (ufoLib2.contains font') ["uni0305"; "uni0332"]
            = base :: bases').
  { simpl in Hbases |- *.
    destruct (ufoLib2.contains font "uni0305") eqn:Hover.
    - injection Hbases as <- _.
      rewrite (contains_app _ _ _ _ Hglyphs Hover). eexists. reflexivity.
    - destruct (ufoLib2.contains font "uni0332") eqn:Hunder;
        [| discriminate Hbases].
      injection Hbases as <- <-.
      rewrite (contains_false_app _ _ _ _ Hglyphs Hover).
      + rewrite (contains_app _ _ _ _ Hglyphs Hunder). eexists. reflexivity.
      + rewrite Hnames. simpl. rewrite app_nil_r.
        intros [Heq | Hin]; [discriminate Heq |].
        apply in_map_iff in Hin.
        destruct Hin as (w' & Heq & _). discriminate Heq. }
  destruct Hbases' as (bases' & ->).
  assert (Hbase : ufoLib2.contains font' base = true).
  { apply (contains_app _ _ _ _ Hglyphs).
    assert (Hin : In base (filter (ufoLib2.contains font) ["uni0305"; "uni0332"]))
      by (rewrite Hbases; now left).
    apply filter_In in Hin. apply Hin. }
  simpl.
  destruct (draw_over_taken_name font' base widths w ws Hws Hbase Hfirst)
    as [-> | ->]; [now left | now right].
Qed.

Lemma synthesis_not_repeatable_witness :
  Font._make_over_under_line (H := Samples.straight_lines)
    Samples.two_bucket_result = Raise KeyError \/
  Font._make_over_under_line (H := Samples.straight_lines)
    Samples.two_bucket_result = Raise TypeError.
Proof.
  apply (synthesis_not_repeatable (H := Samples.straight_lines)
           Samples.two_bucket_font Samples.two_bucket_result).
  - reflexivity.
  - intros Heq. vm_compute in Heq. discriminate Heq.
Defined.

(** Without a glyph that counts towards a bucket, synthesis draws nothing.
    If no base glyph exists the font is returned as it is; otherwise, the
    bases that exist having bounds, the feature text still gains a mark
    feature: the filtering set and no substitution rule. *)
Theorem synthesis_without_buckets `{Externals} (font : ufoLib2.Font)
  (Hnone : forall g, In g (ufoLib2.glyphs font) -> Font.counted g = false)
  (Hbounds : forall base g,
               In base (filter (ufoLib2.contains font) ["uni0305"; "uni0332"]) ->
               ufoLib2.getitem font base = Ok g ->
               getBounds font g <> None) :
  Font._make_over_under_line font =
    match filter (ufoLib2.contains font) ["uni0305"; "uni0332"] with
    | [] => Ok font
    | bases =>
        Ok (ufoLib2.with_features_text font
              (ufoLib2.features_text font
               ++ join (String "010" "")
                    ["feature mark {";
                     "  @OverSet = [" ++ join " " bases ++ "];";
                     "  lookupflag UseMarkFilteringSet @OverSet;";
                     "} mark;"]))
    end.
Proof.
  unfold Font._make_over_under_line.
  assert (Hwidths : Font.collect_widths (ufoLib2.glyphs font) = []).
  { apply (collect_widths_app_uncounted []), Forall_forall, Hnone. }
  rewrite Hwidths.
  set (present := filter (ufoLib2.contains font) ["uni0305"; "uni0332"]) in *.
  assert (Hdraw : forall names,
            Forall (fun n => In n present) names ->
            foldM (fun font name => Font._draw_over_under_line font name [])
                  names font = Ok font).
  { induction 1 as [| n names Hn _ IH]; [reflexivity |].
    cbn [foldM]. unfold Font._draw_over_under_line at 1.
    unfold ufoLib2.getitem.
    assert (Hin : ufoLib2.contains font n = true)
      by (apply filter_In in Hn; apply Hn).
    unfold ufoLib2.contains in Hin.
    destruct (ufoLib2.find_glyph n (ufoLib2.glyphs font)) as [g |] eqn:Hg;
      [| discriminate Hin].
    cbn [bind].
    destruct (getBounds font g) as [bbox |] eqn:Hb.
    - cbn. exact IH.
    - exfalso. apply (Hbounds n g Hn); [| exact Hb].
      unfold ufoLib2.getitem. rewrite Hg. reflexivity. }
  specialize (Hdraw present (proj2 (Forall_forall _ _) (fun n Hn => Hn))).
  destruct present as [| base bases]; [reflexivity |].
  cbn [List.length Nat.eqb]. rewrite Hdraw. reflexivity.
Qed.

Lemma synthesis_without_buckets_witness :
  Font._make_over_under_line (H := Samples.straight_lines)
    Samples.overline_only_font
  = Ok (ufoLib2.with_features_text Samples.overline_only_font
          (join (String "010" "")
             ["feature mark {";
              "  @OverSet = [uni0305];";
              "  lookupflag UseMarkFilteringSet @OverSet;";
              "} mark;"])).
Proof.
  apply (synthesis_without_buckets (H := Samples.straight_lines)
           Samples.overline_only_font).
  - intros g [<- | []]. reflexivity.
  - intros base g [<- | []] Hg. injection Hg as <-. discriminate.
Defined.

(** ** GDEF classes and constants, continued *)

Lemma mark_classes_other (gs : list ufoLib2.Glyph) (classdef : sdict Z)
  (n : string) :
  (forall g, In g gs -> ufoLib2.name g = n -> Font.is_mark g = false) ->
  sget n (Font.mark_classes gs classdef) = sget n classdef.
Proof.
  unfold Font.mark_classes. revert classdef.
  induction gs as [| g gs IH]; simpl; intros classdef Hn; [reflexivity |].
  rewrite IH by (intros g' Hg'; apply Hn; now right).
  destruct (Font.is_mark g) eqn:Hmark; [| reflexivity].
  apply sget_sset_other. intros Heq.
  rewrite (Hn g (or_introl eq_refl) (eq_sym Heq)) in Hmark. discriminate Hmark.
Qed.

(** [_post_process] changes no class but those of mark glyphs: a name that
    no mark glyph bears keeps the class, or the absence of a class, it had
    in the compiled GDEF. *)
Theorem other_classes_untouched `{Externals} (font : ufoLib2.Font)
  (otf otf' : TTFont) (n : string)
  (Hpp : Font._post_process font otf = Ok otf')
  (Hn : forall g, In g (ufoLib2.glyphs font) -> ufoLib2.name g = n ->
                  Font.is_mark g = false) :
  exists gdef classdef gdef' classdef',
    tt_GDEF otf = Some gdef /\ GlyphClassDef gdef = Some classdef /\
    tt_GDEF otf' = Some gdef' /\ GlyphClassDef gdef' = Some classdef' /\
    sget n classdef' = sget n classdef.
Proof.
  destruct (post_process_GDEF _ _ _ Hpp) as (gdef & classdef & Hg & Hc & Hout).
  exists gdef, classdef. eexists. eexists.
  split; [exact Hg |]. split; [exact Hc |]. split; [exact Hout |].
  split; [reflexivity |]. apply mark_classes_other. exact Hn.
Qed.

Lemma other_classes_untouched_witness :
  exists gdef classdef gdef' classdef',
    tt_GDEF Samples.compiled = Some gdef /\
    GlyphClassDef gdef = Some classdef /\
    tt_GDEF {| tt_GDEF := Some {| GlyphClassDef :=
                                    Some [("x", 1); ("acutecomb", 3)] |};
               tt_MATH := None |} = Some gdef' /\
    GlyphClassDef gdef' = Some classdef' /\
    sget "x" classdef' = sget "x" classdef.
Proof.
  apply (other_classes_untouched (H := Samples.straight_lines)
           Samples.text_font Samples.compiled _ "x"); [reflexivity |].
  intros g Hin Hname. simpl in Hin.
  repeat (destruct Hin as [<- | Hin]; [first [reflexivity | discriminate Hname] |]).
  destruct Hin.
Defined.

(** With font-level constants, post-processing cannot succeed unless
    [MinConnectorOverlap] is among them. *)
Theorem connector_overlap_required `{Externals} (font : ufoLib2.Font)
  (otf otf' : TTFont) (constants : sdict Z)
  (Hconstants : ufoLib2.font_lib_math font = Some constants)
  (Hsome : constants <> [])
  (Hpp : Font._post_process font otf = Ok otf') :
  exists overlap, sget "MinConnectorOverlap" constants = Some overlap.
Proof.
  destruct (post_process_with_constants _ _ _ _ Hconstants Hsome Hpp)
    as (table & Hbuild & _).
  destruct (build_MATH_Ok _ _ _ Hbuild) as (_ & _ & _ & _ & _ & _ & Hov & _).
  eexists. exact Hov.
Qed.

Lemma connector_overlap_required_witness :
  exists overlap, sget "MinConnectorOverlap" Samples.math_constants = Some overlap.
Proof.
  apply (connector_overlap_required (H := Samples.straight_lines)
           Samples.math_font Samples.compiled _ Samples.math_constants
           eq_refl ltac:(discriminate) eq_refl).
Defined.

(** The MathConstants block holds no attribute of its own making: its
    attributes are the constants of the font other than
    [MinConnectorOverlap]. *)
Theorem math_constants_attributes `{Externals} (font : ufoLib2.Font)
  (otf otf' : TTFont) (table : MATH) (constants : sdict Z) (c : string)
  (Hfresh : tt_MATH otf = None)
  (Hpp : Font._post_process font otf = Ok otf')
  (Htable : tt_MATH otf' = Some table)
  (Hconstants : ufoLib2.font_lib_math font = Some constants) :
  In c (dict_keys (math_MathConstants table)) <->
  In c (dict_keys constants) /\ c <> "MinConnectorOverlap".
Proof.
  destruct (post_process_MATH _ _ _ _ Hfresh Hpp Htable)
    as (constants' & Hconstants' & _ & Hbuild).
  assert (constants' = constants) by congruence. subst constants'.
  destruct (build_MATH_Ok _ _ _ Hbuild) as (_ & _ & Hattrs & _).
  unfold Font.math_constants in Hattrs.
  destruct (math_constants_loop _ _ _ _ Hattrs c) as [Hin Hout].
  rewrite sget_In_keys. split.
  - intros Hc.
    destruct (in_dec string_dec c (dict_keys constants)) as [Hk | Hk].
    + split; [exact Hk |]. intros Heq. apply Hc, Hout. now right.
    + exfalso. apply Hc, Hout. now left.
  - intros [Hk Hne]. destruct (Hin Hk Hne) as (v & _ & Hv). congruence.
Qed.

Lemma math_constants_attributes_witness :
  In "AxisHeight" (dict_keys [("ScriptPercentScaleDown", Scalar 70);
                              ("AxisHeight", Record_ {| Value := 250 |})]) <->
  In "AxisHeight" (dict_keys Samples.math_constants)
  /\ "AxisHeight" <> "MinConnectorOverlap".
Proof.
  apply (math_constants_attributes (H := Samples.straight_lines)
           Samples.math_font Samples.compiled _ _ Samples.math_constants
           "AxisHeight" eq_refl eq_refl eq_refl eq_refl).
Defined.

(** ** Coverage tables and the metadata they come from *)

Lemma buildCoverage_In_iff (names : list string) (glyphMap : sdict Z)
  (coverage : Coverage) (n : string) :
  otl.buildCoverage names glyphMap = Ok (Some coverage) ->
  In n (glyphs coverage) <-> In n names.
Proof.
  intros Hb. split; [apply (buildCoverage_In _ _ _ _ Hb) |].
  intros Hin.
  destruct (buildCoverage_Some _ _ _ Hb) as (keyed & Hnames & _ & Hglyphs).
  rewrite Hglyphs.
  apply (Permutation_in _
           (Permutation_sym (Permutation_map snd (sorted_Permutation fst keyed)))).
  rewrite Hnames. apply set_of_spec. exact Hin.
Qed.

Lemma buildCoverage_None (names : list string) (glyphMap : sdict Z) :
  otl.buildCoverage names glyphMap = Ok None -> names = [].
Proof.
  unfold otl.buildCoverage. destruct names as [| n names]; [reflexivity |].
  intros Hb. apply bind_Ok in Hb. destruct Hb as (keyed & _ & Hb).
  discriminate Hb.
Qed.

Lemma build_MATH_values `{Externals} (font : ufoLib2.Font) (constants : sdict Z)
  (table : MATH) (t : Font.ValueTable) :
  Font.build_MATH font constants = Ok table ->
  exists c,
    Font.collect (ufoLib2.glyphs font) = Ok c /\
    Font.covered_values (Font.values_of t c)
      (otl.make_glyphMap (ufoLib2.glyphOrder font))
    = Ok (Font.value_coverage t table, Font.value_records t table).
Proof.
  intros Hbuild.
  destruct (build_MATH_Ok _ _ _ Hbuild) as (c & Hc & _ & Hic & Hac & _).
  exists c. split; [exact Hc |]. destruct t; assumption.
Qed.

Lemma collect_value_Ok (n : string) (math : sdict ufoLib2.MathEntry)
  (key : string) (d d' : sdict MathValueRecord) :
  Font.collect_value n math key d = Ok d' ->
  (forall k, k <> n -> sget k d' = sget k d) /\
  match sget key math with
  | None => d' = d
  | Some e =>
      exists z, e = ufoLib2.MathNumber z /\ sget n d' = Some {| Value := z |}
  end.
Proof.
  unfold Font.collect_value, Font.read, sin, dict_in, sgetitem, getitem, sget.
  intros Hv.
  destruct (dict_get String.eqb key math) as [e |].
  - simpl in Hv. destruct e as [z | b | vs | ps]; simpl in Hv;
      try discriminate Hv.
    injection Hv as <-. split.
    + intros k Hk. apply sget_sset_other. exact Hk.
    + exists z. split; [reflexivity | apply sget_sset_same].
  - injection Hv as <-. split; [intros k _ |]; reflexivity.
Qed.

Lemma collect_glyph_value (acc acc' : Font.Collected) (g : ufoLib2.Glyph)
  (t : Font.ValueTable) :
  Font.collect_glyph acc g = Ok acc' ->
  Font.collect_value (ufoLib2.name g) (ufoLib2.math_entries g)
    (Font.value_key t) (Font.values_of t acc)
  = Ok (Font.values_of t acc').
Proof.
  unfold Font.collect_glyph, ufoLib2.math_entries. intros Hg.
  destruct (ufoLib2.lib_math g) as [[| kv math] |].
  - injection Hg as <-. reflexivity.
  - unfold Font.collect_math in Hg.
    apply bind_Ok in Hg. destruct Hg as (italic & Hi & Hg).
    apply bind_Ok in Hg. destruct Hg as (accent & Ha & Hg).
    apply bind_Ok in Hg. destruct Hg as ([vv vc] & _ & Hg).
    apply bind_Ok in Hg. destruct Hg as ([hv hc] & _ & Hg).
    injection Hg as <-. destruct t; simpl; assumption.
  - injection Hg as <-. reflexivity.
Qed.

(** The values gathered for a table, glyph by glyph, in a font with distinct
    glyph names. *)
Lemma collect_value_entries (t : Font.ValueTable) (gs : list ufoLib2.Glyph)
  (acc c : Font.Collected) :
  NoDup (map ufoLib2.name gs) ->
  foldM Font.collect_glyph gs acc = Ok c ->
  (forall n, ~ In n (map ufoLib2.name gs) ->
             sget n (Font.values_of t c) = sget n (Font.values_of t acc)) /\
  (forall g, In g gs ->
     match sget (Font.value_key t) (ufoLib2.math_entries g) with
     | None =>
         sget (ufoLib2.name g) (Font.values_of t c)
         = sget (ufoLib2.name g) (Font.values_of t acc)
     | Some e =>
         exists z, e = ufoLib2.MathNumber z /\
           sget (ufoLib2.name g) (Font.values_of t c) = Some {| Value := z |}
     end).
Proof.
  revert acc. induction gs as [| g0 gs IH]; simpl; intros acc Hnd Hfold.
  - injection Hfold as <-. split; [intros n _; reflexivity | intros g []].
  - destruct (Font.collect_glyph acc g0) as [acc1 | e] eqn:Hstep;
      [| discriminate Hfold].
    inversion Hnd as [| ? ? Hfresh Hnd']; subst.
    destruct (IH acc1 Hnd' Hfold) as [Hout Hin].
    apply (collect_glyph_value _ _ _ t) in Hstep.
    apply collect_value_Ok in Hstep. destruct Hstep as [Hother Hself].
    split.
    + intros n Hn. rewrite Hout by tauto. apply Hother.
      intros ->. tauto.
    + intros g [<- | Hg].
      * rewrite (Hout (ufoLib2.name g0) Hfresh).
        destruct (sget (Font.value_key t) (ufoLib2.math_entries g0)) as [e |].
        -- exact Hself.
        -- rewrite Hself. reflexivity.
      * assert (Hne : ufoLib2.name g <> ufoLib2.name g0).
        { intros Heq. apply Hfresh. rewrite <- Heq. apply in_map. exact Hg. }
        specialize (Hin g Hg).
        destruct (sget (Font.value_key t) (ufoLib2.math_entries g)) as [e |].
        -- exact Hin.
        -- rewrite Hin. apply Hother. exact Hne.
Qed.

Lemma value_table_entries `{Externals} (font : ufoLib2.Font)
  (otf otf' : TTFont) (table : MATH) (t : Font.ValueTable)
  (Hunique : ufoLib2.unique_names font = true)
  (Hfresh : tt_MATH otf = None)
  (Hpp : Font._post_process font otf = Ok otf')
  (Htable : tt_MATH otf' = Some table) :
  List.length (Font.value_records t table)
  = List.length (glyphs (Font.value_coverage t table)) /\
  (forall i n v,
     nth_error (glyphs (Font.value_coverage t table)) i = Some n ->
     nth_error (Font.value_records t table) i = Some v ->
     exists g, In g (ufoLib2.glyphs font) /\ ufoLib2.name g = n /\
               sget (Font.value_key t) (ufoLib2.math_entries g)
               = Some (ufoLib2.MathNumber (Value v))) /\
  (forall g, In g (ufoLib2.glyphs font) ->
             sget (Font.value_key t) (ufoLib2.math_entries g) <> None ->
             In (ufoLib2.name g) (glyphs (Font.value_coverage t table))).
Proof.
  destruct (post_process_MATH _ _ _ _ Hfresh Hpp Htable)
    as (constants & _ & _ & Hbuild).
  destruct (build_MATH_values _ _ _ t Hbuild) as (c & Hc & Hcv).
  apply covered_values_Ok in Hcv. destruct Hcv as [Hcov Hvals].
  apply distinct_NoDup in Hunique.
  destruct (collect_value_entries t _ _ _ Hunique Hc) as [Hout Hin].
  split; [| split].
  - symmetry. eapply Forall2_length. exact Hvals.
  - intros i n v Hn Hv.
    pose proof (Forall2_nth_error _ _ _ _ _ _ Hvals Hn Hv) as Hget.
    cbv beta in Hget.
    destruct (in_dec string_dec n (map ufoLib2.name (ufoLib2.glyphs font)))
      as [Hnamed | Hnot].
    + apply in_map_iff in Hnamed. destruct Hnamed as (g & <- & Hg).
      exists g. split; [exact Hg |]. split; [reflexivity |].
      specialize (Hin g Hg).
      destruct (sget (Font.value_key t) (ufoLib2.math_entries g)) as [e |].
      * destruct Hin as (z & -> & Hz). rewrite Hget in Hz.
        injection Hz as ->. reflexivity.
      * rewrite Hget in Hin. destruct t; discriminate Hin.
    + rewrite (Hout n Hnot) in Hget. destruct t; discriminate Hget.
  - intros g Hg Hdeclared.
    apply (buildCoverage_In_iff _ _ _ _ Hcov), sget_In_keys.
    specialize (Hin g Hg).
    destruct (sget (Font.value_key t) (ufoLib2.math_entries g)) as [e |];
      [| now contradiction Hdeclared].
    destruct Hin as (z & _ & Hz). congruence.
Qed.

(** The italics-correction and top-accent tables follow the metadata.  In a
    font with distinct glyph names, the value array of either table is as
    long as its coverage; the i-th covered name is a glyph of the font that
    declares the table's key, and the i-th value record holds the declared
    number; and every glyph that declares the key is covered. *)
Theorem value_tables_follow_metadata `{Externals} (font : ufoLib2.Font)
  (otf otf' : TTFont) (table : MATH) (t : Font.ValueTable)
  (Hunique : ufoLib2.unique_names font = true)
  (Hfresh : tt_MATH otf = None)
  (Hpp : Font._post_process font otf = Ok otf')
  (Htable : tt_MATH otf' = Some table) :
  List.length (Font.value_records t table)
  = List.length (glyphs (Font.value_coverage t table)) /\
  (forall i n v,
     nth_error (glyphs (Font.value_coverage t table)) i = Some n ->
     nth_error (Font.value_records t table) i = Some v ->
     exists g, In g (ufoLib2.glyphs font) /\ ufoLib2.name g = n /\
               sget (Font.value_key t) (ufoLib2.math_entries g)
               = Some (ufoLib2.MathNumber (Value v))) /\
  (forall g, In g (ufoLib2.glyphs font) ->
             sget (Font.value_key t) (ufoLib2.math_entries g) <> None ->
             In (ufoLib2.name g) (glyphs (Font.value_coverage t table))).
Proof.
  destruct (value_table_entries _ _ _ _ t Hunique Hfresh Hpp Htable)
    as (Hlength & Hvalues & Hcovered).
  split; [exact Hlength |]. split.
  - intros i n v Hn Hv. apply (Hvalues i n v Hn Hv).
  - intros g Hg Hdeclared. apply (Hcovered g Hg Hdeclared).
Qed.

Lemma value_tables_follow_metadata_witness :
  exists g, In g (ufoLib2.glyphs Samples.math_font) /\ ufoLib2.name g = "y" /\
            sget "ItalicCorrection" (ufoLib2.math_entries g)
            = Some (ufoLib2.MathNumber 7).
Proof.
  destruct (value_tables_follow_metadata (H := Samples.straight_lines)
              Samples.math_font Samples.compiled _ _
              Font.ItalicsCorrectionTable eq_refl eq_refl eq_refl eq_refl)
    as (_ & Hvalues & _).
  exact (Hvalues 0%nat "y" {| Value := 7 |} eq_refl eq_refl).
Defined.

Lemma collect_glyph_extended (acc acc' : Font.Collected) (g : ufoLib2.Glyph)
  (n : string) :
  Font.collect_glyph acc g = Ok acc' ->
  In n (Font.extended acc') <->
  In n (Font.extended acc) \/
  (ufoLib2.name g = n /\ sin "IsExtendedShape" (ufoLib2.math_entries g) = true).
Proof.
  unfold Font.collect_glyph, ufoLib2.math_entries. intros Hg.
  destruct (ufoLib2.lib_math g) as [[| kv math] |].
  - injection Hg as <-. simpl. split; [tauto | intros [Hin | [_ Hf]]]; 
      [exact Hin | discriminate Hf].
  - unfold Font.collect_math in Hg.
    apply bind_Ok in Hg. destruct Hg as (italic & _ & Hg).
    apply bind_Ok in Hg. destruct Hg as (accent & _ & Hg).
    apply bind_Ok in Hg. destruct Hg as ([vv vc] & _ & Hg).
    apply bind_Ok in Hg. destruct Hg as ([hv hc] & _ & Hg).
    injection Hg as <-. cbn [Font.extended].
    destruct (sin "IsExtendedShape" (kv :: math)).
    + rewrite set_add_In. split.
      * intros [Hin | Heq]; [now left |].
        right. split; [now symmetry | reflexivity].
      * intros [Hin | [Heq _]]; [now left | right; now symmetry].
    + split; [tauto | intros [Hin | [_ Hf]]]; [exact Hin | discriminate Hf].
  - injection Hg as <-. simpl. split; [tauto | intros [Hin | [_ Hf]]];
      [exact Hin | discriminate Hf].
Qed.

Lemma collect_extended (gs : list ufoLib2.Glyph) (acc c : Font.Collected)
  (n : string) :
  foldM Font.collect_glyph gs acc = Ok c ->
  In n (Font.extended c) <->
  In n (Font.extended acc) \/
  exists g, In g gs /\ ufoLib2.name g = n /\
            sin "IsExtendedShape" (ufoLib2.math_entries g) = true.
Proof.
  revert acc. induction gs as [| g0 gs IH]; simpl; intros acc Hfold.
  - injection Hfold as <-. split; [tauto | intros [Hin | (g & [] & _)]].
    exact Hin.
  - destruct (Font.collect_glyph acc g0) as [acc1 | e] eqn:Hstep;
      [| discriminate Hfold].
    rewrite (IH _ Hfold), (collect_glyph_extended _ _ _ n Hstep). split.
    + intros [[Hin | [Hname Hext]] | (g & Hg & Hname & Hext)].
      * now left.
      * right. exists g0. auto.
      * right. exists g. auto.
    + intros [Hin | (g & [<- | Hg] & Hname & Hext)].
      * left. now left.
      * left. right. auto.
      * right. exists g. auto.
Qed.

Lemma buildCoverage_nonempty (names : list string) (glyphMap : sdict Z)
  (coverage : Coverage) :
  otl.buildCoverage names glyphMap = Ok (Some coverage) ->
  glyphs coverage <> [].
Proof.
  intros Hb Hnil. destruct names as [| n names]; [discriminate Hb |].
  assert (Hin : In n (glyphs coverage))
    by (apply (buildCoverage_In_iff _ _ _ _ Hb); now left).
  rewrite Hnil in Hin. destruct Hin.
Qed.

(** The extended-shape coverage is [None] exactly when no glyph of the font
    has the key [IsExtendedShape] in its metadata; otherwise it is a coverage
    table that lists exactly the names of the glyphs that have the key. *)
Theorem extended_shape_coverage `{Externals} (font : ufoLib2.Font)
  (otf otf' : TTFont) (table : MATH)
  (Hfresh : tt_MATH otf = None)
  (Hpp : Font._post_process font otf = Ok otf')
  (Htable : tt_MATH otf' = Some table) :
  (ExtendedShapeCoverage (math_MathGlyphInfo table) = None <->
   forall g, In g (ufoLib2.glyphs font) ->
             sin "IsExtendedShape" (ufoLib2.math_entries g) = false) /\
  (forall coverage,
     ExtendedShapeCoverage (math_MathGlyphInfo table) = Some coverage ->
     forall n, In n (glyphs coverage) <->
               exists g, In g (ufoLib2.glyphs font) /\ ufoLib2.name g = n /\
                         sin "IsExtendedShape" (ufoLib2.math_entries g) = true).
Proof.
  destruct (post_process_MATH _ _ _ _ Hfresh Hpp Htable)
    as (constants & _ & _ & Hbuild).
  destruct (build_MATH_Ok _ _ _ Hbuild) as (c & Hc & _ & _ & _ & Hext & _).
  unfold Font.collect in Hc.
  assert (Hlisted : forall coverage,
            ExtendedShapeCoverage (math_MathGlyphInfo table) = Some coverage ->
            forall n, In n (glyphs coverage) <->
                      exists g, In g (ufoLib2.glyphs font) /\
                                ufoLib2.name g = n /\
                                sin "IsExtendedShape" (ufoLib2.math_entries g)
                                = true).
  { intros coverage Hsome n. rewrite Hsome in Hext.
    rewrite (buildCoverage_In_iff _ _ _ n Hext).
    rewrite (collect_extended _ _ _ n Hc). simpl. tauto. }
  split; [| exact Hlisted].
  destruct (ExtendedShapeCoverage (math_MathGlyphInfo table))
    as [coverage |] eqn:Hcoverage.
  - split; [discriminate |]. intros Hnone. exfalso.
    pose proof (buildCoverage_nonempty _ _ _ Hext) as Hne.
    destruct (glyphs coverage) as [| n ns] eqn:Hglyphs; [now apply Hne |].
    assert (Hin : In n (glyphs coverage)) by (rewrite Hglyphs; now left).
    apply (Hlisted coverage eq_refl) in Hin.
    destruct Hin as (g & Hg & _ & Hkey).
    rewrite (Hnone g Hg) in Hkey. discriminate Hkey.
  - split; [| reflexivity]. intros _.
    apply buildCoverage_None in Hext. intros g Hg.
    destruct (sin "IsExtendedShape" (ufoLib2.math_entries g)) eqn:Hs;
      [| reflexivity].
    exfalso.
    assert (Hin : In (ufoLib2.name g) (Font.extended c)).
    { apply (collect_extended _ _ _ _ Hc). right. exists g. auto. }
    rewrite Hext in Hin. destruct Hin.
Qed.

Lemma extended_shape_coverage_witness :
  In "y" ["y"] <->
  exists g, In g (ufoLib2.glyphs Samples.math_font) /\
            ufoLib2.name g = "y" /\
            sin "IsExtendedShape" (ufoLib2.math_entries g) = true.
Proof.
  exact (proj2 (extended_shape_coverage (H := Samples.straight_lines)
                  Samples.math_font Samples.compiled _ _
                  eq_refl eq_refl eq_refl)
           {| glyphs := ["y"] |} eq_refl "y").
Defined.

Lemma construction_entries `{Externals} (font : ufoLib2.Font)
  (otf otf' : TTFont) (table : MATH) (axis : Font.Axis)
  (Hunique : ufoLib2.unique_names font = true)
  (Hfresh : tt_MATH otf = None)
  (Hpp : Font._post_process font otf = Ok otf')
  (Htable : tt_MATH otf' = Some table) :
  (forall g, In g (ufoLib2.glyphs font) ->
     (In (ufoLib2.name g) (glyphs (Font.table_coverage axis table)) <->
      sget (Font.variants_key axis) (ufoLib2.math_entries g) <> None)) /\
  (forall i n construction,
     nth_error (glyphs (Font.table_coverage axis table)) i = Some n ->
     nth_error (Font.table_constructions axis table) i = Some construction ->
     exists g variants,
       In g (ufoLib2.glyphs font) /\ ufoLib2.name g = n /\
       sget (Font.variants_key axis) (ufoLib2.math_entries g)
       = Some (ufoLib2.MathVariantList variants) /\
       map VariantGlyph (con_MathGlyphVariantRecord construction) = variants /\
       VariantCount construction = List.length variants /\
       (sget (Font.composition_key axis) (ufoLib2.math_entries g) = None ->
        con_GlyphAssembly construction = None)).
Proof.
  destruct (post_process_MATH _ _ _ _ Hfresh Hpp Htable)
    as (constants & _ & _ & Hbuild).
  destruct (build_MATH_axis _ _ _ axis Hbuild) as (c & Hc & Hax).
  apply axis_constructions_Ok in Hax. destruct Hax as [Hcov Hcons].
  apply distinct_NoDup in Hunique.
  destruct (collect_axis_entries axis _ _ _ Hunique Hc) as [Hout Hin].
  assert (Hnothing : forall n, sget n (Font.vars_of axis Font.nothing_collected)
                               = None /\
                               sget n (Font.comp_of axis Font.nothing_collected)
                               = None)
    by (intros n; destruct axis; split; reflexivity).
  split.
  - intros g Hg. rewrite (buildCoverage_In_iff _ _ _ _ Hcov), sget_In_keys.
    specialize (Hin g Hg).
    destruct (sget (Font.variants_key axis) (ufoLib2.math_entries g)) as [e |].
    + destruct Hin as (vs & _ & Hvs & _). rewrite Hvs.
      split; intros _; discriminate.
    + destruct Hin as [Hv _]. rewrite Hv, (proj1 (Hnothing _)). tauto.
  - intros i n construction Hn Hcon.
    pose proof (Forall2_nth_error _ _ _ _ _ _ Hcons Hn Hcon) as Hbuilt.
    apply glyph_construction_Ok in Hbuilt.
    destruct Hbuilt as (variants & Hvariants & Hcount & Hrecords & Hassembly).
    destruct (in_dec string_dec n (map ufoLib2.name (ufoLib2.glyphs font)))
      as [Hnamed | Hnot].
    + apply in_map_iff in Hnamed. destruct Hnamed as (g & <- & Hg).
      specialize (Hin g Hg).
      destruct (sget (Font.variants_key axis) (ufoLib2.math_entries g))
        as [e |] eqn:Hdeclared.
      * destruct Hin as (vs & -> & Hvs & Hcomp).
        assert (vs = variants) by congruence. subst vs.
        exists g, variants.
        split; [exact Hg |]. split; [reflexivity |].
        split; [exact Hdeclared |]. split; [| split; [exact Hcount |]].
        -- clear - Hrecords.
           induction Hrecords as [| v r vs rs Hvr _ IH]; [reflexivity |].
           simpl. rewrite IH. apply variant_record_Ok in Hvr.
           destruct Hvr as (g' & bbox & _ & _ & -> & _). reflexivity.
        -- intros Hnone. rewrite Hnone in Hcomp.
           rewrite Hcomp, (proj2 (Hnothing _)) in Hassembly. exact Hassembly.
      * destruct Hin as [Hv _].
        rewrite Hv, (proj1 (Hnothing _)) in Hvariants. discriminate Hvariants.
    + destruct (Hout n Hnot) as [Hv _].
      rewrite Hv, (proj1 (Hnothing _)) in Hvariants. discriminate Hvariants.
Qed.

(** The constructions follow the metadata.  In a font with distinct glyph
    names, a glyph is in the coverage of an axis exactly when it declares
    variants on that axis; the i-th construction belongs to the glyph with the
    i-th covered name, its variant records name the declared variants in the
    declared order, [VariantCount] is their number, and it has no assembly
    when the glyph declares no composition on the axis. *)
Theorem constructions_follow_metadata `{Externals} (font : ufoLib2.Font)
  (otf otf' : TTFont) (table : MATH) (axis : Font.Axis)
  (Hunique : ufoLib2.unique_names font = true)
  (Hfresh : tt_MATH otf = None)
  (Hpp : Font._post_process font otf = Ok otf')
  (Htable : tt_MATH otf' = Some table) :
  (forall g, In g (ufoLib2.glyphs font) ->
     (In (ufoLib2.name g) (glyphs (Font.table_coverage axis table)) <->
      sget (Font.variants_key axis) (ufoLib2.math_entries g) <> None)) /\
  (forall i n construction,
     nth_error (glyphs (Font.table_coverage axis table)) i = Some n ->
     nth_error (Font.table_constructions axis table) i = Some construction ->
     exists g variants,
       In g (ufoLib2.glyphs font) /\ ufoLib2.name g = n /\
       sget (Font.variants_key axis) (ufoLib2.math_entries g)
       = Some (ufoLib2.MathVariantList variants) /\
       map VariantGlyph (con_MathGlyphVariantRecord construction) = variants /\
       VariantCount construction = List.length variants /\
       (sget (Font.composition_key axis) (ufoLib2.math_entries g) = None ->
        con_GlyphAssembly construction = None)).
Proof.
  destruct (construction_entries _ _ _ _ axis Hunique Hfresh Hpp Htable)
    as [Hcovered Hconstructions].
  split.
  - intros g Hg. apply (Hcovered g Hg).
  - intros i n construction Hn Hcon.
    apply (Hconstructions i n construction Hn Hcon).
Qed.

Lemma constructions_follow_metadata_witness :
  exists g variants,
    In g (ufoLib2.glyphs Samples.math_font) /\
    ufoLib2.name g = "arrowright" /\
    sget "GlyphVariantsHorizontal" (ufoLib2.math_entries g)
    = Some (ufoLib2.MathVariantList variants) /\
    map VariantGlyph [{| VariantGlyph := "arrowright.long";
                         AdvanceMeasurement := 1491 |}] = variants /\
    1%nat = List.length variants /\
    (sget "GlyphCompositionHorizontal" (ufoLib2.math_entries g) = None ->
     @None GlyphAssembly = None).
Proof.
  destruct (constructions_follow_metadata (H := Samples.straight_lines)
              Samples.math_font Samples.compiled _ _ Font.Horizontal
              eq_refl eq_refl eq_refl eq_refl) as [_ Hcons].
  exact (Hcons 0%nat "arrowright"
           {| con_GlyphAssembly := None; VariantCount := 1;
              con_MathGlyphVariantRecord :=
                [{| VariantGlyph := "arrowright.long";
                    AdvanceMeasurement := 1491 |}] |}
           eq_refl eq_refl).
Defined.

(** A MATH table is only built for a font in which each of the four glyph
    keys is declared somewhere: an italic correction, a top accent position,
    vertical variants and horizontal variants.  With one of them missing from
    every glyph the coverage builder hands back [None] and the build
    fails. *)
Theorem math_table_needs_every_table `{Externals} (font : ufoLib2.Font)
  (otf otf' : TTFont) (table : MATH)
  (Hunique : ufoLib2.unique_names font = true)
  (Hfresh : tt_MATH otf = None)
  (Hpp : Font._post_process font otf = Ok otf')
  (Htable : tt_MATH otf' = Some table) :
  (forall t, exists g,
     In g (ufoLib2.glyphs font) /\
     sget (Font.value_key t) (ufoLib2.math_entries g) <> None) /\
  (forall axis, exists g,
     In g (ufoLib2.glyphs font) /\
     sget (Font.variants_key axis) (ufoLib2.math_entries g) <> None).
Proof.
  destruct (post_process_MATH _ _ _ _ Hfresh Hpp Htable)
    as (constants & _ & _ & Hbuild).
  split.
  - intros t.
    destruct (build_MATH_values _ _ _ t Hbuild) as (c & _ & Hcv).
    apply covered_values_Ok in Hcv. destruct Hcv as [Hcov Hvals].
    apply buildCoverage_nonempty in Hcov.
    destruct (glyphs (Font.value_coverage t table)) as [| n ns] eqn:Hns;
      [now contradiction Hcov |].
    destruct (Font.value_records t table) as [| v vs] eqn:Hvs;
      [inversion Hvals |].
    destruct (value_table_entries _ _ _ _ t Hunique Hfresh Hpp Htable)
      as (_ & Hvalues & _).
    destruct (Hvalues 0%nat n v) as (g & Hg & _ & Hdeclared).
    + rewrite Hns. reflexivity.
    + rewrite Hvs. reflexivity.
    + exists g. split; [exact Hg | congruence].
  - intros axis.
    destruct (build_MATH_axis _ _ _ axis Hbuild) as (c & _ & Hax).
    apply axis_constructions_Ok in Hax. destruct Hax as [Hcov Hcons].
    apply buildCoverage_nonempty in Hcov.
    destruct (glyphs (Font.table_coverage axis table)) as [| n ns] eqn:Hns;
      [now contradiction Hcov |].
    destruct (Font.table_constructions axis table) as [| con cons] eqn:Hc;
      [inversion Hcons |].
    destruct (construction_entries _ _ _ _ axis
                Hunique Hfresh Hpp Htable) as [_ Hfollow].
    destruct (Hfollow 0%nat n con) as (g & vs & Hg & _ & Hdeclared & _).
    + rewrite Hns. reflexivity.
    + rewrite Hc. reflexivity.
    + exists g. split; [exact Hg | congruence].
Qed.

Lemma math_table_needs_every_table_witness :
  exists g,
    In g (ufoLib2.glyphs Samples.math_font) /\
    sget "GlyphVariantsHorizontal" (ufoLib2.math_entries g) <> None.
Proof.
  destruct (math_table_needs_every_table (H := Samples.straight_lines)
              Samples.math_font Samples.compiled _ _
              eq_refl eq_refl eq_refl eq_refl) as [_ Haxis].
  exact (Haxis Font.Horizontal).
Defined.

(** ** Glyph IDs *)

Lemma enumerate_In {A : Type} (l : list A) (s i : Z) (a : A) :
  In (i, a) (otl.enumerate s l) <->
  s <= i /\ nth_error l (Z.to_nat (i - s)) = Some a.
Proof.
  revert s. induction l as [| b l IH]; simpl; intros s.
  - split; [intros [] | intros [_ Hn]].
    destruct (Z.to_nat (i - s)); discriminate Hn.
  - rewrite IH. split.
    + intros [Heq | [Hle Hn]].
      * injection Heq as <- <-. rewrite Z.sub_diag. split; [lia | reflexivity].
      * split; [lia |].
        replace (Z.to_nat (i - s)) with (S (Z.to_nat (i - (s + 1)))) by lia.
        exact Hn.
    + intros [Hle Hn].
      destruct (Z.eq_dec i s) as [-> | Hne].
      * rewrite Z.sub_diag in Hn. simpl in Hn. injection Hn as <-. now left.
      * right. split; [lia |].
        replace (Z.to_nat (i - s)) with (S (Z.to_nat (i - (s + 1)))) in Hn
          by lia.
        exact Hn.
Qed.

Lemma glyphMap_defined (ps : list (Z * string)) (m : sdict Z) (n : string) :
  In n (map snd ps) \/ sget n m <> None ->
  sget n (fold_left (fun m p => sset (snd p) (fst p) m) ps m) <> None.
Proof.
  revert m. induction ps as [| [j k] ps IH]; simpl; intros m Hn.
  - destruct Hn as [[] | Hn]. exact Hn.
  - apply IH. destruct Hn as [[<- | Hin] | Hm].
    + right. rewrite sget_sset_same. discriminate.
    + now left.
    + right. destruct (string_dec n k) as [-> | Hne].
      * rewrite sget_sset_same. discriminate.
      * rewrite sget_sset_other by exact Hne. exact Hm.
Qed.

Lemma glyphMap_last (l : list string) (s : Z) (m : sdict Z) (n : string) (i : Z) :
  sget n (fold_left (fun m p => sset (snd p) (fst p) m) (otl.enumerate s l) m)
  = Some i ->
  (In (i, n) (otl.enumerate s l) /\
   forall j, In (j, n) (otl.enumerate s l) -> j <= i) \/
  ((forall j, ~ In (j, n) (otl.enumerate s l)) /\ sget n m = Some i).
Proof.
  revert s m. induction l as [| a l IH]; simpl; intros s m Hget.
  - right. split; [intros j [] | exact Hget].
  - destruct (IH _ _ Hget) as [[Hin Hmax] | [Hnone Hm]].
    + left. split; [now right |].
      intros j [Heq | Hj]; [| apply Hmax, Hj].
      injection Heq as <- _. apply enumerate_lower in Hin. lia.
    + destruct (string_dec n a) as [-> | Hne].
      * rewrite sget_sset_same in Hm. injection Hm as <-.
        left. split; [now left |].
        intros j [Heq | Hj]; [injection Heq as <-; lia |].
        now contradiction (Hnone j).
      * rewrite sget_sset_other in Hm by exact Hne.
        right. split; [| exact Hm].
        intros j [Heq | Hj]; [congruence | now apply (Hnone j)].
Qed.

(** The glyph ID of a name is the position of its last occurrence in
    [font.glyphOrder]: the names with an ID are the names of the glyph order,
    the ID of a name is a position where the name stands, and the name stands
    at no later position. *)
Theorem glyph_id_is_last_position (order : list string) (n : string) :
  (In n order <-> sget n (otl.make_glyphMap order) <> None) /\
  (forall i, sget n (otl.make_glyphMap order) = Some i ->
     0 <= i /\
     nth_error order (Z.to_nat i) = Some n /\
     forall j, nth_error order j = Some n -> Z.of_nat j <= i).
Proof.
  unfold otl.make_glyphMap. split; [split |].
  - intros Hin. apply glyphMap_defined. left.
    apply In_nth_error in Hin. destruct Hin as [j Hj].
    apply in_map_iff. exists (Z.of_nat j, n). split; [reflexivity |].
    apply enumerate_In. split; [lia |].
    replace (Z.to_nat (Z.of_nat j - 0)) with j by lia. exact Hj.
  - intros Hdefined.
    destruct (sget n _) as [i |] eqn:Hget; [| now contradiction Hdefined].
    apply glyphMap_last in Hget.
    destruct Hget as [[Hin _] | [_ Hm]]; [| discriminate Hm].
    apply enumerate_In in Hin. destruct Hin as [_ Hn].
    eapply nth_error_In. exact Hn.
  - intros i Hget. apply glyphMap_last in Hget.
    destruct Hget as [[Hin Hmax] | [_ Hm]]; [| discriminate Hm].
    apply enumerate_In in Hin. destruct Hin as [Hle Hn].
    rewrite Z.sub_0_r in Hn. split; [exact Hle |]. split; [exact Hn |].
    intros j Hj. apply Hmax, enumerate_In. split; [lia |].
    replace (Z.to_nat (Z.of_nat j - 0)) with j by lia. exact Hj.
Qed.

Lemma glyph_id_is_last_position_witness :
  0 <= 8 /\
  nth_error Samples.math_order (Z.to_nat 8) = Some "x" /\
  forall j, nth_error Samples.math_order j = Some "x" -> Z.of_nat j <= 8.
Proof.
  apply (proj2 (glyph_id_is_last_position Samples.math_order "x") 8).
  reflexivity.
Defined.

(** ** The hint pen *)

Lemma pen_call_effect (pen : HintPen.t) (c : PenCall) :
  exists line,
    HintPen._bez (HintPen.call pen c) = (HintPen._bez pen ++ [line])%list /\
    HintPen._done (HintPen.call pen c)
    = (HintPen._done pen || match c with endPath => true | _ => false end)%bool /\
    HintPen._width (HintPen.call pen c) = HintPen._width pen /\
    HintPen._info (HintPen.call pen c) = HintPen._info pen.
Proof.
  destruct c; simpl; eexists; (split; [reflexivity |]);
    rewrite ?orb_false_r, ?orb_true_r; auto.
Qed.

Lemma pen_draw_effect (calls : list PenCall) (pen : HintPen.t) :
  exists lines,
    List.length lines = List.length calls /\
    HintPen._bez (HintPen.draw calls pen) = (HintPen._bez pen ++ lines)%list /\
    HintPen._done (HintPen.draw calls pen)
    = (HintPen._done pen
       || existsb (fun c => match c with endPath => true | _ => false end) calls)%bool /\
    HintPen._width (HintPen.draw calls pen) = HintPen._width pen /\
    HintPen._info (HintPen.draw calls pen) = HintPen._info pen.
Proof.
  unfold HintPen.draw. revert pen.
  induction calls as [| c calls IH]; simpl; intros pen.
  - exists []. rewrite app_nil_r, orb_false_r. auto.
  - destruct (pen_call_effect pen c) as (line & Hb & Hd & Hw & Hi).
    destruct (IH (HintPen.call pen c)) as (lines & Hlen & Hb' & Hd' & Hw' & Hi').
    exists (line :: lines). split; [simpl; congruence |].
    split; [rewrite Hb', Hb, <- app_assoc; reflexivity |].
    split; [rewrite Hd', Hd, orb_assoc; reflexivity |].
    split; congruence.
Qed.

(** A pen driven through an outline has recorded the two header lines,
    [% name] and [sc], and then exactly one line per call; it is done
    exactly when one of the calls was [endPath], and it still carries the
    width operand and the hint information it was made with. *)
Theorem pen_records_every_call (width : PyObj) (name info : string)
  (calls : list PenCall) :
  let pen := HintPen.draw calls (HintPen.init width name info) in
  (exists lines,
     List.length lines = List.length calls /\
     HintPen._bez pen = ("% " ++ name) :: "sc" :: lines) /\
  (HintPen._done pen = true <-> In endPath calls) /\
  HintPen._width pen = width /\
  HintPen._info pen = info.
Proof.
  intros pen.
  destruct (pen_draw_effect calls (HintPen.init width name info))
    as (lines & Hlen & Hb & Hd & Hw & Hi).
  fold pen in Hb, Hd, Hw, Hi.
  split; [exists lines; split; [exact Hlen | exact Hb] |].
  split; [| split; [exact Hw | exact Hi]].
  rewrite Hd. simpl. rewrite existsb_exists. split.
  - intros (c & Hin & Hc). destruct c; try discriminate Hc. exact Hin.
  - intros Hin. exists endPath. split; [exact Hin | reflexivity].
Qed.

Lemma pen_records_every_call_witness :
  HintPen._done
    (HintPen.draw [moveTo (0%Q, 0%Q); lineTo (1%Q, 0%Q); closePath]
       (HintPen.init PyNone "A" "")) = true
  <-> In endPath [moveTo (0%Q, 0%Q); lineTo (1%Q, 0%Q); closePath].
Proof.
  exact (proj1 (proj2 (pen_records_every_call PyNone "A" ""
                         [moveTo (0%Q, 0%Q); lineTo (1%Q, 0%Q); closePath]))).
Defined.

(** ** Rounding of coordinates *)

Lemma py_round_nearest (x : Q) :
  2 * Z.abs (Qnum x - py_round x * Zpos (Qden x)) <= Zpos (Qden x).
Proof.
  unfold py_round. destruct x as [n d]. cbn [Qnum Qden].
  pose proof (Z.div_mod n (Zpos d) ltac:(lia)) as Hdm.
  pose proof (Z.mod_pos_bound n (Zpos d) ltac:(lia)) as Hmod.
  set (q := n / Zpos d) in *. set (r := n mod Zpos d) in *.
  set (D := Zpos d) in *.
  destruct (Z.compare_spec (2 * r) D); [destruct (Z.even q) | |].
  all: try (replace (n - q * D) with r by lia).
  all: try (replace (n - (q + 1) * D) with (r - D) by lia).
  all: lia.
Qed.

Lemma py_round_integer (z : Z) : py_round (inject_Z z) = z.
Proof.
  unfold py_round, inject_Z. simpl.
  rewrite Z.mod_1_r, Z.div_1_r. reflexivity.
Qed.

(** [_point] writes each coordinate as the integer nearest to it (no further
    than half a unit), and integer coordinates as they are. *)
Theorem point_rounds_to_nearest (point : list Q) :
  exists zs,
    HintPen._point point = join " " (map format_d zs) /\
    Forall2 (fun x z => 2 * Z.abs (Qnum x - z * Zpos (Qden x)) <= Zpos (Qden x))
            point zs /\
    (forall ints, point = map inject_Z ints -> zs = ints).
Proof.
  exists (map py_round point). unfold HintPen._point.
  split; [rewrite map_map; reflexivity |]. split.
  - induction point as [| x point IH]; constructor;
      [apply py_round_nearest | exact IH].
  - intros ints ->. rewrite map_map.
    induction ints as [| z ints IH]; simpl; [reflexivity |].
    rewrite py_round_integer, IH. reflexivity.
Qed.

Lemma point_rounds_to_nearest_witness :
  exists zs,
    HintPen._point [inject_Z 10; inject_Z (-3)] = join " " (map format_d zs) /\
    zs = [10; -3].
Proof.
  destruct (point_rounds_to_nearest [inject_Z 10; inject_Z (-3)])
    as (zs & Htext & _ & Hints).
  exists zs. split; [exact Htext | apply Hints; reflexivity].
Defined.

(** ** Splitting and the version string *)


Lemma split_length (c : ascii) (s : string) :
  List.length (split c s) = S (count c s).
Proof.
  induction s as [| a s IH]; simpl; [reflexivity |].
  destruct (Ascii.eqb a c); simpl; [rewrite IH; reflexivity |].
  destruct (split c s) as [| h t]; [discriminate IH | exact IH].
Qed.


Lemma split_without (c : ascii) (s : string) :
  count c s = 0%nat -> split c s = [s].
Proof.
  induction s as [| a s IH]; simpl; [reflexivity |].
  destruct (Ascii.eqb a c); [discriminate |].
  intros Hc. rewrite (IH Hc). reflexivity.
Qed.

Lemma split_at_first (c : ascii) (a b : string) :
  count c a = 0%nat -> split c (a ++ String c b) = a :: split c b.
Proof.
  induction a as [| x a IH]; simpl.
  - intros _. rewrite Ascii.eqb_refl. reflexivity.
  - destruct (Ascii.eqb x c); [discriminate |].
    intros Hc. rewrite (IH Hc). reflexivity.
Qed.

Lemma int_of_str_error `{Numerals} (s : string) (e : PyError) :
  int_of_str s = Raise e -> e = ValueError.
Proof.
  unfold int_of_str. destruct (is_ascii s).
  - unfold int_of_ascii. intros He.
    destruct (strip s) as [| c r].
    + destruct (digits 0 false ""); [discriminate He | congruence].
    + destruct c as [[] [] [] [] [] [] [] []];
        repeat match type of He with
               | match ?d with _ => _ end = _ => destruct d
               end;
        first [discriminate He | congruence].
  - destruct (int_of_numeral s); [discriminate | congruence].
Qed.



(** A part of an assembly is read only from a string with exactly three
    commas, and reading it fails in no other way than with a
    [ValueError]. *)
Theorem part_record_needs_four_fields `{Numerals} (comp : string * string) :
  (forall record, Font.part_record comp = Ok record ->
                  count "," (snd comp) = 3%nat) /\
  (forall e, Font.part_record comp = Raise e -> e = ValueError).
Proof.
  unfold Font.part_record. split.
  - intros record Hp.
    apply bind_Ok in Hp. destruct Hp as (fields & Hfields & Hp).
    destruct fields as [| f [| s [| e [| a [| x fields]]]]]; try discriminate Hp.
    apply mapM_length in Hfields. rewrite split_length in Hfields.
    simpl in Hfields. lia.
  - intros e Hp.
    destruct (mapM int_of_str (split "," (snd comp))) as [fields | e'] eqn:Hm.
    + simpl in Hp.
      destruct fields as [| f [| s [| x [| a [| y fields]]]]]; congruence.
    + simpl in Hp. injection Hp as <-.
      clear - Hm. revert Hm.
      generalize (split "," (snd comp)). intros l.
      induction l as [| s l IH]; simpl; [discriminate |].
      destruct (int_of_str s) as [z | e1] eqn:Hs.
      * destruct (mapM int_of_str l) as [zs | e2]; [discriminate |].
        intros Heq. injection Heq as <-. apply IH. reflexivity.
      * intros Heq. injection Heq as <-. apply (int_of_str_error _ _ Hs).
Qed.

Lemma part_record_needs_four_fields_witness :
  count "," "1,100,100,200" = 3%nat.
Proof.
  apply (proj1 (part_record_needs_four_fields (H := Samples.ascii_numerals)
                  ("parenleft.ext", "1,100,100,200"))
           {| glyph := "parenleft.ext"; StartConnectorLength := 100;
              EndConnectorLength := 100; FullAdvance := 200; PartFlags := 1 |}).
  reflexivity.
Defined.

(** ** Preprocessor macros *)

Lemma prefix_spec (d s : string) :
  String.prefix d s = true <-> exists q, s = d ++ q.
Proof.
  revert s. induction d as [| c d IH]; intros s; simpl.
  - split; [intros _; now exists s | intros _; destruct s; reflexivity].
  - destruct s as [| c' s]; simpl.
    + split; [discriminate | intros [q Hq]; discriminate Hq].
    + destruct (ascii_dec c c') as [-> | Hne].
      * rewrite IH. split; intros [q Hq]; exists q; congruence.
      * split; [discriminate | intros [q Hq]; congruence].
Qed.

Lemma contains_str_spec (d s : string) :
  contains_str d s = true <-> exists p q, s = p ++ d ++ q.
Proof.
  induction s as [| c s IH].
  - change (contains_str d "") with (String.prefix d "" || false)%bool.
    rewrite orb_false_r, prefix_spec. split.
    + intros [q Hq]. exists "", q. exact Hq.
    + intros (p & q & Hs). destruct p as [| x p]; [| discriminate Hs].
      exists q. exact Hs.
  - change (contains_str d (String c s))
      with (String.prefix d (String c s) || contains_str d s)%bool.
    rewrite orb_true_iff, prefix_spec, IH. split.
    + intros [[q Hq] | (p & q & Hs)].
      * exists "", q. exact Hq.
      * exists (String c p), q. simpl. rewrite Hs. reflexivity.
    + intros (p & q & Hs). destruct p as [| x p].
      * left. exists q. exact Hs.
      * right. simpl in Hs. injection Hs as _ Hs. exists p, q. exact Hs.
Qed.

Lemma lower_app (a b : string) : lower (a ++ b) = lower a ++ lower b.
Proof.
  induction a as [| c a IH]; simpl; [reflexivity | rewrite IH; reflexivity].
Qed.

Lemma append_assoc (a b c : string) : (a ++ b) ++ c = a ++ b ++ c.
Proof.
  induction a as [| x a IH]; simpl; [reflexivity | rewrite IH; reflexivity].
Qed.

(** Without a feature file no macro is defined.  With one, the macro of a
    keyword is defined exactly when the keyword occurs in the lower-cased
    input path, wherever in the path that is; so whatever is put before or
    after a path takes no macro away. *)
Theorem defined_macros_spec (filename d : string) (features : option string)
  (Hd : In d Font.keywords) :
  (features = None \/ features = Some "" ->
   Font.defined_macros filename features = []) /\
  (In (upper d) (Font.defined_macros filename features) <->
   (exists path, features = Some path /\ path <> "") /\
   exists p q, lower filename = p ++ d ++ q) /\
  (forall before after,
     In (upper d) (Font.defined_macros filename features) ->
     In (upper d) (Font.defined_macros (before ++ filename ++ after) features)).
Proof.
  assert (Hgiven : Font.given features = true <->
                   exists path, features = Some path /\ path <> "").
  { unfold Font.given. destruct features as [path |].
    - destruct (String.eqb_spec path "") as [-> | Hne]; simpl.
      + split; [discriminate |]. intros (path & Hpath & Hne).
        injection Hpath as <-. now contradiction Hne.
      + split; [| reflexivity]. intros _. exists path. auto.
    - split; [discriminate | intros (path & Hpath & _); discriminate Hpath]. }
  assert (Hspec : forall f,
            In (upper d) (Font.defined_macros f features) <->
            (exists path, features = Some path /\ path <> "") /\
            exists p q, lower f = p ++ d ++ q).
  { intros f. unfold Font.defined_macros. rewrite <- Hgiven.
    destruct (Font.given features).
    - rewrite <- contains_str_spec, in_map_iff. split.
      + intros (d' & Hupper & Hin). apply filter_In in Hin.
        destruct Hin as [Hd' Hfound]. split; [reflexivity |].
        assert (d' = d); [| congruence].
        unfold Font.keywords in Hd, Hd'. simpl in Hd, Hd'.
        destruct Hd as [<- | [<- | [<- | [<- | []]]]];
          destruct Hd' as [<- | [<- | [<- | [<- | []]]]];
          first [reflexivity | discriminate Hupper].
      + intros [_ Hfound]. exists d. split; [reflexivity |].
        apply filter_In. split; assumption.
    - split; [intros [] | intros [Hfalse _]; discriminate Hfalse]. }
  split; [| split; [apply Hspec |]].
  - unfold Font.defined_macros. intros [-> | ->]; reflexivity.
  - intros before after Hin. apply Hspec in Hin. apply Hspec.
    destruct Hin as (Hfile & p & q & Hlower). split; [exact Hfile |].
    exists (lower before ++ p), (q ++ lower after).
    rewrite !lower_app, Hlower, !append_assoc. reflexivity.
Qed.

Lemma defined_macros_spec_witness :
  In "MATH" (Font.defined_macros "fonts/LibertinusMath-Regular.sfd"
               (Some "features/libertinus.fea")).
Proof.
  apply (proj2 (proj1 (proj2 (defined_macros_spec
                                "fonts/LibertinusMath-Regular.sfd" "math"
                                (Some "features/libertinus.fea")
                                ltac:(simpl; tauto))))).
  split.
  - eexists. split; [reflexivity | discriminate].
  - exists "fonts/libertinus", "-regular.sfd". reflexivity.
Defined.

(** ** From the outline to the charstring *)

(** A charstring comes from one round through the hinter.  The hinter is
    given no hint information and the outline as text: the comment line with
    the glyph name, [sc], one line per pen call, and a closing [ed] unless
    the outline called [endPath] itself.  What it returns is converted, and
    the program is the conversion behind the width operand. *)
Theorem charstring_from_hinter `{Externals} (allGlyphs : ufoLib2.Font)
  (glyph : ufoLib2.Glyph) (priv : HintPen.Private)
  (subrs : option (list (list PyObj))) (cs : HintPen.T2CharString)
  (Hcs : OutlineCompiler.getCharStringForGlyph allGlyphs glyph priv subrs
         = Ok cs) :
  exists lines hinted converted,
    List.length lines = List.length (simplified_outline allGlyphs glyph) /\
    hint_bez_glyph ""
      (join (String "010" "")
         (("% " ++ ufoLib2.name glyph) :: "sc"
            :: lines
            ++ (if existsb (fun c => match c with endPath => true | _ => false end)
                     (simplified_outline allGlyphs glyph)
                then [] else ["ed"])))
    = Ok hinted /\
    convertBezToT2 hinted = Ok converted /\
    HintPen.program cs
    = PyInt (ufoLib2.width glyph - HintPen.nominalWidthX priv) :: converted /\
    HintPen.private cs = priv /\
    HintPen.globalSubrs cs = subrs.
Proof.
  unfold OutlineCompiler.getCharStringForGlyph, HintPen.getCharString in Hcs.
  rewrite width_operand_value in Hcs.
  destruct (pen_draw_effect (simplified_outline allGlyphs glyph)
              (HintPen.init
                 (PyInt (ufoLib2.width glyph - HintPen.nominalWidthX priv))
                 (ufoLib2.name glyph) ""))
    as (lines & Hlen & Hbez & Hdone & Hwidth & Hinfo).
  simpl in Hbez, Hdone, Hwidth, Hinfo.
  set (pen := HintPen.draw _ _) in *.
  exists lines.
  destruct (HintPen._done pen) eqn:Hd; rewrite <- Hdone.
  - apply bind_Ok in Hcs. destruct Hcs as (hinted & Hhinted & Hcs).
    apply bind_Ok in Hcs. destruct Hcs as (converted & Hconverted & Hcs).
    injection Hcs as <-. rewrite Hwidth, Hinfo, Hbez in *.
    exists hinted, converted. rewrite app_nil_r.
    split; [exact Hlen |]. split; [exact Hhinted |].
    split; [exact Hconverted |]. cbn. auto.
  - apply bind_Ok in Hcs. destruct Hcs as (hinted & Hhinted & Hcs).
    apply bind_Ok in Hcs. destruct Hcs as (converted & Hconverted & Hcs).
    injection Hcs as <-. simpl in *. rewrite Hwidth, Hinfo, Hbez in *.
    exists hinted, converted.
    split; [exact Hlen |]. split; [exact Hhinted |].
    split; [exact Hconverted |]. cbn. auto.
Qed.

Lemma charstring_from_hinter_witness :
  exists lines hinted converted,
    List.length lines = 5%nat /\
    Ok (join (String "010" "")
          (("% " ++ "A") :: "sc" :: lines ++ ["ed"])) = Ok hinted /\
    Ok [PyStr "endchar"] = Ok converted /\
    [PyInt 50; PyStr "endchar"] = PyInt (450 - 400) :: converted /\
    {| HintPen.defaultWidthX := 500; HintPen.nominalWidthX := 400 |}
    = {| HintPen.defaultWidthX := 500; HintPen.nominalWidthX := 400 |} /\
    @None (list (list PyObj)) = None.
Proof.
  apply (charstring_from_hinter (H := Samples.straight_lines)
           Samples.math_font (Samples.plain "A" 450 [Samples.box])
           {| HintPen.defaultWidthX := 500; HintPen.nominalWidthX := 400 |}
           None _ eq_refl).
Defined.

(** ** Variant glyphs *)

Lemma Forall2_In_l {A B : Type} (R : A -> B -> Prop) (l : list A) (l' : list B)
  (a : A) :
  Forall2 R l l' -> In a l -> exists b, In b l' /\ R a b.
Proof.
  induction 1 as [| a0 b0 l l' Hab _ IH]; intros Hin.
  - destruct Hin.
  - destruct Hin as [<- | Hin].
    + exists b0. split; [now left | exact Hab].
    + destruct (IH Hin) as (b & Hb & Hr). exists b. split; [now right | exact Hr].
Qed.

(** For a font with font-level MATH constants, post-processing succeeds only
    if every variant a glyph declares is a glyph of the font and has a
    bounding box: with such constants, a variant list that names a missing or
    an empty glyph aborts the build. *)
Theorem declared_variants_exist `{Externals} (font : ufoLib2.Font)
  (otf otf' : TTFont) (constants : sdict Z) (axis : Font.Axis)
  (g : ufoLib2.Glyph) (variants : list string) (variant : string)
  (Hunique : ufoLib2.unique_names font = true)
  (Hconstants : ufoLib2.font_lib_math font = Some constants)
  (Hsome : constants <> [])
  (Hpp : Font._post_process font otf = Ok otf')
  (Hg : In g (ufoLib2.glyphs font))
  (Hdeclared : sget (Font.variants_key axis) (ufoLib2.math_entries g)
               = Some (ufoLib2.MathVariantList variants))
  (Hvariant : In variant variants) :
  exists v bbox,
    ufoLib2.getitem font variant = Ok v /\ getBounds font v = Some bbox.
Proof.
  destruct (post_process_with_constants _ _ _ _ Hconstants Hsome Hpp)
    as (table & Hbuild & _).
  destruct (build_MATH_axis _ _ _ axis Hbuild) as (c & Hc & Hax).
  apply axis_constructions_Ok in Hax. destruct Hax as [Hcov Hcons].
  apply distinct_NoDup in Hunique.
  destruct (collect_axis_entries axis _ _ _ Hunique Hc) as [_ Hin].
  specialize (Hin g Hg). rewrite Hdeclared in Hin.
  destruct Hin as (vs & Hvs & Hget & _). injection Hvs as <-.
  assert (Hcovered : In (ufoLib2.name g) (glyphs (Font.table_coverage axis table))).
  { apply (buildCoverage_In_iff _ _ _ _ Hcov), sget_In_keys. congruence. }
  destruct (Forall2_In_l _ _ _ _ Hcons Hcovered) as (con & _ & Hcon).
  apply glyph_construction_Ok in Hcon.
  destruct Hcon as (variants' & Hvariants' & _ & Hrecords & _).
  assert (variants' = variants) by congruence. subst variants'.
  destruct (Forall2_In_l _ _ _ _ Hrecords Hvariant) as (record & _ & Hrecord).
  apply variant_record_Ok in Hrecord.
  destruct Hrecord as (v & bbox & Hv & Hbbox & _).
  exists v, bbox. auto.
Qed.

Lemma declared_variants_exist_witness :
  exists v bbox,
    ufoLib2.getitem Samples.math_font "parenleft.big" = Ok v /\
    getBounds (Externals := Samples.straight_lines) Samples.math_font v
    = Some bbox.
Proof.
  apply (declared_variants_exist (H := Samples.straight_lines)
           Samples.math_font Samples.compiled _ Samples.math_constants
           Font.Vertical
           Samples.parenleft ["parenleft"; "parenleft.big"] "parenleft.big"
           eq_refl eq_refl ltac:(discriminate) eq_refl).
  - simpl. do 2 right. left. reflexivity.
  - reflexivity.
  - simpl. right. left. reflexivity.
Defined.
